(** * eisy: the circuit model engine, embedded and verified

    A shallow embedding of [eisy.core] (elements.py, parsing.py, fitting.py):
    the textual circuit grammar, the impedance evaluator, the parameter codec
    of [CircuitNode.fit] and the model selector [best_model].

    Modelling conventions.
    - A Python [str] is a [string]; its characters are the code points
      0..255 ([ascii]).
    - A Python exception is a value of [exn]; a call that may raise returns
      a [result].
    - A float is a real number ([R]), a complex number is a pair of reals,
      and arithmetic is exact: rounding is not modelled.  A division of
      Python scalars whose divisor is zero has no value: it is the error
      [ZeroDivisionError].  Where a statement is about the floats themselves,
      the arithmetic of the evaluator is given again over binary64
      ([impedance64]).
    - A NumPy array is a list, and the evaluation of a circuit on an array of
      frequencies is its evaluation at each frequency, as long as that does
      not divide by zero: there a Python float raises and an array holds inf
      or nan, and it is the Python float that is modelled.  The quotient
      behind R², which NumPy computes without ever raising, is a
      [np_float]: a number, an infinity or nan.
    - The [fuel] argument of [parse_circuit] bounds the depth to which its
      calls nest; running out of it is [RecursionError].  The interpreter
      raises that error when its frames exceed the recursion limit, and a
      nested call of [parse_circuit] can take several frames: the fuel is
      the nesting depth that the limit leaves room for, not the limit.
    - A parameter mapping is a [gmap string pval] whose values are floats or
      tuples of floats; the mappings that the caller passes live in a [store]
      and [fit] updates them in place.
    - [scipy.optimize.curve_fit] is a parameter of [fit].  Log lines are not
      modelled; the warnings of [best_model] are part of its result. *)

From Corelib Require PrimFloat.
From Stdlib Require Import Ascii String ZArith Reals Lra.
From stdpp Require Import base option list gmap strings sorting.

Local Open Scope string_scope.

(** ** Exceptions and results *)

Inductive exn : Type :=
  | ValueError (msg : string)
  | IndexError (msg : string)
  | KeyError (key : string)
  | TypeError (msg : string)
  | ZeroDivisionError (msg : string)
  | RuntimeError (msg : string)
  | RecursionError.

Inductive result (A : Type) : Type :=
  | Ok (a : A)
  | Err (e : exn).
Arguments Ok {A} a.
Arguments Err {A} e.

#[global] Instance result_ret : MRet result := fun A a => Ok a.
#[global] Instance result_bind : MBind result := fun A B k m =>
  match m with
  | Ok a => k a
  | Err e => Err e
  end.

(** A list comprehension [[f(x) for x in xs]]: left to right, the first
    exception ends it. *)
Fixpoint traverse {A B : Type} (f : A -> result B) (xs : list A) : result (list B) :=
  match xs with
  | [] => Ok []
  | x :: xs' =>
      y ← f x;
      ys ← traverse f xs';
      Ok (y :: ys)
  end.

Definition is_ok {A : Type} (m : result A) : bool :=
  match m with Ok _ => true | Err _ => false end.

(** ** Strings *)

Module Str.

(** The characters below 256 for which [str.isspace] holds. *)
Definition isspace (c : ascii) : bool :=
  let n := nat_of_ascii c in
  (((9 <=? n) && (n <=? 13)) || ((28 <=? n) && (n <=? 32))
   || (n =? 133) || (n =? 160))%nat.

Fixpoint lstrip (s : string) : string :=
  match s with
  | String c s' => if isspace c then lstrip s' else s
  | EmptyString => EmptyString
  end.

(** [rstrip] keeps a character when it is no space or when something is
    kept after it. *)
Fixpoint rstrip (s : string) : string :=
  match s with
  | String c s' =>
      match rstrip s' with
      | EmptyString => if isspace c then EmptyString else String c EmptyString
      | r => String c r
      end
  | EmptyString => EmptyString
  end.

Definition strip (s : string) : string := rstrip (lstrip s).

(** [c in s] for a one-character [c]. *)
Fixpoint contains (c : ascii) (s : string) : bool :=
  match s with
  | String d s' => Ascii.eqb d c || contains c s'
  | EmptyString => false
  end.

Definition startswith (c : ascii) (s : string) : bool :=
  match s with
  | String d _ => Ascii.eqb d c
  | EmptyString => false
  end.

Fixpoint endswith (c : ascii) (s : string) : bool :=
  match s with
  | String d EmptyString => Ascii.eqb d c
  | String _ s' => endswith c s'
  | EmptyString => false
  end.

(** [s[:-1]] *)
Fixpoint drop_last (s : string) : string :=
  match s with
  | String _ EmptyString => EmptyString
  | String d s' => String d (drop_last s')
  | EmptyString => EmptyString
  end.

(** [s[1:-1]] *)
Definition inner (s : string) : string :=
  match s with
  | String _ s' => drop_last s'
  | EmptyString => EmptyString
  end.

(** [''.join(cs)] for a list of characters. *)
Definition join (cs : list ascii) : string := string_of_list_ascii cs.

End Str.

(** ** [repr] of a [str] and [str] of an exception *)

(** The double quote. *)
Definition dquote : ascii := ascii_of_nat 34.

(** The characters below 256 for which [str.isprintable] holds. *)
Definition isprintable (c : ascii) : bool :=
  let n := nat_of_ascii c in
  (((32 <=? n) && (n <=? 126)) || ((161 <=? n) && negb (n =? 173)))%nat.

Definition hex_digit (n : nat) : ascii :=
  ascii_of_nat (if (n <? 10)%nat then 48 + n else 87 + n).

(** One character as [repr] writes it between the quotes [quote]. *)
Definition repr_char (quote c : ascii) : string :=
  let n := nat_of_ascii c in
  if Ascii.eqb c quote || Ascii.eqb c "\" then String "\" (String c "")
  else if (n =? 9)%nat then "\t"
  else if (n =? 10)%nat then "\n"
  else if (n =? 13)%nat then "\r"
  else if isprintable c then String c ""
  else
    String "\" (String "x" (String (hex_digit (n / 16))
                              (String (hex_digit (n mod 16)) ""))).

Fixpoint repr_chars (quote : ascii) (s : string) : string :=
  match s with
  | String c s' => repr_char quote c ++ repr_chars quote s'
  | EmptyString => EmptyString
  end.

(** [repr(s)]: between single quotes, or between double quotes when [s]
    has a single quote and no double quote. *)
Definition py_repr (s : string) : string :=
  let quote :=
    if Str.contains "'" s && negb (Str.contains dquote s) then dquote
    else "'"%char in
  String quote (repr_chars quote s ++ String quote "").

(** [str(e)] of an exception raised by this code: the message, and for
    a [KeyError] the [repr] of the key.  The text of a [RecursionError]
    depends on the call at which the interpreter meets its limit: what is
    given for it here is the beginning that its texts share, and the
    selector, which records the text, takes it as a parameter
    ([exn_text]). *)
Definition exn_message (e : exn) : string :=
  match e with
  | ValueError m | IndexError m | TypeError m
  | ZeroDivisionError m | RuntimeError m => m
  | KeyError k => py_repr k
  | RecursionError => "maximum recursion depth exceeded"
  end.

(** [str(e)], with [recursion_text] for the text of a
    [RecursionError]. *)
Definition exn_text (recursion_text : string) (e : exn) : string :=
  match e with
  | RecursionError => recursion_text
  | _ => exn_message e
  end.

(** ** elements.py: the element kinds *)

Inductive element_kind : Type :=
  | Resistor | Capacitor | Inductor | Warburg
  | WarburgShort | WarburgOpen | CPE.

(** A [CircuitElement]: its class and its [name] (None by default). *)
Record CircuitElement : Type := mkElement {
  kind : element_kind;
  name : option string
}.

Definition tag (k : element_kind) : string :=
  match k with
  | Resistor => "R" | Capacitor => "C" | Inductor => "L" | Warburg => "W"
  | WarburgShort => "S" | WarburgOpen => "O" | CPE => "Q"
  end.

(** [__str__]: the tag followed by the formatted name. *)
Definition element_str (e : CircuitElement) : string :=
  tag (kind e) ++ match name e with Some n => n | None => "None" end.

(** ** parsing.py: the circuit tree *)

#[warnings="-register-all"]
Inductive CircuitNode : Type :=
  | ElementNode (element : CircuitElement)
  | SeriesNode (children : list CircuitNode)
  | ParallelNode (children : list CircuitNode).

Definition RandlesNode : CircuitNode :=
  SeriesNode
    [ ElementNode (mkElement Resistor None);
      ParallelNode
        [ SeriesNode [ ElementNode (mkElement Resistor None);
                       ElementNode (mkElement Warburg None) ];
          ElementNode (mkElement CPE None) ] ].

(** ** parsing.py: the parser *)

(** The loop of [_split_by_operator]: [parts], [current] and [depth] are
    the three locals. *)
Fixpoint split_loop (operator : ascii) (s : string)
    (parts : list string) (current : list ascii) (depth : Z) : list string :=
  match s with
  | String char s' =>
      if Ascii.eqb char "(" then
        split_loop operator s' parts (current ++ [char]) (depth + 1)
      else if Ascii.eqb char ")" then
        split_loop operator s' parts (current ++ [char]) (depth - 1)
      else if Ascii.eqb char operator && (depth =? 0)%Z then
        split_loop operator s' (parts ++ [Str.strip (Str.join current)]) [] depth
      else
        split_loop operator s' parts (current ++ [char]) depth
  | EmptyString =>
      match current with
      | [] => parts
      | _ => parts ++ [Str.strip (Str.join current)]
      end
  end.

Definition _split_by_operator (s : string) (operator : ascii) : list string :=
  split_loop operator s [] [] 0.

(** [_create_element_node]: the first character selects the class, the
    rest is the name. *)
Definition _create_element_node (element_str : string) : result CircuitNode :=
  match Str.strip element_str with
  | EmptyString => Err (IndexError "string index out of range")
  | String element_type element_id =>
      if Ascii.eqb element_type "R" then
        Ok (ElementNode (mkElement Resistor (Some element_id)))
      else if Ascii.eqb element_type "C" then
        Ok (ElementNode (mkElement Capacitor (Some element_id)))
      else if Ascii.eqb element_type "L" then
        Ok (ElementNode (mkElement Inductor (Some element_id)))
      else if Ascii.eqb element_type "W" then
        Ok (ElementNode (mkElement Warburg (Some element_id)))
      else if Ascii.eqb element_type "Q" then
        Ok (ElementNode (mkElement CPE (Some element_id)))
      else
        Err (ValueError ("Unknown element type: " ++ String element_type EmptyString))
  end.

(** The scan of [_parse_with_parentheses]: the positions of the first
    top-level "|" and "-", or -1. *)
Fixpoint scan_operators (s : string) (i depth parallel_pos series_pos : Z) : Z * Z :=
  match s with
  | String char s' =>
      if Ascii.eqb char "(" then
        scan_operators s' (i + 1) (depth + 1) parallel_pos series_pos
      else if Ascii.eqb char ")" then
        scan_operators s' (i + 1) (depth - 1) parallel_pos series_pos
      else if (depth =? 0)%Z then
        if Ascii.eqb char "|" && (parallel_pos =? -1)%Z then
          scan_operators s' (i + 1) depth i series_pos
        else if Ascii.eqb char "-" && (series_pos =? -1)%Z then
          scan_operators s' (i + 1) depth parallel_pos i
        else
          scan_operators s' (i + 1) depth parallel_pos series_pos
      else
        scan_operators s' (i + 1) depth parallel_pos series_pos
  | EmptyString => (parallel_pos, series_pos)
  end.

Section Parser.

(** The recursive calls go to [parse_circuit]. *)
Variable parse_circuit : string -> result CircuitNode.

Definition _parse_with_parentheses (s : string) : result CircuitNode :=
  let '(parallel_pos, series_pos) := scan_operators s 0 0 (-1) (-1) in
  if negb (series_pos =? -1)%Z then
    children ← traverse parse_circuit (_split_by_operator s "-");
    Ok (SeriesNode children)
  else if negb (parallel_pos =? -1)%Z then
    children ← traverse parse_circuit (_split_by_operator s "|");
    Ok (ParallelNode children)
  else if Str.startswith "(" s && Str.endswith ")" s then
    parse_circuit (Str.inner s)
  else
    _create_element_node s.

Definition parse_circuit_body (s : string) : result CircuitNode :=
  let s := Str.strip s in
  if Str.contains "(" s then
    _parse_with_parentheses s
  else if Str.contains "-" s then
    children ← traverse parse_circuit (_split_by_operator s "-");
    Ok (SeriesNode children)
  else if Str.contains "|" s then
    children ← traverse parse_circuit (_split_by_operator s "|");
    Ok (ParallelNode children)
  else
    _create_element_node s.

End Parser.

(** [parse_circuit]; [fuel] bounds the depth to which its calls nest (not
    the frames of the interpreter, of which a nested call can take
    several). *)
Fixpoint parse_circuit (fuel : nat) (s : string) : result CircuitNode :=
  match fuel with
  | O => Err RecursionError
  | S fuel' => parse_circuit_body (parse_circuit fuel') s
  end.

(** An occurrence of [operator] outside every parenthesis, with the depth
    counted as the two scans count it. *)
Fixpoint top_level (operator : ascii) (s : string) (depth : Z) : bool :=
  match s with
  | String char s' =>
      if Ascii.eqb char "(" then top_level operator s' (depth + 1)
      else if Ascii.eqb char ")" then top_level operator s' (depth - 1)
      else (Ascii.eqb char operator && (depth =? 0)%Z) || top_level operator s' depth
  | EmptyString => false
  end.

(** ** Numbers *)

Module Cx.

Local Open Scope R_scope.

(** A Python [complex]: real and imaginary part. *)
Definition C : Type := (R * R)%type.

Definition of_real (x : R) : C := (x, 0).
Definition zero : C := (0, 0).
Definition one : C := (1, 0).
Definition j : C := (0, 1).

Definition add (z w : C) : C := (fst z + fst w, snd z + snd w).
Definition sub (z w : C) : C := (fst z - fst w, snd z - snd w).
Definition mul (z w : C) : C :=
  (fst z * fst w - snd z * snd w, fst z * snd w + snd z * fst w).
(** A float times a complex number. *)
Definition scale (x : R) (z : C) : C := (x * fst z, x * snd z).
Definition neg (z : C) : C := (- fst z, - snd z).
Definition norm2 (z : C) : R := fst z * fst z + snd z * snd z.
Definition abs (z : C) : R := sqrt (norm2 z).

Definition is_zero (z : C) : bool :=
  if Req_dec_T (fst z) 0 then (if Req_dec_T (snd z) 0 then true else false)
  else false.

(** [z / w] on Python's [complex], over the exact numbers; a zero
    divisor has no quotient (with NumPy operands the quotient is inf or nan,
    and nothing is raised).  The quotient with its rounding is [F64.quot]. *)
Definition div (z w : C) : result C :=
  if is_zero w then Err (ZeroDivisionError "complex division by zero")
  else Ok ((fst z * fst w + snd z * snd w) / norm2 w,
           (snd z * fst w - fst z * snd w) / norm2 w).

(** [x / y] on floats. *)
Definition rdiv (x y : R) : result R :=
  if Req_dec_T y 0 then Err (ZeroDivisionError "float division by zero")
  else Ok (x / y).

(** The principal argument, in (-PI, PI]. *)
Definition arg (z : C) : R :=
  let '(a, b) := z in
  if Rlt_dec 0 a then atan (b / a)
  else if Rlt_dec a 0 then
    (if Rle_dec 0 b then atan (b / a) + PI else atan (b / a) - PI)
  else if Rlt_dec 0 b then PI / 2
  else if Rlt_dec b 0 then - (PI / 2)
  else 0.

Definition polar (r theta : R) : C := (r * cos theta, r * sin theta).

(** [z ** n] for a complex base and a float exponent. *)
Definition pow (z : C) (n : R) : result C :=
  if is_zero z then
    if Req_dec_T n 0 then Ok one
    else if Rlt_dec n 0 then
      Err (ZeroDivisionError "0.0 to a negative or complex power")
    else Ok zero
  else Ok (polar (Rpower (abs z) n) (n * arg z)).

(** [np.sqrt], [np.exp] and [np.tanh] on a complex argument. *)
Definition csqrt (z : C) : C :=
  if is_zero z then zero else polar (sqrt (abs z)) (arg z / 2).
Definition cexp (z : C) : C := polar (exp (fst z)) (snd z).
Definition tanh (z : C) : result C :=
  div (sub (cexp z) (cexp (neg z))) (add (cexp z) (cexp (neg z))).

End Cx.

Abbreviation C := Cx.C.

(** ** elements.py: the impedance of each element *)

(** The value bound to a key of a parameter mapping: a float, or a tuple
    of floats. *)
Inductive pval : Type :=
  | Scalar (x : R)
  | Tuple (xs : list R).

Module Elements.

Local Open Scope R_scope.

(** [1 / np.tanh(x)] *)
Definition coth (x : C) : result C :=
  t ← Cx.tanh x; Cx.div Cx.one t.

Definition omega (frequency : R) : R := 2 * PI * frequency.

(** [a, b = params] *)
Definition unpack2 (params : pval) : result (R * R) :=
  match params with
  | Scalar _ => Err (TypeError "cannot unpack non-iterable float object")
  | Tuple [] => Err (ValueError "not enough values to unpack (expected 2, got 0)")
  | Tuple [_] => Err (ValueError "not enough values to unpack (expected 2, got 1)")
  | Tuple [a; b] => Ok (a, b)
  | Tuple (_ :: _ :: _ :: _) =>
      Err (ValueError "too many values to unpack (expected 2)")
  end.

(** An operand of float arithmetic: the methods below are annotated with
    a float parameter, and a tuple in its place is a type error of the
    operation that meets it, whose message is [msg]. *)
Definition scalar (msg : string) (params : pval) : result R :=
  match params with
  | Scalar x => Ok x
  | Tuple _ => Err (TypeError msg)
  end.

Definition dq : string := String (ascii_of_nat 34) EmptyString.

Definition cannot_add : string :=
  "can only concatenate tuple (not " ++ dq ++ "complex" ++ dq ++ ") to tuple".
Definition cannot_multiply : string :=
  "can't multiply sequence by non-int of type 'complex'".
Definition cannot_divide : string :=
  "unsupported operand type(s) for /".

(** [R + 0j]; on an array of frequencies, the array filled with it. *)
Definition Resistor_impedance (frequency : R) (params : pval) : result C :=
  r ← scalar cannot_add params;
  Ok (Cx.add (Cx.of_real r) (0, 0)).

Definition Capacitor_impedance (frequency : R) (params : pval) : result C :=
  c ← scalar cannot_multiply params;
  Cx.div Cx.one (Cx.scale c (Cx.scale (omega frequency) Cx.j)).

Definition Inductor_impedance (frequency : R) (params : pval) : result C :=
  l ← scalar cannot_multiply params;
  Ok (Cx.scale l (Cx.scale (omega frequency) Cx.j)).

(** The divisors are NumPy floats: NumPy would divide a tuple element by
    element into an array, which is no complex number; the model has the
    type error instead. *)
Definition Warburg_impedance (frequency : R) (params : pval) : result C :=
  Aw ← scalar cannot_divide params;
  real_part ← Cx.rdiv Aw (sqrt (omega frequency));
  imag_part ← Cx.div (Cx.of_real Aw) (Cx.scale (sqrt (omega frequency)) Cx.j);
  Ok (Cx.add (Cx.of_real real_part) imag_part).

Definition WarburgShort_impedance (frequency : R) (params : pval) : result C :=
  '(Aw, B) ← unpack2 params;
  let root := Cx.csqrt (Cx.scale (omega frequency) Cx.j) in
  t ← Cx.tanh (Cx.scale B root);
  Cx.div (Cx.scale Aw t) root.

Definition WarburgOpen_impedance (frequency : R) (params : pval) : result C :=
  '(Aw, B) ← unpack2 params;
  let root := Cx.csqrt (Cx.scale (omega frequency) Cx.j) in
  t ← coth (Cx.scale B root);
  Cx.div (Cx.scale Aw t) root.

Definition CPE_domain_error : exn :=
  ValueError "CPE exponent n must be in the range (0, 1].".

Definition CPE_impedance (frequency : R) (C_n : pval) : result C :=
  '(c, n) ← unpack2 C_n;
  if Rle_dec n 0 then Err CPE_domain_error
  else if Rlt_dec 1 n then Err CPE_domain_error
  else
    p ← Cx.pow (Cx.scale (2 * PI * frequency) Cx.j) n;
    Cx.div Cx.one (Cx.scale c p).

(** The method [impedance] of the element's class. *)
Definition impedance (k : element_kind) : R -> pval -> result C :=
  match k with
  | Resistor => Resistor_impedance
  | Capacitor => Capacitor_impedance
  | Inductor => Inductor_impedance
  | Warburg => Warburg_impedance
  | WarburgShort => WarburgShort_impedance
  | WarburgOpen => WarburgOpen_impedance
  | CPE => CPE_impedance
  end.

End Elements.

(** ** parsing.py: the evaluator *)

(** [sum(...)] over the terms of a generator, evaluated and added from
    left to right, starting from 0. *)
Definition sum_results (terms : list (result C)) : result C :=
  fold_left (fun acc t => a ← acc; z ← t; Ok (Cx.add a z)) terms (Ok Cx.zero).

Fixpoint impedance (node : CircuitNode) (frequency : R)
    (params : gmap string pval) {struct node} : result C :=
  match node with
  | ElementNode element =>
      match params !! element_str element with
      | Some v => Elements.impedance (kind element) frequency v
      | None => Err (KeyError (element_str element))
      end
  | SeriesNode children =>
      sum_results (map (fun child => impedance child frequency params) children)
  | ParallelNode children =>
      total_admittance ←
        sum_results
          (map (fun child => z ← impedance child frequency params; Cx.div Cx.one z)
               children);
      Cx.div Cx.one total_admittance
  end.

(** ** parsing.py: the evaluator over binary64 *)

(** The arithmetic of the Series and Parallel nodes on Python's floats,
    which are binary64 numbers, at one frequency that is a Python float.
    The impedances of the elements are a parameter of the evaluation; that
    of a resistor is given. *)
Module F64.

Import PrimFloat.
Local Open Scope float_scope.

Definition C64 : Type := (float * float)%type.

(** [0] and [1] as the interpreter converts them for an operation with
    a [complex]. *)
Definition zero : C64 := (0, 0).
Definition one : C64 := (1, 0).

(** [z + w] on [complex] *)
Definition add (z w : C64) : C64 := (fst z + fst w, snd z + snd w).



(** [R + 0j] *)
Definition Resistor_impedance (r : float) : C64 := add (r, 0) (0, 0).

Section Tree.

(** [self.element.impedance(frequency, params[str(self.element)])] *)
Variable element64 : CircuitElement -> result C64.


End Tree.

End F64.

(** ** parsing.py: the parameter codec of [CircuitNode.fit] *)

(** A float that may be [np.inf] or [-np.inf]. *)
Inductive ext : Type :=
  | NegInf
  | Fin (x : R)
  | PosInf.

(** [a <= b] on [str]: lexicographic on the code points. *)
Definition str_le (a b : string) : Prop := String.leb a b = true.

#[global] Instance str_le_dec : RelDecision str_le :=
  fun a b => decide (String.leb a b = true).

(** [sorted(keys)] *)
Definition sorted (keys : list string) : list string := merge_sort str_le keys.

(** [params.keys()] *)
Definition keys (params : gmap string pval) : list string := (map_to_list params).*1.

(** The four lists that the first loop of [fit] fills. *)
Record flat : Type := mkFlat {
  p0 : list R;
  lower_bounds : list ext;
  upper_bounds : list ext;
  structure : list (string * nat)
}.

Definition flat_empty : flat := mkFlat [] [] [] [].

(** One round of the loop [for key in keys]. *)
Definition flatten_key (eps : R) (params : gmap string pval)
    (acc : flat) (key : string) : result flat :=
  match params !! key with
  | None => Err (KeyError key)
  | Some (Tuple val) =>
      let len := length val in
      if Str.startswith "Q" key then
        Ok (mkFlat (p0 acc ++ val)
                   (lower_bounds acc ++ [Fin eps; Fin eps])
                   (upper_bounds acc ++ [PosInf; Fin 1])
                   (structure acc ++ [(key, len)]))
      else
        Ok (mkFlat (p0 acc ++ val)
                   (lower_bounds acc ++ replicate len (Fin eps))
                   (upper_bounds acc ++ replicate len PosInf)
                   (structure acc ++ [(key, len)]))
  | Some (Scalar val) =>
      Ok (mkFlat (p0 acc ++ [val])
                 (lower_bounds acc ++ [Fin eps])
                 (upper_bounds acc ++ [PosInf])
                 (structure acc ++ [(key, 1%nat)]))
  end.

Fixpoint flatten_loop (eps : R) (params : gmap string pval)
    (ks : list string) (acc : flat) : result flat :=
  match ks with
  | [] => Ok acc
  | key :: ks' =>
      acc' ← flatten_key eps params acc key;
      flatten_loop eps params ks' acc'
  end.

Definition flatten (eps : R) (params : gmap string pval) : result flat :=
  flatten_loop eps params (sorted (keys params)) flat_empty.

(** The loop [for key, length in structure] that writes the values back
    into the mapping [d]: it is run on a fresh mapping by [model_wrapper] and
    on the caller's mapping at the end of [fit].  It returns the mapping as
    the loop leaves it, and the exception if an index was out of range. *)
Fixpoint reconstruct (structure : list (string * nat)) (values : list R)
    (idx : nat) (d : gmap string pval) : gmap string pval * result unit :=
  match structure with
  | [] => (d, Ok tt)
  | (key, len) :: rest =>
      if (len =? 1)%nat then
        match values !! idx with
        | Some v => reconstruct rest values (idx + 1) (<[key := Scalar v]> d)
        | None => (d, Err (IndexError "index out of range"))
        end
      else
        reconstruct rest values (idx + len)
          (<[key := Tuple (take len (drop idx values))]> d)
  end.

(** [model_wrapper(frequency, *param_values)]; the array of frequencies is
    evaluated component by component. *)
Definition model_wrapper (self : CircuitNode) (structure : list (string * nat))
    (frequency : list R) (param_values : list R) : result (list R) :=
  let '(param_dict, r) := reconstruct structure param_values 0 ∅ in
  _ ← r;
  Z_model ← traverse (fun f => impedance self f param_dict) frequency;
  Ok (map fst Z_model ++ map snd Z_model)%list.

(** ** The store of the caller's parameter mappings *)

Definition loc : Type := nat.
Definition store : Type := loc -> gmap string pval.

Definition store_update (h : store) (l : loc) (d : gmap string pval) : store :=
  fun l' => if decide (l' = l) then d else h l'.

Definition default_eps : R := (1 / 10 ^ 12)%R.

(** The newline character. *)
Definition nl : string := String (ascii_of_nat 10) EmptyString.

(** A NumPy float as the R² of [fit] can be: a number, an infinity or
    nan. *)
Inductive np_float : Type :=
  | Num (x : R)
  | PInf
  | MInf
  | NaN.

Section Fitting.

Local Open Scope R_scope.

(** [scipy.optimize.curve_fit(f, xdata, ydata, p0=p0, bounds=bounds)]:
    the optimal values, or the exception it raises. *)
Variable curve_fit :
  (list R -> list R -> result (list R)) -> list R -> list R -> list R ->
  list ext * list ext -> result (list R).

Definition np_sum (xs : list R) : R := fold_left Rplus xs 0.
Definition np_mean (xs : list R) : R := np_sum xs / INR (length xs).

(** [a - b] on two arrays of one dimension. *)
Definition np_sub (a b : list R) : result (list R) :=
  if decide (length a = length b) then Ok (zip_with Rminus a b)
  else Err (ValueError "operands could not be broadcast together").

Definition square (x : R) : R := x * x.

(** [x / y] on two NumPy floats that are numbers: a zero divisor gives
    an infinity, or nan for 0 / 0, and a warning; nothing is raised. *)
Definition np_div (x y : R) : np_float :=
  if Req_dec_T y 0 then
    if Req_dec_T x 0 then NaN
    else if Rlt_dec 0 x then PInf else MInf
  else Num (x / y).

(** [1 - q] *)
Definition one_minus (q : np_float) : np_float :=
  match q with
  | Num v => Num (1 - v)
  | PInf => MInf
  | MInf => PInf
  | NaN => NaN
  end.

(** [fit(self, freq, Z_exp, params, eps)]: the result or the exception,
    and the store after the call. *)
Definition fit (self : CircuitNode) (freq : list R) (Z_exp : list C)
    (params : loc) (eps : R) (h : store) : result (loc * np_float) * store :=
  match flatten eps (h params) with
  | Err e => (Err e, h)
  | Ok fl =>
      let Z_combined := (map fst Z_exp ++ map snd Z_exp)%list in
      let fitted :=
        popt ← curve_fit (model_wrapper self (structure fl)) freq Z_combined
                 (p0 fl) (lower_bounds fl, upper_bounds fl);
        Z_fit_combined ← model_wrapper self (structure fl) freq popt;
        residuals ← np_sub Z_combined Z_fit_combined;
        let ss_res := np_sum (map square residuals) in
        let ss_tot :=
          np_sum (map (fun z => square (z - np_mean Z_combined)) Z_combined) in
        Ok (popt, one_minus (np_div ss_res ss_tot)) in
      match fitted with
      | Err e => (Err e, h)
      | Ok (popt, r_squared) =>
          let '(d, r) := reconstruct (structure fl) popt 0 (h params) in
          let h' := store_update h params d in
          match r with
          | Ok _ => (Ok (params, r_squared), h')
          | Err e => (Err e, h')
          end
      end
  end.

(** ** fitting.py: the model selector *)

(** The depth to which the interpreter's recursion limit lets the calls
    of [parse_circuit] nest, and the text of the [RecursionError] that it
    raises. *)
Variable recursion_limit : nat.
Variable recursion_text : string.

Variable freq : list R.
Variable Z_exp : list C.

(** The locals of [best_model]; [best] is the local that the source
    names [best_model] too. *)
Record selection : Type := mkSelection {
  best_r_squared : np_float;
  best : option (string * np_float);
  best_params : option loc;
  failed_models : list (string * string)
}.

Definition selection_init : selection := mkSelection MInf None None [].

(** [r > b] on NumPy floats: false when one of them is nan. *)
Definition gt (r b : np_float) : bool :=
  match r, b with
  | NaN, _ | _, NaN => false
  | MInf, _ => false
  | _, PInf => false
  | PInf, _ => true
  | Num _, MInf => true
  | Num x, Num y => if Rlt_dec y x then true else false
  end.

(** The two calls inside [try]. *)
Definition attempt (model : string) (params : loc) (h : store)
    : result (loc * np_float) * store :=
  match parse_circuit recursion_limit model with
  | Err e => (Err e, h)
  | Ok circuit => fit circuit freq Z_exp params default_eps h
  end.

(** One round of the loop [for model, params in models]. *)
Definition select_step (st : selection * store) (candidate : string * loc)
    : selection * store :=
  let '(s, h) := st in
  let '(model, params) := candidate in
  match attempt model params h with
  | (Ok (fitted_params, r_squared), h') =>
      if gt r_squared (best_r_squared s) then
        (mkSelection r_squared (Some (model, r_squared))
                     (Some fitted_params) (failed_models s), h')
      else (s, h')
  | (Err e, h') =>
      (mkSelection (best_r_squared s) (best s) (best_params s)
                   (failed_models s ++ [(model, exn_text recursion_text e)]), h')
  end.

Definition select_loop (models : list (string * loc)) (st : selection * store)
    : selection * store :=
  fold_left select_step models st.

(** The text given to [warnings.warn] when no model was kept. *)
Definition all_failed_warning (failed : list (string * string)) : string :=
  ("All models failed to fit. Errors:" ++ nl
   ++ String.concat nl (map (fun '(m, e) => "  - " ++ m ++ ": " ++ e) failed))%string.

(** [best_model(models, freq, Z_exp)]: the returned pair, the warnings
    issued, and the store after the call. *)
Definition best_model (models : list (string * loc)) (h : store)
    : (option (string * np_float) * option loc) * list string * store :=
  let '(s, h') := select_loop models (selection_init, h) in
  let warnings :=
    match best s with
    | None => [all_failed_warning (failed_models s)]
    | Some _ => []
    end in
  ((best s, best_params s), warnings, h').

End Fitting.

(** ** Vocabulary of the statements *)

(** The strings on which [parse_circuit] calls itself for the stripped
    string [u]: the parts at the "-", or else at the "|", at which it
    splits [u], or else what is inside the parentheses around [u]; none
    when [u] is taken for an element. *)
Definition recursive_parts (u : string) : list string :=
  if Str.contains "(" u then
    let '(parallel_pos, series_pos) := scan_operators u 0 0 (-1) (-1) in
    if negb (series_pos =? -1)%Z then _split_by_operator u "-"
    else if negb (parallel_pos =? -1)%Z then _split_by_operator u "|"
    else if Str.startswith "(" u && Str.endswith ")" u then [Str.inner u]
    else []
  else if Str.contains "-" u then _split_by_operator u "-"
  else if Str.contains "|" u then _split_by_operator u "|"
  else [].

(** A string with an empty token, at whatever depth: it is blank, or one
    of the strings on which [parse_circuit] calls itself for it has an empty
    token. *)
Inductive empty_token : string -> Prop :=
  | empty_token_here (s : string) : Str.strip s = "" -> empty_token s
  | empty_token_below (s part : string) :
      part ∈ recursive_parts (Str.strip s) -> empty_token part -> empty_token s.

(** [r] is what a larger bound on the recursion gives too: it is [r'],
    unless the bound was met. *)
Definition upto_limit {A : Type} (r r' : result A) : Prop :=
  r = Err RecursionError \/ r = r'.

(** The number of slots of a value, and the slots. *)
Definition arity (v : pval) : nat :=
  match v with
  | Scalar _ => 1
  | Tuple xs => length xs
  end.

Definition values (v : pval) : list R :=
  match v with
  | Scalar x => [x]
  | Tuple xs => xs
  end.

(** The shape of a value: a float, or a tuple of some length. *)
Inductive shape_t : Type :=
  | FloatShape
  | TupleShape (len : nat).

Definition shape (v : pval) : shape_t :=
  match v with
  | Scalar _ => FloatShape
  | Tuple xs => TupleShape (length xs)
  end.

(** The shape that the write-back loop gives to [len] slots. *)
Definition shape_of_arity (len : nat) : shape_t :=
  if (len =? 1)%nat then FloatShape else TupleShape len.

(** A value as the write-back loop stores it again: a tuple of one float
    comes back as the float. *)
Definition reshape (v : pval) : pval :=
  match v with
  | Tuple [x] => Scalar x
  | _ => v
  end.

(** The (key, value) pairs in the order of the sorted keys. *)
Definition sorted_items (params : gmap string pval) : list (string * pval) :=
  omap (fun k => pair k <$> params !! k) (sorted (keys params)).

(** The pairs that the write-back loop assigns, in order, when it reads
    [values] from position [idx] on. *)
Fixpoint chunks (structure : list (string * nat)) (values : list R) (idx : nat)
    : list (string * pval) :=
  match structure with
  | [] => []
  | (key, len) :: rest =>
      (key, if (len =? 1)%nat
            then from_option Scalar (Tuple []) (values !! idx)
            else Tuple (take len (drop idx values)))
      :: chunks rest values (idx + len)
  end.

Definition assign (d : gmap string pval) (kv : string * pval) : gmap string pval :=
  <[kv.1 := kv.2]> d.

(** The bounds that one key contributes to [lower_bounds] and
    [upper_bounds]. *)
Definition lower_block (eps : R) (key : string) (v : pval) : list ext :=
  match v with
  | Scalar _ => [Fin eps]
  | Tuple xs =>
      if Str.startswith "Q" key then [Fin eps; Fin eps]
      else replicate (length xs) (Fin eps)
  end.

Definition upper_block (key : string) (v : pval) : list ext :=
  match v with
  | Scalar _ => [PosInf]
  | Tuple xs =>
      if Str.startswith "Q" key then [PosInf; Fin 1]
      else replicate (length xs) PosInf
  end.

Section SelectorVocabulary.

Variable curve_fit :
  (list R -> list R -> result (list R)) -> list R -> list R -> list R ->
  list ext * list ext -> result (list R).
Variable recursion_limit : nat.
Variable freq : list R.
Variable Z_exp : list C.


End SelectorVocabulary.






(** ** Inputs of the examples *)

(** An optimiser that finds the initial values optimal. *)
Definition curve_fit_p0
    (f : list R -> list R -> result (list R)) (xdata ydata p0 : list R)
    (bounds : list ext * list ext) : result (list R) := Ok p0.

(** A store whose mappings all are {"R1": v}. *)
Definition store_R1 (v : pval) : store := fun _ => {[ "R1" := v ]}.

(** {"Q1": (2.0, 0.5), "R1": 100.0} *)
Definition params_Q1_R1 : gmap string pval :=
  <["Q1" := Tuple [2; 1 / 2]%R]> (<["R1" := Scalar 100%R]> ∅).

(** * More of the code *)

(** ** parsing.py: [__str__] *)

Definition is_series (node : CircuitNode) : bool :=
  match node with SeriesNode _ => true | _ => false end.

Definition is_parallel (node : CircuitNode) : bool :=
  match node with ParallelNode _ => true | _ => false end.

(** [str(node)]: the children of a Series node joined by "-"; those of a
    Parallel node joined by "|", a Series child in parentheses. *)
Fixpoint node_str (node : CircuitNode) : string :=
  match node with
  | ElementNode element => element_str element
  | SeriesNode children => String.concat "-" (map node_str children)
  | ParallelNode children =>
      String.concat "|"
        (map (fun child =>
                if is_series child then "(" ++ node_str child ++ ")"
                else node_str child)
             children)
  end.

(** ** Vocabulary of the further statements *)

(** A child as [ParallelNode.__str__] prints it. *)
Definition child_str (child : CircuitNode) : string :=
  if is_series child then "(" ++ node_str child ++ ")" else node_str child.

(** A string that does not begin with a space. *)
Definition unspaced_head (s : string) : Prop :=
  match s with
  | String c _ => Str.isspace c = false
  | EmptyString => True
  end.

(** A string that [strip] leaves as it is, and that is not empty. *)
Definition tight (s : string) : Prop :=
  unspaced_head s /\ Str.rstrip s = s /\ s <> "".

(** The number of "(" of a string minus the number of its ")". *)
Fixpoint net (s : string) : Z :=
  match s with
  | String c s' =>
      ((if Ascii.eqb c "(" then 1 else if Ascii.eqb c ")" then -1 else 0) + net s')%Z
  | EmptyString => 0%Z
  end.

(** The depth after [s], read from depth [depth] on, when no [operator]
    is met at depth 0 on the way. *)
Fixpoint quiet (operator : ascii) (s : string) (depth : Z) : option Z :=
  match s with
  | String char s' =>
      if Ascii.eqb char "(" then quiet operator s' (depth + 1)
      else if Ascii.eqb char ")" then quiet operator s' (depth - 1)
      else if Ascii.eqb char operator && (depth =? 0)%Z then None
      else quiet operator s' depth
  | EmptyString => Some depth
  end.

(** The two operators of the grammar. *)
Definition is_op (c : ascii) : Prop := c = "-"%char \/ c = "|"%char.

(** A character of a name that the grammar leaves alone: no space, no
    parenthesis, no operator. *)
Definition plain (c : ascii) : bool :=
  negb (Str.isspace c)
  && negb (Ascii.eqb c "(") && negb (Ascii.eqb c ")")
  && negb (Ascii.eqb c "-") && negb (Ascii.eqb c "|").

(** An element that [_create_element_node] can build: one of the five
    classes it knows, with a name of plain characters. *)
Definition parsable_element (e : CircuitElement) : bool :=
  match kind e, name e with
  | WarburgShort, _ | WarburgOpen, _ => false
  | _, Some n => forallb plain (list_ascii_of_string n)
  | _, None => false
  end.

(** A tree as [parse_circuit] builds it from a string without redundant
    parentheses: at least two children under each Series and Parallel node,
    no Series node directly under a Series node, no Parallel node directly
    under a Parallel node. *)
Fixpoint canonical (node : CircuitNode) : bool :=
  match node with
  | ElementNode e => parsable_element e
  | SeriesNode children =>
      (2 <=? length children)%nat
      && forallb (fun c => negb (is_series c) && canonical c) children
  | ParallelNode children =>
      (2 <=? length children)%nat
      && forallb (fun c => negb (is_parallel c) && canonical c) children
  end.

(** The keys that the evaluation of a tree looks up, from left to right. *)
Fixpoint node_keys (node : CircuitNode) : list string :=
  match node with
  | ElementNode e => [element_str e]
  | SeriesNode children | ParallelNode children => flat_map node_keys children
  end.

(** What the strings that [__str__] builds have in common: [strip] leaves
    them as they are; read from a depth above 0 they meet no operator at depth
    0 and end at that depth; neither does a string that is no Series node,
    for "-", nor an element, for "|"; and they parse to the tree. *)
Definition printed_well (t : CircuitNode) : Prop :=
  tight (node_str t)
  /\ (forall op d, is_op op -> (0 < d)%Z -> quiet op (node_str t) d = Some d)
  /\ (is_series t = false -> quiet "-" (node_str t) 0 = Some 0%Z)
  /\ (is_series t = false -> is_parallel t = false ->
      quiet "|" (node_str t) 0 = Some 0%Z
      /\ Str.contains "-" (node_str t) = false)
  /\ (exists n, parse_circuit n (node_str t) = Ok t).


(** [a < b] on floats that may be infinite. *)
Definition ext_lt (a b : ext) : Prop :=
  match a, b with
  | NegInf, Fin _ | NegInf, PosInf | Fin _, PosInf => True
  | Fin x, Fin y => (x < y)%R
  | _, _ => False
  end.

(** ** web/web_utils.py: the parameters of the web interface *)

(** [s.endswith(suffix)] *)
Fixpoint str_endswith (suffix s : string) : bool :=
  String.eqb s suffix
  || match s with
     | String _ s' => str_endswith suffix s'
     | EmptyString => false
     end.

(** [key[0]] *)
Definition first_char (key : string) : result ascii :=
  match key with
  | String c _ => Ok c
  | EmptyString => Err (IndexError "string index out of range")
  end.

(** [params_web[key]]; the values of the web format are numbers, on which
    [float] is the identity. *)
Definition web_get (params_web : gmap string R) (key : string) : result R :=
  match params_web !! key with
  | Some v => Ok v
  | None => Err (KeyError key)
  end.

(** The default of [params_web.get(n_key, 0.9)]. *)
Definition default_exponent : R := (9 / 10)%R.

(** One round of the loop [while i < len(param_names)]: every round
    moves [i] to the next name. *)
Definition web_to_internal_step (params_web : gmap string R)
    (params : gmap string pval) (key : string) : result (gmap string pval) :=
  if str_endswith "_n" key then Ok params
  else if str_endswith "_B" key then Ok params
  else
    c ← first_char key;
    if Ascii.eqb c "Q" then
      q_value ← web_get params_web key;
      let n_value := default default_exponent (params_web !! (key ++ "_n")) in
      Ok (<[key := Tuple [q_value; n_value]]> params)
    else if Ascii.eqb c "S" || Ascii.eqb c "O" then
      aw_value ← web_get params_web key;
      b_value ← web_get params_web (key ++ "_B");
      Ok (<[key := Tuple [aw_value; b_value]]> params)
    else
      v ← web_get params_web key;
      Ok (<[key := Scalar v]> params).

Fixpoint web_to_internal_loop (params_web : gmap string R)
    (param_names : list string) (params : gmap string pval)
    : result (gmap string pval) :=
  match param_names with
  | [] => Ok params
  | key :: rest =>
      params' ← web_to_internal_step params_web params key;
      web_to_internal_loop params_web rest params'
  end.

Definition web_to_internal_params (params_web : gmap string R)
    (param_names : list string) : result (gmap string pval) :=
  web_to_internal_loop params_web param_names ∅.

(** [val[i]] on a tuple. *)
Definition tuple_item (val : list R) (i : nat) : result R :=
  match val !! i with
  | Some x => Ok x
  | None => Err (IndexError "tuple index out of range")
  end.

(** One round of the loop [for key, val in params_internal.items()]. *)
Definition internal_to_web_step (params_web : gmap string R)
    (item : string * pval) : result (gmap string R) :=
  let '(key, val) := item in
  match val with
  | Tuple xs =>
      c ← first_char key;
      params_web' ←
        (if Ascii.eqb c "Q" then
           v ← tuple_item xs 1; Ok (<[key ++ "_n" := v]> params_web)
         else if Ascii.eqb c "S" || Ascii.eqb c "O" then
           v ← tuple_item xs 1; Ok (<[key ++ "_B" := v]> params_web)
         else Ok params_web);
      v ← tuple_item xs 0;
      Ok (<[key := v]> params_web')
  | Scalar x => Ok (<[key := x]> params_web)
  end.

Fixpoint internal_to_web_loop (items : list (string * pval))
    (params_web : gmap string R) : result (gmap string R) :=
  match items with
  | [] => Ok params_web
  | item :: rest =>
      params_web' ← internal_to_web_step params_web item;
      internal_to_web_loop rest params_web'
  end.

(** [internal_to_web_params(params_internal)], on the items of the
    mapping in the order in which the mapping yields them. *)
Definition internal_to_web_params (items : list (string * pval))
    : result (gmap string R) :=
  internal_to_web_loop items ∅.

(** A key of the web format that names the second number of a pair. *)
Definition is_companion (key : string) : bool :=
  str_endswith "_n" key || str_endswith "_B" key.

(** The key under which the web format keeps the second number of the pair
    bound to [key]. *)
Definition companion (key : string) : string :=
  if Str.startswith "Q" key then key ++ "_n" else key ++ "_B".

(** Whether a key binds a pair in the internal format: it starts with Q, S
    or O. *)
Definition pair_key (key : string) : bool :=
  Str.startswith "Q" key || Str.startswith "S" key || Str.startswith "O" key.

(** A binding of the internal format as [web_to_internal_params] builds it:
    the key is not empty and names no second number; it binds a pair when it
    starts with Q, S or O, and a float otherwise. *)
Definition internal_binding (kv : string * pval) : Prop :=
  kv.1 <> "" /\ is_companion kv.1 = false
  /\ if pair_key kv.1 then exists a b, kv.2 = Tuple [a; b]
     else exists x, kv.2 = Scalar x.

(** The web format holds the numbers of a binding of the internal format:
    the float, or the first number of the tuple, under the key and the
    second number under the companion key. *)
Definition web_holds (params_web : gmap string R) (kv : string * pval) : Prop :=
  match kv.2 with
  | Scalar x => params_web !! kv.1 = Some x
  | Tuple xs =>
      params_web !! kv.1 = xs !! 0%nat
      /\ params_web !! companion kv.1 = xs !! 1%nat
  end.

(** ** web/validation.py: [validate_circuit_string] *)

(** The characters below 256 that [\d] matches, and the class
    [[RCLWQSO]]. *)
Definition is_digit (c : ascii) : bool :=
  let n := nat_of_ascii c in ((48 <=? n) && (n <=? 57))%nat.

Definition is_tag (c : ascii) : bool :=
  Ascii.eqb c "R" || Ascii.eqb c "C" || Ascii.eqb c "L" || Ascii.eqb c "W"
  || Ascii.eqb c "Q" || Ascii.eqb c "S" || Ascii.eqb c "O".

(** The match that ends where the scan stands: the tag and at least one
    digit. *)
Definition flush (cur : option string) : list string :=
  match cur with
  | Some (String t (String d ds)) => [String t (String d ds)]
  | _ => []
  end.

(** [re.findall(r"[RCLWQSO]\d+", s)], the matches from left to right.
    The scan keeps in [cur] the tag and the digits read after it, as long as
    only digits have followed the tag; a tag and a digit are never the same
    character, so that a match can only begin at the last tag read. *)
Fixpoint findall_loop (s : string) (cur : option string) : list string :=
  match s with
  | String c s' =>
      if is_digit c then
        match cur with
        | Some m => findall_loop s' (Some (m ++ String c ""))
        | None => findall_loop s' None
        end
      else
        (flush cur
         ++ findall_loop s' (if is_tag c then Some (String c "") else None))%list
  | EmptyString => flush cur
  end.

Definition findall (s : string) : list string := findall_loop s None.

(** One round of the loop [for elem in sorted(set(elements))]: the names
    appended to [param_names]. *)
Definition element_params (elem : string) : result (list string) :=
  c ← first_char elem;
  if Ascii.eqb c "Q" then Ok [elem; elem ++ "_n"]
  else if Ascii.eqb c "S" || Ascii.eqb c "O" then Ok [elem; elem ++ "_B"]
  else Ok [elem].

(** The returned dict: valid with [params] and [message], or not valid
    with [error]. *)
Inductive validation : Type :=
  | Valid (params : list string) (message : string)
  | Invalid (error : string).

(** [validate_circuit_string(circuit_string)], with the calls of
    [parse_circuit] nesting to the depth [recursion_limit] at most. *)
Definition validate_circuit_string (recursion_limit : nat)
    (circuit_string : string) : validation :=
  match
    (_ ← parse_circuit recursion_limit circuit_string;
     let elements := findall circuit_string in
     groups ← traverse element_params (sorted (remove_dups elements));
     Ok (concat groups))
  with
  | Ok param_names =>
      Valid param_names
        ("Valid circuit! Found parameters: " ++ String.concat ", " param_names)
  | Err e => Invalid ("Invalid circuit: " ++ exn_message e)
  end.

(** A string of digits. *)
Fixpoint digits (s : string) : bool :=
  match s with
  | String c s' => is_digit c && digits s'
  | EmptyString => true
  end.

(** A match of the pattern: a tag and a string of digits that is not
    empty. *)
Definition elem_shape (e : string) : Prop :=
  exists t ds, e = String t ds /\ is_tag t = true /\ ds <> "" /\ digits ds = true.

(** A tree whose elements all are named by a number. *)
Fixpoint numbered (node : CircuitNode) : bool :=
  match node with
  | ElementNode e =>
      match name e with
      | Some n => negb (String.eqb n "") && digits n
      | None => false
      end
  | SeriesNode children | ParallelNode children => forallb numbered children
  end.

(** A string that does not begin with a digit. *)
Definition no_digit_head (s : string) : Prop :=
  match s with
  | String c _ => is_digit c = false
  | EmptyString => True
  end.

(** The names that the validation lists for one element. *)
Definition expand (elem : string) : list string :=
  if Str.startswith "Q" elem then [elem; elem ++ "_n"]
  else if Str.startswith "S" elem || Str.startswith "O" elem then [elem; elem ++ "_B"]
  else [elem].

(** ** data/models.py: the predefined models *)

Record circuit_model : Type := mkModel {
  model_name : string;
  circuit : string;
  description : string;
  model_params : list string;
  initial_guess : list (string * R)
}.

Definition CIRCUIT_MODELS : list circuit_model :=
  [ mkModel "Randles" "R1-(R2-W1)|C1" "Randles circuit"
      ["R1"; "R2"; "W1"; "C1"]
      [("R1", 100); ("R2", 1000); ("W1", 500); ("C1", 1 / 10 ^ 6)]%R;
    mkModel "Randles w/ CPE" "R1-(R2-W1)|Q1"
      "Randles circuit with CPE as the capacitive element"
      ["R1"; "R2"; "W1"; "Q1"; "Q1_n"]
      [("R1", 100); ("R2", 1000); ("W1", 500); ("Q1", 1 / 10 ^ 6);
       ("Q1_n", 9 / 10)]%R;
    mkModel "RC series" "R1-C1" "Resistor and capacitor in series"
      ["R1"; "C1"]
      [("R1", 1000); ("C1", 1 / 10 ^ 6)]%R;
    mkModel "RC parallel" "R1|C1" "Resistor and capacitor in parallel"
      ["R1"; "C1"]
      [("R1", 1000); ("C1", 1 / 10 ^ 6)]%R;
    mkModel "Double RC" "R1-(R2|C1)-(R3|C2)"
      "Two RC parallel elements in series with a resistance"
      ["R1"; "R2"; "C1"; "R3"; "C2"]
      [("R1", 100); ("R2", 500); ("C1", 1 / 10 ^ 6); ("R3", 1000);
       ("C2", 1 / 10 ^ 7)]%R;
    mkModel "Simple Randles" "R1-(R2|C1)"
      "Simplified Randles circuit without Warburg element"
      ["R1"; "R2"; "C1"]
      [("R1", 100); ("R2", 1000); ("C1", 1 / 10 ^ 6)]%R ].

(** A predefined model is consistent: its circuit parses, with room for
    1000 nested calls of [parse_circuit]; the validation lists, up to the
    order, the names of its [params]; its [initial_guess] converts to the
    internal format, and the result binds every key that the evaluation of
    the circuit looks up. *)
Definition model_consistent (m : circuit_model) : Prop :=
  exists t names message d,
    parse_circuit 1000 (circuit m) = Ok t
    /\ validate_circuit_string 1000 (circuit m) = Valid names message
    /\ sorted names = sorted (model_params m)
    /\ web_to_internal_params (list_to_map (initial_guess m)) (model_params m)
       = Ok d
    /\ Forall (fun k => is_Some (d !! k)) (node_keys t).

(** A tree as [parse_circuit] returns it: no Series or Parallel node
    without a child, and every element of one of the five classes that
    [_create_element_node] knows, with a name. *)
Fixpoint parsed_shape (node : CircuitNode) : bool :=
  match node with
  | ElementNode e =>
      match kind e, name e with
      | WarburgShort, _ | WarburgOpen, _ | _, None => false
      | _, Some _ => true
      end
  | SeriesNode children | ParallelNode children =>
      match children with
      | [] => false
      | _ => forallb parsed_shape children
      end
  end.
(** * Verification *)

(** ** The result monad *)

Section ResultFacts.

Context {A B : Type}.

(** A comprehension in which one call raises, raises. *)
Lemma traverse_raises (f : A -> result B) (xs : list A) (x : A) :
  x ∈ xs -> is_ok (f x) = false -> is_ok (traverse f xs) = false.
Proof.
  induction xs as [|y ys IH]; intros Hin Hx; [by apply elem_of_nil in Hin|].
  apply elem_of_cons in Hin as [->|Hin]; simpl.
  - destruct (f y); [discriminate|done].
  - destruct (f y); [|done]. simpl.
    specialize (IH Hin Hx). destruct (traverse f ys); [discriminate|done].
Qed.

Lemma not_ok_raises (m : result A) : is_ok m = false -> exists e, m = Err e.
Proof. destruct m; [discriminate|eauto]. Qed.

End ResultFacts.

(** ** The parser: lemmas *)

Section ParserFacts.

Lemma top_level_contains op s d :
  top_level op s d = true -> Str.contains op s = true.
Proof.
  revert d; induction s as [|c s IH]; intros d; simpl; [done|].
  destruct (Ascii.eqb c "(") eqn:Eo; [intros H; rewrite (IH _ H); apply orb_true_r|].
  destruct (Ascii.eqb c ")") eqn:Ec; [intros H; rewrite (IH _ H); apply orb_true_r|].
  destruct (Ascii.eqb c op); simpl; [done|].
  apply IH.
Qed.

Lemma scan_series_pos s : forall i d pp sp, (0 <= i)%Z ->
  (snd (scan_operators s i d pp sp) =? -1)%Z
  = (sp =? -1)%Z && negb (top_level "-" s d).
Proof.
  induction s as [|c s IH]; intros i d pp sp Hi; simpl.
  { by rewrite andb_true_r. }
  destruct (Ascii.eqb c "(") eqn:Eo; [apply IH; lia|].
  destruct (Ascii.eqb c ")") eqn:Ec; [apply IH; lia|].
  destruct (d =? 0)%Z eqn:Ed; rewrite ?andb_false_r; simpl; [|apply IH; lia].
  destruct (Ascii.eqb c "-") eqn:Es; simpl.
  - apply Ascii.eqb_eq in Es; subst c; simpl.
    destruct (sp =? -1)%Z eqn:Esp; simpl.
    + rewrite IH by lia. replace (i =? -1)%Z with false; [done|].
      symmetry; apply Z.eqb_neq; lia.
    + rewrite IH by lia. by rewrite Esp.
  - destruct (Ascii.eqb c "|" && (pp =? -1)%Z); apply IH; lia.
Qed.

Lemma scan_parallel_pos s : forall i d pp sp, (0 <= i)%Z ->
  (fst (scan_operators s i d pp sp) =? -1)%Z
  = (pp =? -1)%Z && negb (top_level "|" s d).
Proof.
  induction s as [|c s IH]; intros i d pp sp Hi; simpl.
  { by rewrite andb_true_r. }
  destruct (Ascii.eqb c "(") eqn:Eo; [apply IH; lia|].
  destruct (Ascii.eqb c ")") eqn:Ec; [apply IH; lia|].
  destruct (d =? 0)%Z eqn:Ed; rewrite ?andb_false_r; simpl; [|apply IH; lia].
  destruct (Ascii.eqb c "|") eqn:Es; simpl.
  - destruct (pp =? -1)%Z eqn:Epp; simpl.
    + rewrite IH by lia. replace (i =? -1)%Z with false; [done|].
      symmetry; apply Z.eqb_neq; lia.
    + destruct (Ascii.eqb c "-" && (sp =? -1)%Z); rewrite IH by lia; by rewrite Epp.
  - destruct (Ascii.eqb c "-" && (sp =? -1)%Z); apply IH; lia.
Qed.

(** A top-level "-" decides the split, with or without parentheses. *)
Lemma parse_body_series (rec : string -> result CircuitNode) s :
  top_level "-" (Str.strip s) 0 = true ->
  parse_circuit_body rec s
  = (children ← traverse rec (_split_by_operator (Str.strip s) "-");
     Ok (SeriesNode children)).
Proof.
  intros Htop. unfold parse_circuit_body.
  destruct (Str.contains "(" (Str.strip s)).
  - unfold _parse_with_parentheses.
    pose proof (scan_series_pos (Str.strip s) 0 0 (-1) (-1) ltac:(lia)) as Hs.
    destruct (scan_operators (Str.strip s) 0 0 (-1) (-1)) as [pp sp].
    simpl in Hs. rewrite Htop in Hs. simpl in Hs. by rewrite Hs.
  - by rewrite (top_level_contains _ _ _ Htop).
Qed.

(** Without any "-", a top-level "|" decides it. *)
Lemma parse_body_parallel (rec : string -> result CircuitNode) s :
  Str.contains "-" (Str.strip s) = false ->
  top_level "|" (Str.strip s) 0 = true ->
  parse_circuit_body rec s
  = (children ← traverse rec (_split_by_operator (Str.strip s) "|");
     Ok (ParallelNode children)).
Proof.
  intros Hno Htop. unfold parse_circuit_body.
  destruct (Str.contains "(" (Str.strip s)).
  - unfold _parse_with_parentheses.
    pose proof (scan_series_pos (Str.strip s) 0 0 (-1) (-1) ltac:(lia)) as Hs.
    pose proof (scan_parallel_pos (Str.strip s) 0 0 (-1) (-1) ltac:(lia)) as Hp.
    destruct (scan_operators (Str.strip s) 0 0 (-1) (-1)) as [pp sp].
    simpl in Hs, Hp. rewrite Htop in Hp. simpl in Hp. rewrite Hp.
    destruct (top_level "-" (Str.strip s) 0) eqn:Hts.
    + by rewrite (top_level_contains _ _ _ Hts) in Hno.
    + simpl in Hs. by rewrite Hs.
  - rewrite Hno. by rewrite (top_level_contains _ _ _ Htop).
Qed.

(** *** The bound on the recursion *)

Lemma bind_upto {A B : Type} (m m' : result A) (k : A -> result B) :
  upto_limit m m' -> upto_limit (m ≫= k) (m' ≫= k).
Proof. intros [-> | ->]; [by left|by right]. Qed.

Lemma traverse_upto {A B : Type} (f g : A -> result B) (xs : list A) :
  (forall x, upto_limit (f x) (g x)) ->
  upto_limit (traverse f xs) (traverse g xs).
Proof.
  intros Hfg. induction xs as [|x xs IH]; [by right|]. simpl.
  destruct (Hfg x) as [-> | ->]; [by left|].
  destruct (g x) as [y|e]; [|by right]. simpl.
  destruct IH as [-> | ->]; [by left|by right].
Qed.

Lemma body_upto (rec rec' : string -> result CircuitNode) :
  (forall s, upto_limit (rec s) (rec' s)) ->
  forall s, upto_limit (parse_circuit_body rec s) (parse_circuit_body rec' s).
Proof.
  intros Hrec s. unfold parse_circuit_body, _parse_with_parentheses.
  destruct (scan_operators _ _ _ _ _) as [pp sp].
  repeat match goal with
         | |- context [if ?b then _ else _] => destruct b
         end;
    try (apply bind_upto, traverse_upto, Hrec);
    try apply Hrec; by right.
Qed.

Lemma parse_circuit_upto n s :
  upto_limit (parse_circuit n s) (parse_circuit (S n) s).
Proof.
  revert s. induction n as [|n IH]; intros s; [by left|].
  apply (body_upto _ _ IH).
Qed.

(** A result other than the recursion error does not depend on the
    bound on the recursion that gave it. *)
Lemma parse_circuit_stable n m s (r : result CircuitNode) :
  parse_circuit n s = r -> r <> Err RecursionError -> n <= m ->
  parse_circuit m s = r.
Proof.
  intros Hr Hne Hle. induction Hle as [|m Hle IH]; [done|].
  destruct (parse_circuit_upto m s) as [E|E]; congruence.
Qed.

(** A "-" below depth 0 is seen by [parse_circuit] and not by
    [_split_by_operator]: the string is its own only part, and the recursion
    ends at the limit only. *)
Lemma parse_unbalanced_no_result n :
  parse_circuit n "R1)-C1" = Err RecursionError.
Proof.
  induction n as [|n IH]; [done|].
  change (parse_circuit (S n) "R1)-C1")
    with (children ← (y ← parse_circuit n "R1)-C1"; ys ← Ok []; Ok (y :: ys));
          Ok (SeriesNode children) : result CircuitNode).
  by rewrite IH.
Qed.

End ParserFacts.

Section ParserExamples.

Example split_series_example :
  _split_by_operator "R1-(R2-W1)|C1" "-" = ["R1"; "(R2-W1)|C1"].
Proof. reflexivity. Qed.

Example split_trailing_example : _split_by_operator "R1-" "-" = ["R1"].
Proof. reflexivity. Qed.

Example split_leading_example : _split_by_operator "-R1" "-" = [""; "R1"].
Proof. reflexivity. Qed.

(** The third example of the docstring of [parse_circuit]. *)
Example parse_docstring_example :
  parse_circuit 1000 "R1-Q1|(R2-W1)"
  = Ok (SeriesNode
          [ ElementNode (mkElement Resistor (Some "1"));
            ParallelNode
              [ ElementNode (mkElement CPE (Some "1"));
                SeriesNode
                  [ ElementNode (mkElement Resistor (Some "2"));
                    ElementNode (mkElement Warburg (Some "1")) ] ] ]).
Proof. reflexivity. Qed.

Example parse_spaces_example :
  parse_circuit 1000 " (R1 - C1 ) | L2 "
  = Ok (ParallelNode
          [ SeriesNode
              [ ElementNode (mkElement Resistor (Some "1"));
                ElementNode (mkElement Capacitor (Some "1")) ];
            ElementNode (mkElement Inductor (Some "2")) ]).
Proof. reflexivity. Qed.

End ParserExamples.

Section ParserClaims.

Lemma strip_tag (c : ascii) (ident : string) :
  Str.isspace c = false ->
  Str.strip (String c ident) = String c (Str.rstrip ident).
Proof.
  intros Hc. unfold Str.strip. simpl. rewrite Hc. simpl.
  destruct (Str.rstrip ident); by rewrite ?Hc.
Qed.

Lemma parse_blank n s :
  Str.strip s = "" ->
  parse_circuit (S n) s = Err (IndexError "string index out of range").
Proof.
  intros Hs. simpl. unfold parse_circuit_body. rewrite Hs. reflexivity.
Qed.

Lemma parse_blank_raises n : is_ok (parse_circuit n "") = false.
Proof. destruct n; [done|]. by rewrite parse_blank. Qed.

(** C1: "R1-C1|R2" is a Series node of R1 and of the Parallel node of C1
    and R2.  In general a string with a top-level "-" and a top-level "|"
    is split on the top-level "-" into the children of a Series node, and
    a part without "-" that has a top-level "|" is split on "|" into the
    children of a Parallel node. *)
Theorem parse_series_binds_first :
  (forall n,
     parse_circuit (3 + n) "R1-C1|R2"
     = Ok (SeriesNode
             [ ElementNode (mkElement Resistor (Some "1"));
               ParallelNode
                 [ ElementNode (mkElement Capacitor (Some "1"));
                   ElementNode (mkElement Resistor (Some "2")) ] ]))
  /\ (forall n s,
        top_level "-" (Str.strip s) 0 = true ->
        top_level "|" (Str.strip s) 0 = true ->
        parse_circuit (S n) s
        = (children ← traverse (parse_circuit n)
                        (_split_by_operator (Str.strip s) "-");
           Ok (SeriesNode children)))
  /\ (forall n s,
        Str.contains "-" (Str.strip s) = false ->
        top_level "|" (Str.strip s) 0 = true ->
        parse_circuit (S n) s
        = (children ← traverse (parse_circuit n)
                        (_split_by_operator (Str.strip s) "|");
           Ok (ParallelNode children))).
Proof.
  split; [intros n; reflexivity|]. split.
  - intros n s Hs _. simpl. by apply parse_body_series.
  - intros n s Hno Hp. simpl. by apply parse_body_parallel.
Qed.

Lemma parse_series_binds_first_witness :
  parse_circuit 3 "R1-C1|R2"
  = (children ← traverse (parse_circuit 2) ["R1"; "C1|R2"];
     Ok (SeriesNode children))
  /\ parse_circuit 2 "C1|R2"
     = (children ← traverse (parse_circuit 1) ["C1"; "R2"];
        Ok (ParallelNode children)).
Proof.
  split.
  - apply (proj1 (proj2 parse_series_binds_first) 2%nat "R1-C1|R2"); reflexivity.
  - apply (proj2 (proj2 parse_series_binds_first) 1%nat "C1|R2"); reflexivity.
Defined.

(** C2: [_create_element_node] builds the element for the tags R, C, L,
    W and Q; for the tags S and O, as for every other character that is no
    space, it raises the unknown-element error. *)
Theorem create_element_node_tags :
  (forall k ident,
     k <> WarburgShort -> k <> WarburgOpen ->
     _create_element_node (tag k ++ ident)
     = Ok (ElementNode (mkElement k (Some (Str.rstrip ident)))))
  /\ (forall c ident,
        Str.isspace c = false ->
        c ∉ ["R"; "C"; "L"; "W"; "Q"]%char ->
        _create_element_node (String c ident)
        = Err (ValueError ("Unknown element type: " ++ String c "")))
  /\ _create_element_node "S1" = Err (ValueError "Unknown element type: S")
  /\ _create_element_node "O1" = Err (ValueError "Unknown element type: O").
Proof.
  split; [|split; [|split; reflexivity]].
  - intros k ident HS HO. unfold _create_element_node.
    destruct k; try done; cbv [tag String.append];
      by rewrite strip_tag.
  - intros c ident Hc Hnot. unfold _create_element_node.
    rewrite strip_tag by done.
    repeat match goal with
           | |- context [Ascii.eqb c ?t] =>
               destruct (Ascii.eqb_spec c t) as [->|_];
               [exfalso; apply Hnot; set_solver|]
           end.
    reflexivity.
Qed.

Lemma create_element_node_tags_witness :
  _create_element_node ("L" ++ "12 ")
  = Ok (ElementNode (mkElement Inductor (Some "12")))
  /\ _create_element_node "X1" = Err (ValueError "Unknown element type: X").
Proof.
  split.
  - apply (proj1 create_element_node_tags Inductor "12 "); discriminate.
  - apply (proj1 (proj2 create_element_node_tags) "X"%char "1").
    + reflexivity.
    + intros H. repeat (apply elem_of_cons in H as [H|H]; [discriminate|]).
      by apply elem_of_nil in H.
Defined.

(** Where [parse_circuit] calls itself on a string for which it raises,
    it raises. *)
Lemma parse_body_part_raises (rec : string -> result CircuitNode) s part :
  part ∈ recursive_parts (Str.strip s) ->
  is_ok (rec part) = false ->
  is_ok (parse_circuit_body rec s) = false.
Proof.
  intros Hin Hpart.
  assert (forall op (mk : list CircuitNode -> CircuitNode),
            part ∈ _split_by_operator (Str.strip s) op ->
            is_ok (children ← traverse rec (_split_by_operator (Str.strip s) op);
                   Ok (mk children)) = false) as Hsplit.
  { intros op mk Hp. pose proof (traverse_raises rec _ part Hp Hpart) as H.
    destruct (traverse rec _); [discriminate|done]. }
  unfold recursive_parts in Hin. unfold parse_circuit_body.
  destruct (Str.contains "(" (Str.strip s)).
  - unfold _parse_with_parentheses.
    destruct (scan_operators (Str.strip s) 0 0 (-1) (-1)) as [pp sp].
    destruct (negb (sp =? -1)%Z); [by apply Hsplit|].
    destruct (negb (pp =? -1)%Z); [by apply Hsplit|].
    destruct (Str.startswith "(" _ && Str.endswith ")" _).
    + apply elem_of_cons in Hin as [->|Hin]; [done|by apply elem_of_nil in Hin].
    + by apply elem_of_nil in Hin.
  - destruct (Str.contains "-" (Str.strip s)); [by apply Hsplit|].
    destruct (Str.contains "|" (Str.strip s)); [by apply Hsplit|].
    by apply elem_of_nil in Hin.
Qed.

(** C9, as the code has it: parsing the empty or blank string raises (an
    IndexError, at the tag character), and parsing raises for every string
    with an empty token, at whatever depth: a string that is split at the
    "-" or at the "|" into parts one of which is blank or has an empty
    token, parentheses around such a string or around nothing.  The part
    after a last operator is dropped when it is empty, so that "R1-" has
    no empty token and is the Series node of R1 alone. *)
Theorem parse_empty_token :
  (forall n s,
     Str.strip s = "" ->
     parse_circuit (S n) s = Err (IndexError "string index out of range"))
  /\ (forall n s, empty_token s -> exists e, parse_circuit n s = Err e)
  /\ (forall n,
        parse_circuit (2 + n) "-R1" = Err (IndexError "string index out of range")
        /\ parse_circuit (2 + n) "R1--C1" = Err (IndexError "string index out of range")
        /\ parse_circuit (4 + n) "(R1-C1)||R2"
           = Err (IndexError "string index out of range")
        /\ parse_circuit (3 + n) "R1-()" = Err (IndexError "string index out of range")
        /\ parse_circuit (2 + n) "R1-"
           = Ok (SeriesNode [ElementNode (mkElement Resistor (Some "1"))])).
Proof.
  split; [exact parse_blank|]. split.
  - intros n s Hs. apply not_ok_raises. revert n.
    induction Hs as [s Hs|s part Hin _ IH]; intros [|n]; try done.
    + by rewrite parse_blank.
    + cbn [parse_circuit]. by apply (parse_body_part_raises _ s part).
  - intros n. repeat split; reflexivity.
Qed.

Lemma parse_empty_token_witness :
  parse_circuit 2 "  " = Err (IndexError "string index out of range")
  /\ (exists e, parse_circuit 1000 "(R1-C1)||R2" = Err e)
  /\ (exists e, parse_circuit 1000 "R1-()" = Err e).
Proof.
  split; [|split].
  - apply (proj1 parse_empty_token 1%nat "  "). reflexivity.
  - apply (proj1 (proj2 parse_empty_token) 1000%nat "(R1-C1)||R2").
    apply (empty_token_below _ "").
    + vm_compute. apply list_elem_of_further, list_elem_of_here.
    + by apply empty_token_here.
  - apply (proj1 (proj2 parse_empty_token) 1000%nat "R1-()").
    apply (empty_token_below _ "()").
    + vm_compute. apply list_elem_of_further, list_elem_of_here.
    + apply (empty_token_below _ "").
      * vm_compute. apply list_elem_of_here.
      * by apply empty_token_here.
Defined.

(** C9 as stated fails on its own example: "R1-" parses. *)
Lemma parse_trailing_operator_succeeds :
  parse_circuit 1000 "R1-"
  = Ok (SeriesNode [ElementNode (mkElement Resistor (Some "1"))]).
Proof. reflexivity. Qed.

End ParserClaims.

(** ** The evaluator *)

Section EvaluatorClaims.

Local Open Scope R_scope.


Lemma is_zero_false (z : C) :
  Cx.is_zero z = false <-> fst z <> 0 \/ snd z <> 0.
Proof.
  destruct z as [a b]. unfold Cx.is_zero. simpl.
  destruct (Req_dec_T a 0) as [->|Ha]; [destruct (Req_dec_T b 0) as [->|Hb]|].
  - split; [done|]. intros [?|?]; done.
  - split; [by right|done].
  - split; [by left|done].
Qed.

Lemma polar_nonzero (r theta : R) : r <> 0 -> Cx.is_zero (Cx.polar r theta) = false.
Proof.
  intros Hr. apply is_zero_false. unfold Cx.polar. simpl.
  destruct (Req_dec_T (cos theta) 0) as [Hc|Hc].
  - right. intros H. apply Rmult_integral in H as [H|H]; [done|].
    pose proof (sin2_cos2 theta) as E. unfold Rsqr in E.
    rewrite Hc, H in E. lra.
  - left. intros H. apply Rmult_integral in H as [H|H]; done.
Qed.

(** The power of a non-zero base is a non-zero number. *)
Lemma pow_nonzero (z : C) (n : R) :
  Cx.is_zero z = false ->
  exists p, Cx.pow z n = Ok p /\ Cx.is_zero p = false.
Proof.
  intros Hz. unfold Cx.pow. rewrite Hz. eexists; split; [done|].
  apply polar_nonzero. unfold Rpower.
  pose proof (exp_pos (n * ln (Cx.abs z))). lra.
Qed.

Lemma scale_nonzero (x : R) (z : C) :
  x <> 0 -> Cx.is_zero z = false -> Cx.is_zero (Cx.scale x z) = false.
Proof.
  intros Hx Hz. apply is_zero_false. apply is_zero_false in Hz.
  unfold Cx.scale. simpl.
  destruct Hz as [H|H]; [left|right]; intros E;
    apply Rmult_integral in E as [E|E]; done.
Qed.

(** A quotient is what multiplied by the divisor gives the dividend. *)
Lemma div_one_inverse (w z : C) : Cx.div Cx.one w = Ok z -> Cx.mul z w = Cx.one.
Proof.
  unfold Cx.div. destruct (Cx.is_zero w) eqn:Hw; [done|]. intros [= <-].
  apply is_zero_false in Hw. destruct w as [a b]. simpl in Hw.
  assert (a * a + b * b <> 0) as Hn by (destruct Hw; nra).
  unfold Cx.mul, Cx.one, Cx.norm2. simpl. f_equal; field; done.
Qed.

(** C5: for a pair (C, n) the CPE impedance raises its domain error
    exactly when n <= 0 or n > 1; for 0 < n <= 1 it is the value of
    1 / (C * (j*2*pi*f) ** n), and when f and C are not zero that value is
    a complex number, the inverse of C * (j*2*pi*f) ** n. *)
Theorem CPE_impedance_domain (f c n : R) :
  (Elements.CPE_impedance f (Tuple [c; n]) = Err Elements.CPE_domain_error
   <-> (n <= 0 \/ 1 < n))
  /\ (0 < n -> n <= 1 ->
      Elements.CPE_impedance f (Tuple [c; n])
      = (p ← Cx.pow (Cx.scale (2 * PI * f) Cx.j) n;
         Cx.div Cx.one (Cx.scale c p)))
  /\ (0 < n -> n <= 1 -> f <> 0 -> c <> 0 ->
      exists p z,
        Cx.pow (Cx.scale (2 * PI * f) Cx.j) n = Ok p
        /\ Elements.CPE_impedance f (Tuple [c; n]) = Ok z
        /\ Cx.mul z (Cx.scale c p) = Cx.one).
Proof.
  unfold Elements.CPE_impedance. simpl.
  destruct (Rle_dec n 0) as [Hle|Hle]; [|destruct (Rlt_dec 1 n) as [Hlt|Hlt]].
  - split; [split; auto|]. split; intros; lra.
  - split; [split; auto|]. split; intros; lra.
  - split; [|split; [done|]].
    + split; [|intros [?|?]; lra].
      unfold Cx.pow, Cx.div.
      repeat (destruct (Cx.is_zero _) || destruct (Req_dec_T _ _)
              || destruct (Rlt_dec _ _)); simpl;
        try discriminate;
        repeat (destruct (Cx.is_zero _)); discriminate.
    + intros _ _ Hf Hc.
      assert (Cx.is_zero (Cx.scale (2 * PI * f) Cx.j) = false) as Hz.
      { apply is_zero_false. right. simpl.
        pose proof PI_RGT_0. intros E.
        assert (2 * PI * f = 0) as E' by lra.
        apply Rmult_integral in E' as [E'|E']; [lra|done]. }
      destruct (pow_nonzero _ n Hz) as (p & -> & Hp). cbn [mbind result_bind].
      destruct (Cx.div Cx.one (Cx.scale c p)) as [z|e] eqn:Hdiv.
      * exists p, z. split; [done|]. split; [done|]. by apply div_one_inverse.
      * exfalso. unfold Cx.div in Hdiv.
        by rewrite (scale_nonzero _ _ Hc Hp) in Hdiv.
Qed.

Lemma CPE_impedance_domain_witness :
  Elements.CPE_impedance 1 (Tuple [1; 1 / 2])
  = (p ← Cx.pow (Cx.scale (2 * PI * 1) Cx.j) (1 / 2);
     Cx.div Cx.one (Cx.scale 1 p))
  /\ exists z, Elements.CPE_impedance 1 (Tuple [1; 1 / 2]) = Ok z.
Proof.
  split.
  - apply (proj1 (proj2 (CPE_impedance_domain 1 1 (1 / 2)))); lra.
  - destruct (proj2 (proj2 (CPE_impedance_domain 1 1 (1 / 2))))
      as (p & z & _ & Hz & _); [lra..|].
    exists z. exact Hz.
Defined.

(** At a positive frequency the power with exponent 1 is the base, and
    the CPE with n = 1 is the capacitor. *)
Lemma pow_j_omega_one (w : R) :
  0 < w -> Cx.pow (Cx.scale w Cx.j) 1 = Ok (Cx.scale w Cx.j).
Proof.
  intros Hw. unfold Cx.pow.
  replace (Cx.is_zero (Cx.scale w Cx.j)) with false
    by (symmetry; apply is_zero_false; right; simpl; lra).
  f_equal. unfold Cx.polar, Cx.abs, Cx.norm2, Cx.arg, Cx.scale, Cx.j. simpl.
  destruct (Rlt_dec 0 (w * 0)) as [H|_]; [lra|].
  destruct (Rlt_dec (w * 0) 0) as [H|_]; [lra|].
  destruct (Rlt_dec 0 (w * 1)) as [_|H]; [|lra].
  replace (w * 0 * (w * 0) + w * 1 * (w * 1)) with (w * w) by ring.
  rewrite sqrt_square by lra. rewrite Rpower_1 by done.
  rewrite Rmult_1_l, cos_PI2, sin_PI2. done.
Qed.

Lemma CPE_exponent_one (f c : R) :
  0 < f ->
  Elements.CPE_impedance f (Tuple [c; 1])
  = Elements.Capacitor_impedance f (Scalar c).
Proof.
  intros Hf. unfold Elements.CPE_impedance, Elements.Capacitor_impedance.
  cbn [Elements.unpack2 Elements.scalar mbind result_bind].
  destruct (Rle_dec 1 0) as [H|_]; [lra|].
  destruct (Rlt_dec 1 1) as [H|_]; [lra|].
  rewrite pow_j_omega_one by (pose proof PI_RGT_0; nra).
  reflexivity.
Qed.







End EvaluatorClaims.

Section EvaluatorBinary64.

Import PrimFloat.
Local Open Scope R_scope.


End EvaluatorBinary64.

(** ** The order of the keys *)

Section KeyOrder.

Lemma leb_trans (a b c : string) :
  String.leb a b = true -> String.leb b c = true -> String.leb a c = true.
Proof.
  unfold String.leb. revert b c.
  induction a as [|x a IH]; intros [|y b] [|z c]; simpl; try done.
  unfold Ascii.compare.
  destruct (N.compare_spec (N_of_ascii x) (N_of_ascii y)) as [Exy|Lxy|Gxy];
    destruct (N.compare_spec (N_of_ascii y) (N_of_ascii z)) as [Eyz|Lyz|Gyz];
    destruct (N.compare_spec (N_of_ascii x) (N_of_ascii z)) as [Exz|Lxz|Gxz];
    try done; try lia.
  apply IH.
Qed.

#[global] Instance str_le_trans : Transitive str_le.
Proof. intros a b c. apply leb_trans. Qed.

#[global] Instance str_le_total : Total str_le.
Proof. intros a b. apply String.leb_total. Qed.

#[global] Instance str_le_antisym : AntiSymm (=) str_le.
Proof. intros a b. apply String.leb_antisym. Qed.

Context (params : gmap string pval).

Lemma sorted_keys_perm : sorted (keys params) ≡ₚ keys params.
Proof. apply merge_sort_Permutation. Qed.

Lemma sorted_keys_sorted : StronglySorted str_le (sorted (keys params)).
Proof. apply StronglySorted_merge_sort; apply _. Qed.

Lemma sorted_keys_NoDup : NoDup (sorted (keys params)).
Proof. rewrite sorted_keys_perm. apply NoDup_fst_map_to_list. Qed.

Lemma elem_of_keys (k : string) : k ∈ keys params <-> is_Some (params !! k).
Proof.
  unfold keys. rewrite list_elem_of_fmap. split.
  - intros ([k' v] & -> & Hin). apply elem_of_map_to_list in Hin. eauto.
  - intros [v Hv]. exists (k, v). split; [done|]. by apply elem_of_map_to_list.
Qed.

Lemma elem_of_sorted_keys (k : string) :
  k ∈ sorted (keys params) <-> is_Some (params !! k).
Proof. rewrite sorted_keys_perm. apply elem_of_keys. Qed.

End KeyOrder.

(** ** The parameter codec *)

Section Codec.

Local Open Scope list_scope.

Context (eps : R) (params : gmap string pval).

Lemma omap_lookup_fst (ks : list string) :
  (forall k, k ∈ ks -> is_Some (params !! k)) ->
  (omap (fun k => pair k <$> params !! k) ks).*1 = ks.
Proof.
  induction ks as [|k ks IH]; intros Hall; [done|]. simpl.
  destruct (Hall k) as [v Hv]; [apply list_elem_of_here|].
  rewrite Hv. simpl. f_equal. apply IH.
  intros k' Hk'. apply Hall. by apply list_elem_of_further.
Qed.

Lemma sorted_items_fst : (sorted_items params).*1 = sorted (keys params).
Proof.
  apply omap_lookup_fst. intros k. apply elem_of_sorted_keys.
Qed.

Lemma elem_of_sorted_items (k : string) (v : pval) :
  (k, v) ∈ sorted_items params <-> params !! k = Some v.
Proof.
  unfold sorted_items. rewrite list_elem_of_omap. split.
  - intros (k' & _ & Hk'). destruct (params !! k') eqn:E; [|done].
    simpl in Hk'. by injection Hk' as -> ->.
  - intros Hv. exists k. split.
    + apply elem_of_sorted_keys. eauto.
    + by rewrite Hv.
Qed.

Lemma sorted_items_NoDup : NoDup (sorted_items params).*1.
Proof. rewrite sorted_items_fst. apply sorted_keys_NoDup. Qed.

(** The first loop of [fit] in closed form. *)
Lemma flatten_loop_items (its : list (string * pval)) (acc : flat) :
  (forall k v, (k, v) ∈ its -> params !! k = Some v) ->
  flatten_loop eps params its.*1 acc
  = Ok (mkFlat
          (p0 acc ++ (its ≫= fun kv => values kv.2))
          (lower_bounds acc ++ (its ≫= fun kv => lower_block eps kv.1 kv.2))
          (upper_bounds acc ++ (its ≫= fun kv => upper_block kv.1 kv.2))
          (structure acc ++ ((fun kv => (kv.1, arity kv.2)) <$> its))).
Proof.
  revert acc. induction its as [|[k v] its IH]; intros acc Hall.
  { destruct acc. simpl. by rewrite !app_nil_r. }
  assert (params !! k = Some v) as Hk by (apply Hall, list_elem_of_here).
  assert (forall k' v', (k', v') ∈ its -> params !! k' = Some v') as Hrest
    by (intros k' v' Hin; by apply Hall, list_elem_of_further).
  cbn [fmap list_fmap fst flatten_loop]. unfold flatten_key. rewrite Hk.
  unfold lower_block, upper_block.
  destruct v as [x|xs]; [|destruct (Str.startswith "Q" k) eqn:EQ];
    cbn [mbind result_bind]; rewrite (IH _ Hrest);
    cbn [p0 structure lower_bounds upper_bounds mbind list_bind
         fmap list_fmap fst snd values arity];
    rewrite ?EQ, <- ?app_assoc; reflexivity.
Qed.

Lemma flatten_closed :
  flatten eps params
  = Ok (mkFlat
          (sorted_items params ≫= fun kv => values kv.2)
          (sorted_items params ≫= fun kv => lower_block eps kv.1 kv.2)
          (sorted_items params ≫= fun kv => upper_block kv.1 kv.2)
          ((fun kv => (kv.1, arity kv.2)) <$> sorted_items params)).
Proof.
  unfold flatten. rewrite <- sorted_items_fst.
  rewrite flatten_loop_items; [done|].
  intros k v. apply elem_of_sorted_items.
Qed.

End Codec.

Section WriteBack.

Local Open Scope list_scope.

Implicit Types (d : gmap string pval) (its : list (string * pval)).
Implicit Types (st : list (string * nat)) (vals : list R).

Lemma sum_snd_cons (k : string) (len : nat) st :
  sum_list ((k, len) :: st).*2 = len + sum_list st.*2.
Proof. reflexivity. Qed.

Lemma foldl_assign_notin its d (k : string) :
  k ∉ its.*1 -> foldl assign d its !! k = d !! k.
Proof.
  revert d. induction its as [|[k' v'] its IH]; intros d Hk; [done|].
  cbn [fmap list_fmap fst] in Hk. apply not_elem_of_cons in Hk as [Hne Hk].
  cbn [foldl]. rewrite IH by done. unfold assign. simpl.
  by rewrite lookup_insert_ne.
Qed.

Lemma foldl_assign_in its d (k : string) (v : pval) :
  NoDup its.*1 -> (k, v) ∈ its -> foldl assign d its !! k = Some v.
Proof.
  revert d. induction its as [|[k' v'] its IH]; intros d Hnd Hin.
  { by apply elem_of_nil in Hin. }
  cbn [fmap list_fmap fst] in Hnd. apply NoDup_cons in Hnd as [Hk' Hnd].
  cbn [foldl]. apply elem_of_cons in Hin as [[= -> ->]|Hin].
  - rewrite foldl_assign_notin by done. unfold assign. simpl.
    by rewrite lookup_insert_eq.
  - by apply IH.
Qed.

(** With enough values the write-back loop does not raise, and assigns
    the pairs of [chunks] in order. *)
Lemma reconstruct_chunks st vals : forall idx d,
  idx + sum_list st.*2 <= length vals ->
  reconstruct st vals idx d = (foldl assign d (chunks st vals idx), Ok tt).
Proof.
  induction st as [|[k len] st IH]; intros idx d Hlen; [done|].
  rewrite sum_snd_cons in Hlen.
  cbn [reconstruct chunks foldl].
  destruct (len =? 1)%nat eqn:E.
  - apply Nat.eqb_eq in E. subst len.
    destruct (lookup_lt_is_Some_2 vals idx) as [x Hx]; [lia|].
    rewrite Hx. rewrite IH by lia. done.
  - rewrite IH by lia. done.
Qed.

Lemma chunks_fst st vals idx : (chunks st vals idx).*1 = st.*1.
Proof.
  revert idx. induction st as [|[k len] st IH]; intros idx; [done|].
  cbn [chunks fmap list_fmap fst]. f_equal. apply IH.
Qed.

(** Each assigned value has the shape that its number of slots gives. *)
Lemma chunks_shape st vals : forall idx (k : string) (v : pval),
  idx + sum_list st.*2 <= length vals ->
  (k, v) ∈ chunks st vals idx ->
  exists len, (k, len) ∈ st /\ shape v = shape_of_arity len.
Proof.
  induction st as [|[k' len] st IH]; intros idx k v Hlen Hin.
  { by apply elem_of_nil in Hin. }
  rewrite sum_snd_cons in Hlen.
  cbn [chunks] in Hin. apply elem_of_cons in Hin as [[= -> ->]|Hin].
  - exists len. split; [apply list_elem_of_here|].
    unfold shape_of_arity. destruct (len =? 1)%nat eqn:E.
    + apply Nat.eqb_eq in E. subst len.
      destruct (lookup_lt_is_Some_2 vals idx) as [x ->]; [lia|]. done.
    + cbn [shape]. rewrite length_take, length_drop. f_equal. lia.
  - destruct (IH (idx + len) k v) as (len' & Hin' & Hs); [lia|done|].
    exists len'. split; [by apply list_elem_of_further|done].
Qed.

(** On the values that [flatten] laid out, the loop assigns each value
    again, reshaped. *)
Lemma chunks_items its : forall (pre post : list R),
  chunks ((fun kv => (kv.1, arity kv.2)) <$> its)
         (pre ++ (its ≫= fun kv => values kv.2) ++ post) (length pre)
  = (fun kv => (kv.1, reshape kv.2)) <$> its.
Proof.
  induction its as [|[k v] its IH]; intros pre post; [done|].
  cbn [fmap list_fmap chunks fst snd mbind list_bind].
  rewrite <- (app_assoc (values v)).
  replace (length pre + arity v) with (length (pre ++ values v))
    by (rewrite length_app; destruct v; done).
  rewrite (app_assoc pre (values v)), IH. f_equal. f_equal.
  rewrite <- (app_assoc pre (values v)).
  destruct (arity v =? 1)%nat eqn:E.
  - apply Nat.eqb_eq in E.
    destruct v as [x|[|x [|y xs]]]; try done;
      cbn [values]; rewrite lookup_app_r by lia;
      by rewrite Nat.sub_diag.
  - apply Nat.eqb_neq in E. destruct v as [x|xs]; [done|].
    cbn [values arity] in *. rewrite drop_app_length, take_app_length.
    by destruct xs as [|x [|y xs]].
Qed.

Lemma length_values its :
  length (its ≫= fun kv => values kv.2)
  = sum_list ((fun kv => (kv.1, arity kv.2)) <$> its).*2.
Proof.
  induction its as [|[k v] its IH]; [done|].
  change (length (values v ++ (its ≫= fun kv => values kv.2))
          = arity v + sum_list ((fun kv => (kv.1, arity kv.2)) <$> its).*2).
  rewrite length_app, IH. by destruct v.
Qed.

End WriteBack.

Section CodecClaims.

Local Open Scope list_scope.

Example sorted_example :
  sorted ["b"; "a"; "B"; "ab"; "R10"; "R2"] = ["B"; "R10"; "R2"; "a"; "ab"; "b"].
Proof. reflexivity. Qed.

Example flatten_example :
  flatten default_eps params_Q1_R1
  = Ok (mkFlat [2; 1 / 2; 100]%R
               [Fin default_eps; Fin default_eps; Fin default_eps]
               [PosInf; Fin 1%R; PosInf]
               [("Q1", 2); ("R1", 1)]).
Proof. reflexivity. Qed.

Lemma NoDup_fst_functional {A : Type} (l : list (string * A)) (k : string) (a b : A) :
  NoDup l.*1 -> (k, a) ∈ l -> (k, b) ∈ l -> a = b.
Proof.
  induction l as [|[k' c] l IH]; intros Hnd Ha Hb.
  { by apply elem_of_nil in Ha. }
  cbn [fmap list_fmap fst] in Hnd. apply NoDup_cons in Hnd as [Hk' Hnd].
  apply elem_of_cons in Ha as [Ha|Ha];
    apply elem_of_cons in Hb as [Hb|Hb]; simplify_eq; try done.
  - exfalso. apply Hk'. apply list_elem_of_fmap. by exists (k', b).
  - exfalso. apply Hk'. apply list_elem_of_fmap. by exists (k', a).
  - by apply IH.
Qed.

Lemma structure_NoDup (params : gmap string pval) :
  NoDup ((fun kv : string * pval => (kv.1, arity kv.2)) <$> sorted_items params).*1.
Proof.
  rewrite <- list_fmap_compose.
  replace (fst ∘ (fun kv : string * pval => (kv.1, arity kv.2))) with (@fst string pval)
    by done.
  apply sorted_items_NoDup.
Qed.

Lemma elem_of_structure (params : gmap string pval) (k : string) :
  k ∈ ((fun kv : string * pval => (kv.1, arity kv.2)) <$> sorted_items params).*1
  <-> is_Some (params !! k).
Proof.
  rewrite <- list_fmap_compose.
  replace (fst ∘ (fun kv : string * pval => (kv.1, arity kv.2))) with (@fst string pval)
    by done.
  rewrite sorted_items_fst. apply elem_of_sorted_keys.
Qed.

(** The mapping after the write-back loop, key by key. *)
Lemma write_back_lookup (params d : gmap string pval) (vals : list R) (k : string) :
  let st := (fun kv : string * pval => (kv.1, arity kv.2)) <$> sorted_items params in
  sum_list st.*2 <= length vals ->
  match params !! k with
  | Some v =>
      exists v', foldl assign d (chunks st vals 0) !! k = Some v'
                 /\ shape v' = shape_of_arity (arity v)
  | None => foldl assign d (chunks st vals 0) !! k = d !! k
  end.
Proof.
  intros st Hlen. destruct (params !! k) as [v|] eqn:Hk.
  - assert ((k, arity v) ∈ st) as Hst.
    { apply list_elem_of_fmap. exists (k, v). split; [done|].
      by apply elem_of_sorted_items. }
    assert (k ∈ (chunks st vals 0).*1) as Hin.
    { rewrite chunks_fst. apply elem_of_structure. eauto. }
    apply list_elem_of_fmap in Hin as ([k' v'] & -> & Hin). simpl.
    exists v'. split.
    + apply foldl_assign_in; [|done]. rewrite chunks_fst. apply structure_NoDup.
    + destruct (chunks_shape st vals 0 k' v') as (len & Hlen' & ->); [lia|done|].
      f_equal. eapply NoDup_fst_functional; [apply structure_NoDup|done..].
  - apply foldl_assign_notin. rewrite chunks_fst.
    intros Hin. apply elem_of_structure in Hin. rewrite Hk in Hin.
    by destruct Hin.
Qed.

(** The write-back of the flattened values themselves. *)
Lemma write_back_p0 (params d : gmap string pval) :
  (forall k, params !! k = None -> d !! k = None) ->
  foldl assign d ((fun kv => (kv.1, reshape kv.2)) <$> sorted_items params)
  = reshape <$> params.
Proof.
  intros Hd. apply map_eq. intros k. rewrite lookup_fmap.
  destruct (params !! k) as [v|] eqn:Hk; simpl.
  - apply foldl_assign_in.
    + rewrite <- list_fmap_compose.
      replace (fst ∘ (fun kv : string * pval => (kv.1, reshape kv.2)))
        with (@fst string pval) by done.
      apply sorted_items_NoDup.
    + apply list_elem_of_fmap. exists (k, v). split; [done|].
      by apply elem_of_sorted_items.
  - rewrite foldl_assign_notin; [by apply Hd|].
    rewrite <- list_fmap_compose.
    replace (fst ∘ (fun kv : string * pval => (kv.1, reshape kv.2)))
      with (@fst string pval) by done.
    rewrite sorted_items_fst. intros Hin.
    apply elem_of_sorted_keys in Hin. rewrite Hk in Hin. by destruct Hin.
Qed.

Lemma reshape_values (v : pval) : values (reshape v) = values v.
Proof. by destruct v as [x|[|x [|y xs]]]. Qed.

Lemma reshape_shape (v : pval) : shape (reshape v) = shape_of_arity (arity v).
Proof. by destruct v as [x|[|x [|y xs]]]. Qed.

Lemma reshape_id (v : pval) : (forall x, v <> Tuple [x]) -> reshape v = v.
Proof. destruct v as [x|[|x [|y xs]]]; try done. intros H. by destruct (H x). Qed.

Lemma default_eps_pos : (0 < default_eps)%R.
Proof.
  unfold default_eps. apply Rdiv_lt_0_compat; [lra|]. apply pow_lt. lra.
Qed.

(** C3: the values flattened by [fit] and written back, before any
    optimisation, give a mapping with the same keys, under each key the
    same numbers, a float where the value has one slot and a tuple of the
    same length otherwise; both the loop of [model_wrapper], on a fresh
    mapping, and the loop at the end of [fit], on the mapping itself, do so.
    When no value is a tuple of one float the mapping is the original
    one. *)
Theorem codec_round_trip (eps : R) (params : gmap string pval) :
  exists fl d,
    flatten eps params = Ok fl
    /\ reconstruct (structure fl) (p0 fl) 0 ∅ = (d, Ok tt)
    /\ reconstruct (structure fl) (p0 fl) 0 params = (d, Ok tt)
    /\ dom d = dom params
    /\ (forall k v,
          params !! k = Some v ->
          exists v', d !! k = Some v'
                     /\ values v' = values v
                     /\ shape v' = shape_of_arity (arity v))
    /\ ((forall k x, params !! k <> Some (Tuple [x])) -> d = params).
Proof.
  eexists. exists (reshape <$> params).
  split; [apply flatten_closed|]. cbn [structure p0].
  assert (forall d0,
    (forall k, params !! k = None -> d0 !! k = None) ->
    reconstruct ((fun kv => (kv.1, arity kv.2)) <$> sorted_items params)
      (sorted_items params ≫= fun kv => values kv.2) 0 d0
    = (reshape <$> params, Ok tt)) as Hrec.
  { intros d0 Hd0. rewrite reconstruct_chunks by (rewrite length_values; lia).
    pose proof (chunks_items (sorted_items params) [] []) as Hc.
    rewrite app_nil_r in Hc. cbn [app length] in Hc. rewrite Hc.
    by rewrite write_back_p0. }
  split; [apply Hrec; intros; apply lookup_empty|].
  split; [by apply Hrec|].
  split; [apply dom_fmap_L|]. split.
  - intros k v Hk. exists (reshape v). rewrite lookup_fmap, Hk.
    split; [done|]. split; [apply reshape_values|apply reshape_shape].
  - intros Hno. apply map_eq. intros k. rewrite lookup_fmap.
    destruct (params !! k) as [v|] eqn:Hk; [|done]. simpl. f_equal.
    apply reshape_id. intros x ->. by apply (Hno k x).
Qed.

Lemma codec_round_trip_witness :
  exists fl,
    flatten default_eps params_Q1_R1 = Ok fl
    /\ reconstruct (structure fl) (p0 fl) 0 ∅ = (params_Q1_R1, Ok tt).
Proof.
  destruct (codec_round_trip default_eps params_Q1_R1)
    as (fl & d & Hf & He & _ & _ & _ & Hid).
  exists fl. split; [exact Hf|]. rewrite He. f_equal. apply Hid.
  intros k x Hk. unfold params_Q1_R1 in Hk.
  apply lookup_insert_Some in Hk as [[_ Hk]|[_ Hk]]; [discriminate Hk|].
  apply lookup_insert_Some in Hk as [[_ Hk]|[_ Hk]]; [discriminate Hk|].
  by rewrite lookup_empty in Hk.
Defined.

(** C4: the keys are taken in sorted order, and [p0], [lower_bounds] and
    [upper_bounds] are filled key by key in that order: the bounds are
    [eps] and inf for a float; [eps], [eps] and inf, 1.0 for a tuple under a
    key that starts with Q; [eps] and inf for every slot of another tuple.
    The default [eps] is positive. *)
Theorem flatten_sorted_bounds (eps : R) (params : gmap string pval) :
  exists fl,
    flatten eps params = Ok fl
    /\ (structure fl).*1 = sorted (keys params)
    /\ StronglySorted str_le (structure fl).*1
    /\ NoDup (structure fl).*1
    /\ (forall k, k ∈ (structure fl).*1 <-> is_Some (params !! k))
    /\ (sorted_items params).*1 = sorted (keys params)
    /\ (forall k v, (k, v) ∈ sorted_items params <-> params !! k = Some v)
    /\ p0 fl = (sorted_items params ≫= fun kv => values kv.2)
    /\ lower_bounds fl
       = (sorted_items params ≫= fun kv =>
            match kv.2 with
            | Scalar _ => [Fin eps]
            | Tuple xs =>
                if Str.startswith "Q" kv.1 then [Fin eps; Fin eps]
                else replicate (length xs) (Fin eps)
            end)
    /\ upper_bounds fl
       = (sorted_items params ≫= fun kv =>
            match kv.2 with
            | Scalar _ => [PosInf]
            | Tuple xs =>
                if Str.startswith "Q" kv.1 then [PosInf; Fin 1%R]
                else replicate (length xs) PosInf
            end)
    /\ (0 < default_eps)%R.
Proof.
  eexists. split; [apply flatten_closed|].
  cbn [structure p0 lower_bounds upper_bounds].
  assert (((fun kv : string * pval => (kv.1, arity kv.2)) <$> sorted_items params).*1
          = sorted (keys params)) as Hks.
  { rewrite <- list_fmap_compose.
    replace (fst ∘ (fun kv : string * pval => (kv.1, arity kv.2)))
      with (@fst string pval) by done.
    apply sorted_items_fst. }
  rewrite Hks.
  split; [done|]. split; [apply sorted_keys_sorted|].
  split; [apply sorted_keys_NoDup|]. split; [apply elem_of_sorted_keys|].
  split; [apply sorted_items_fst|]. split; [apply elem_of_sorted_items|].
  split; [done|]. split; [done|]. split; [done|]. apply default_eps_pos.
Qed.

(** The bounds of a key are as many as its slots, unless it is a tuple
    under a Q key that is no pair: then [curve_fit] is given bounds that do
    not match [p0]. *)
Lemma bounds_aligned (eps : R) (key : string) (v : pval) :
  (forall xs, v = Tuple xs -> Str.startswith "Q" key = true -> length xs = 2) ->
  length (lower_block eps key v) = arity v
  /\ length (upper_block key v) = arity v.
Proof.
  intros HQ. destruct v as [x|xs]; [done|]. cbn [lower_block upper_block arity].
  destruct (Str.startswith "Q" key).
  - by rewrite (HQ xs).
  - by rewrite !length_replicate.
Qed.

End CodecClaims.

(** ** [CircuitNode.fit] *)

Section FitClaims.

Local Open Scope list_scope.

Variable curve_fit :
  (list R -> list R -> result (list R)) -> list R -> list R -> list R ->
  list ext * list ext -> result (list R).

(** [curve_fit] returns one optimal value for each value of [p0]. *)
Hypothesis curve_fit_length : forall f xdata ydata p0 bounds popt,
  curve_fit f xdata ydata p0 bounds = Ok popt -> length popt = length p0.

(** A call of [fit] that returns has written the optimal values back into
    the mapping it was given, and into no other. *)
Lemma fit_returns self freq Z_exp (params : loc) eps (h : store) res h' :
  fit curve_fit self freq Z_exp params eps h = (Ok res, h') ->
  exists popt,
    length popt = length (sorted_items (h params) ≫= fun kv => values kv.2)
    /\ res.1 = params
    /\ h' = store_update h params
              (foldl assign (h params)
                 (chunks ((fun kv => (kv.1, arity kv.2)) <$> sorted_items (h params))
                         popt 0)).
Proof.
  unfold fit. rewrite flatten_closed. cbn [structure p0 lower_bounds upper_bounds].
  destruct (curve_fit _ _ _ _ _) as [popt|e] eqn:Hcf; [|intros [=]].
  cbn [mbind result_bind].
  destruct (model_wrapper _ _ _ popt) as [Zfit|e]; [|intros [=]].
  cbn [mbind result_bind].
  destruct (np_sub _ Zfit) as [residuals|e]; [|intros [=]].
  cbn [mbind result_bind].
  apply curve_fit_length in Hcf.
  rewrite reconstruct_chunks by (rewrite Hcf, length_values; lia).
  intros [= <- <-]. exists popt. done.
Qed.

(** C8, as the code has it: after a call of [fit] that returns, the
    mapping that was passed has the same keys, under each key a float where
    the value had one slot and a tuple of the same length otherwise (so a
    float stays a float, and a tuple of a length other than 1 stays a tuple
    of that length); the call returns that same mapping and changes no
    other. *)
Theorem fit_keeps_structure self freq Z_exp (params : loc) eps (h : store) res h' :
  fit curve_fit self freq Z_exp params eps h = (Ok res, h') ->
  res.1 = params
  /\ (forall l, l <> params -> h' l = h l)
  /\ dom (h' params) = dom (h params)
  /\ (forall k v,
        h params !! k = Some v ->
        exists v', h' params !! k = Some v'
                   /\ shape v' = shape_of_arity (arity v))
  /\ (forall k v,
        h params !! k = Some v -> (forall x, v <> Tuple [x]) ->
        exists v', h' params !! k = Some v' /\ shape v' = shape v).
Proof.
  intros Hfit. destruct (fit_returns _ _ _ _ _ _ _ _ Hfit) as (popt & Hlen & Hres & ->).
  clear Hfit.
  assert (forall k,
    match h params !! k with
    | Some v =>
        exists v', store_update h params
                     (foldl assign (h params)
                        (chunks ((fun kv => (kv.1, arity kv.2))
                                   <$> sorted_items (h params)) popt 0))
                     params !! k = Some v'
                   /\ shape v' = shape_of_arity (arity v)
    | None =>
        store_update h params
          (foldl assign (h params)
             (chunks ((fun kv => (kv.1, arity kv.2))
                        <$> sorted_items (h params)) popt 0))
          params !! k = None
    end) as Hlook.
  { intros k. unfold store_update. rewrite decide_True by done.
    pose proof (write_back_lookup (h params) (h params) popt k) as Hw.
    cbn zeta in Hw. rewrite Hlen, length_values in Hw. specialize (Hw (le_n _)).
    destruct (h params !! k) eqn:Hk; [done|]. by rewrite Hw. }
  split; [done|]. split; [|split; [|split]].
  - intros l Hl. unfold store_update. by rewrite decide_False.
  - apply set_eq. intros k. rewrite !elem_of_dom. specialize (Hlook k).
    destruct (h params !! k) as [v|].
    + destruct Hlook as (v' & -> & _). split; eauto.
    + rewrite Hlook. done.
  - intros k v Hk. specialize (Hlook k). by rewrite Hk in Hlook.
  - intros k v Hk Hv. specialize (Hlook k). rewrite Hk in Hlook.
    destruct Hlook as (v' & Hv' & Hs). exists v'. split; [done|].
    rewrite Hs. rewrite <- reshape_shape. by rewrite reshape_id.
Qed.

End FitClaims.

Section FitExamples.

Local Open Scope R_scope.

Lemma curve_fit_p0_length f xdata ydata p0 bounds popt :
  curve_fit_p0 f xdata ydata p0 bounds = Ok popt -> length popt = length p0.
Proof. by intros [= ->]. Qed.

Lemma fit_keeps_structure_witness :
  match fit curve_fit_p0 (ElementNode (mkElement Resistor (Some "1")))
            [1] [(100, 0)] 0%nat default_eps (store_R1 (Scalar 50)) with
  | (Ok res, h') =>
      res.1 = 0%nat
      /\ dom (h' 0%nat) = dom (store_R1 (Scalar 50) 0%nat)
      /\ exists v', h' 0%nat !! "R1" = Some v' /\ shape v' = FloatShape
  | (Err _, _) => False
  end.
Proof.
  destruct (fit curve_fit_p0 _ _ _ _ _ _) as [[res|e] h'] eqn:Hfit.
  - destruct (fit_keeps_structure curve_fit_p0 curve_fit_p0_length
                _ _ _ _ _ _ _ _ Hfit) as (H1 & _ & H3 & H4 & _).
    split; [exact H1|]. split; [exact H3|].
    apply (H4 "R1" (Scalar 50)). reflexivity.
  - vm_compute in Hfit. discriminate Hfit.
Defined.

(** C8 as stated fails for a tuple of one float: the call returns and
    the value has become a float. *)
Lemma fit_one_tuple_becomes_float :
  exists r h',
    fit curve_fit_p0 (ElementNode (mkElement Resistor (Some "1")))
        [1] [(100, 0)] 0%nat default_eps (store_R1 (Tuple [50]))
    = (Ok (0%nat, r), h')
    /\ shape <$> store_R1 (Tuple [50]) 0%nat !! "R1" = Some (TupleShape 1)
    /\ shape <$> h' 0%nat !! "R1" = Some FloatShape.
Proof.
  eexists. eexists. split; [|split].
  - vm_compute. reflexivity.
  - reflexivity.
  - vm_compute. reflexivity.
Qed.

End FitExamples.

(** ** The model selector *)

Section SelectorClaims.

Local Open Scope list_scope.

Variable curve_fit :
  (list R -> list R -> result (list R)) -> list R -> list R -> list R ->
  list ext * list ext -> result (list R).
Variable recursion_limit : nat.
Variable recursion_text : string.
Variable freq : list R.
Variable Z_exp : list C.













(** C10: on an empty list of candidates [best_model] returns None for
    the winner and None for its parameters, and issues the warning that all
    models failed, with no candidate listed. *)
Theorem best_model_no_candidates (h : store) :
  best_model curve_fit recursion_limit recursion_text freq Z_exp [] h
  = ((None, None), [all_failed_warning []], h)
  /\ all_failed_warning [] = ("All models failed to fit. Errors:" ++ nl)%string
  /\ failed_models
       (select_loop curve_fit recursion_limit recursion_text freq Z_exp []
          (selection_init, h)).1
     = [].
Proof. repeat split. Qed.

End SelectorClaims.

Section SelectorExample.

Local Open Scope R_scope.




End SelectorExample.

(** * More of the code: verification *)

(** ** [str.strip] *)

Section StripFacts.

Lemma rstrip_idempotent s : Str.rstrip (Str.rstrip s) = Str.rstrip s.
Proof.
  induction s as [|c s IH]; [done|]. simpl.
  destruct (Str.rstrip s) as [|d r] eqn:E.
  - destruct (Str.isspace c) eqn:Ec; simpl; by rewrite ?Ec.
  - simpl. simpl in IH. by rewrite IH.
Qed.

Lemma rstrip_length s : String.length (Str.rstrip s) <= String.length s.
Proof.
  induction s as [|c s IH]; [done|]. simpl.
  destruct (Str.rstrip s) as [|d r].
  - destruct (Str.isspace c); simpl; lia.
  - simpl in *. lia.
Qed.

Lemma lstrip_length s : String.length (Str.lstrip s) <= String.length s.
Proof.
  induction s as [|c s IH]; [done|]. simpl.
  destruct (Str.isspace c); simpl; lia.
Qed.

Lemma strip_length s : String.length (Str.strip s) <= String.length s.
Proof.
  unfold Str.strip. pose proof (rstrip_length (Str.lstrip s)).
  pose proof (lstrip_length s). lia.
Qed.

Lemma lstrip_head s : unspaced_head (Str.lstrip s).
Proof.
  induction s as [|c s IH]; [done|]. simpl.
  by destruct (Str.isspace c) eqn:Ec.
Qed.

Lemma lstrip_unspaced s : unspaced_head s -> Str.lstrip s = s.
Proof. destruct s as [|c s]; [done|]. simpl. by intros ->. Qed.

Lemma rstrip_head s : unspaced_head s -> unspaced_head (Str.rstrip s).
Proof.
  destruct s as [|c s]; [done|]. simpl. intros Hc.
  destruct (Str.rstrip s); by rewrite ?Hc.
Qed.

Lemma strip_idempotent s : Str.strip (Str.strip s) = Str.strip s.
Proof.
  unfold Str.strip.
  rewrite (lstrip_unspaced (Str.rstrip (Str.lstrip s)))
    by apply rstrip_head, lstrip_head.
  apply rstrip_idempotent.
Qed.

(** X1: [parse_circuit] does not see the spaces around its argument. *)
Theorem parse_circuit_strip n s :
  parse_circuit n s = parse_circuit n (Str.strip s).
Proof.
  destruct n as [|n]; [done|]. simpl. unfold parse_circuit_body.
  by rewrite strip_idempotent.
Qed.

End StripFacts.

(** ** The parser: termination *)

Section ParserTermination.

Local Open Scope Z_scope.

Lemma space_not_paren c :
  Str.isspace c = true -> Ascii.eqb c "(" = false /\ Ascii.eqb c ")" = false.
Proof.
  intros Hc. split.
  - destruct (Ascii.eqb_spec c "(") as [->|]; [discriminate Hc|done].
  - destruct (Ascii.eqb_spec c ")") as [->|]; [discriminate Hc|done].
Qed.

Lemma net_lstrip s : net (Str.lstrip s) = net s.
Proof.
  induction s as [|c s IH]; [done|]. simpl.
  destruct (Str.isspace c) eqn:Ec; [|done].
  destruct (space_not_paren c Ec) as [-> ->]. lia.
Qed.

Lemma net_rstrip s : net (Str.rstrip s) = net s.
Proof.
  induction s as [|c s IH]; [done|]. simpl.
  destruct (Str.rstrip s) as [|d r].
  - destruct (Str.isspace c) eqn:Ec; simpl in *; [|lia].
    destruct (space_not_paren c Ec) as [-> ->]. lia.
  - simpl in *. lia.
Qed.

Lemma net_strip s : net (Str.strip s) = net s.
Proof. unfold Str.strip. by rewrite net_rstrip, net_lstrip. Qed.

Lemma net_join_snoc (cur : list ascii) (c : ascii) :
  net (Str.join (cur ++ [c])) = net (Str.join cur) + net (String c EmptyString).
Proof.
  unfold Str.join. induction cur as [|x cur IH]; simpl; [lia|].
  rewrite IH. simpl. lia.
Qed.

Lemma length_join (cur : list ascii) : String.length (Str.join cur) = length cur.
Proof. induction cur as [|x cur IH]; simpl; [done|]. by rewrite <- IH. Qed.

(** The parts that [_split_by_operator] cuts have as many "(" as ")" when
    the string has. *)
Lemma split_loop_net op s : forall parts cur d,
  d = net (Str.join cur) ->
  (forall p, p ∈ parts -> net p = 0) ->
  net (Str.join cur) + net s = 0 ->
  forall p, p ∈ split_loop op s parts cur d -> net p = 0.
Proof.
  induction s as [|c s IH]; intros parts cur d Hd Hparts Hnet p Hp; simpl in Hp.
  - destruct cur as [|x cur]; [by apply Hparts|].
    apply elem_of_app in Hp as [Hp|Hp]; [by apply Hparts|].
    apply list_elem_of_singleton in Hp as ->. rewrite net_strip.
    cbn [net] in Hnet. lia.
  - cbn [net] in Hnet.
    destruct (Ascii.eqb c "(") eqn:Eo.
    { apply (IH parts (cur ++ [c])%list (d + 1)); [| done | | done];
        rewrite net_join_snoc; cbn [net]; rewrite Eo; lia. }
    destruct (Ascii.eqb c ")") eqn:Ec.
    { apply (IH parts (cur ++ [c])%list (d - 1)); [| done | | done];
        rewrite net_join_snoc; cbn [net]; rewrite Eo, Ec; lia. }
    destruct (Ascii.eqb c op && (d =? 0)) eqn:Es.
    + apply andb_true_iff in Es as [_ Hz]. apply Z.eqb_eq in Hz.
      apply (IH (parts ++ [Str.strip (Str.join cur)])%list [] d); [| | | done].
      * simpl. lia.
      * intros q Hq. apply elem_of_app in Hq as [Hq|Hq]; [by apply Hparts|].
        apply list_elem_of_singleton in Hq as ->. rewrite net_strip. lia.
      * simpl. lia.
    + apply (IH parts (cur ++ [c])%list d); [| done | | done];
        rewrite net_join_snoc; cbn [net]; rewrite Eo, Ec; lia.
Qed.

(** No part is longer than what was read. *)
Lemma split_loop_length op s : forall parts cur d p,
  p ∈ split_loop op s parts cur d ->
  p ∈ parts \/ (String.length p <= length cur + String.length s)%nat.
Proof.
  induction s as [|c s IH]; intros parts cur d p Hp; simpl in Hp.
  - destruct cur as [|x cur]; [by left|].
    apply elem_of_app in Hp as [Hp|Hp]; [by left|]. right.
    apply list_elem_of_singleton in Hp as ->.
    pose proof (strip_length (Str.join (x :: cur))) as H.
    rewrite length_join in H. simpl in *. lia.
  - assert (forall d', p ∈ split_loop op s parts (cur ++ [c])%list d' ->
              p ∈ parts \/ (String.length p <= length cur + String.length (String c s))%nat)
      as Hsame.
    { intros d' Hp'. destruct (IH _ _ _ _ Hp') as [?|Hl]; [by left|right].
      rewrite length_app in Hl. simpl in *. lia. }
    destruct (Ascii.eqb c "("); [by eapply Hsame|].
    destruct (Ascii.eqb c ")"); [by eapply Hsame|].
    destruct (Ascii.eqb c op && (d =? 0)); [|by eapply Hsame].
    destruct (IH _ _ _ _ Hp) as [Hin|Hl].
    + apply elem_of_app in Hin as [Hin|Hin]; [by left|right].
      apply list_elem_of_singleton in Hin as ->.
      pose proof (strip_length (Str.join cur)) as H.
      rewrite length_join in H. simpl. lia.
    + right. simpl in *. lia.
Qed.

(** When the operator occurs at depth 0, every part is shorter. *)
Lemma split_loop_shorter op s : forall parts cur d p,
  top_level op s d = true ->
  p ∈ split_loop op s parts cur d ->
  p ∈ parts \/ (String.length p < length cur + String.length s)%nat.
Proof.
  induction s as [|c s IH]; intros parts cur d p Htop Hp; [done|].
  simpl in Hp, Htop.
  assert (forall d', top_level op s d' = true ->
            p ∈ split_loop op s parts (cur ++ [c])%list d' ->
            p ∈ parts \/ (String.length p < length cur + String.length (String c s))%nat)
    as Hsame.
  { intros d' Ht' Hp'. destruct (IH _ _ _ _ Ht' Hp') as [?|Hl]; [by left|right].
    rewrite length_app in Hl. simpl in *. lia. }
  destruct (Ascii.eqb c "("); [by eapply Hsame|].
  destruct (Ascii.eqb c ")"); [by eapply Hsame|].
  destruct (Ascii.eqb c op && (d =? 0)); [|by eapply Hsame].
  destruct (split_loop_length _ _ _ _ _ _ Hp) as [Hin|Hl].
  - apply elem_of_app in Hin as [Hin|Hin]; [by left|right].
    apply list_elem_of_singleton in Hin as ->.
    pose proof (strip_length (Str.join cur)) as H.
    rewrite length_join in H. simpl. lia.
  - right. simpl in *. lia.
Qed.

Lemma split_parts_smaller op s p :
  net s = 0 -> top_level op s 0 = true ->
  p ∈ _split_by_operator s op ->
  net p = 0 /\ (String.length p < String.length s)%nat.
Proof.
  intros Hnet Htop Hp. unfold _split_by_operator in Hp. split.
  - eapply (split_loop_net op s [] [] 0); try done.
    intros q Hq. by apply elem_of_nil in Hq.
  - destruct (split_loop_shorter _ _ _ _ _ _ Htop Hp) as [Hin|Hl]; [|done].
    by apply elem_of_nil in Hin.
Qed.

(** Without parentheses every operator is at depth 0. *)
Lemma no_open_net s :
  Str.contains "(" s = false ->
  net s <= 0 /\ (net s = 0 -> Str.contains ")" s = false).
Proof.
  induction s as [|c s IH]; [done|]. simpl.
  destruct (Ascii.eqb c "(") eqn:Eo; [done|]. simpl. intros Hs.
  destruct (IH Hs) as [Hle Hz].
  destruct (Ascii.eqb c ")") eqn:Ec; simpl; split; try lia; intros; apply Hz; lia.
Qed.

Lemma top_level_flat op s :
  Str.contains "(" s = false -> Str.contains ")" s = false ->
  top_level op s 0 = Str.contains op s.
Proof.
  induction s as [|c s IH]; [done|]. simpl.
  destruct (Ascii.eqb c "(") eqn:Eo; [done|].
  destruct (Ascii.eqb c ")") eqn:Ec; [done|]. simpl. intros Ho Hc.
  rewrite IH by done. by rewrite andb_true_r.
Qed.

Lemma drop_last_net s :
  Str.endswith ")" s = true -> net (Str.drop_last s) = net s + 1.
Proof.
  induction s as [|c s IH]; [done|].
  destruct s as [|d s].
  - simpl. intros Hc. rewrite Hc.
    destruct (Ascii.eqb_spec c ")") as [->|]; [simpl; lia|done].
  - intros He. change (Str.endswith ")" (String c (String d s)))
      with (Str.endswith ")" (String d s)) in He.
    change (Str.drop_last (String c (String d s)))
      with (String c (Str.drop_last (String d s))).
    cbn [net]. rewrite (IH He). cbn [net]. lia.
Qed.

Lemma drop_last_length s :
  (String.length (Str.drop_last s) <= String.length s)%nat.
Proof.
  induction s as [|c s IH]; [done|]. destruct s as [|d s]; [simpl; lia|].
  change (Str.drop_last (String c (String d s)))
    with (String c (Str.drop_last (String d s))).
  simpl in *. lia.
Qed.

Lemma inner_smaller s :
  Str.startswith "(" s && Str.endswith ")" s = true ->
  net (Str.inner s) = net s /\ (String.length (Str.inner s) < String.length s)%nat.
Proof.
  destruct s as [|c s]; [done|]. intros H. apply andb_true_iff in H as [Hs He].
  simpl in Hs. cbn [Str.inner]. split.
  - destruct s as [|d s].
    + simpl in He. apply Ascii.eqb_eq in Hs, He. congruence.
    + change (Str.endswith ")" (String c (String d s)))
        with (Str.endswith ")" (String d s)) in He.
      rewrite (drop_last_net _ He). cbn [net]. rewrite Hs. lia.
  - pose proof (drop_last_length s). simpl. lia.
Qed.

Lemma create_element_node_not_limit s :
  _create_element_node s <> Err RecursionError.
Proof.
  unfold _create_element_node. destruct (Str.strip s) as [|c r]; [done|].
  repeat match goal with
         | |- context [if ?b then _ else _] => destruct b
         end; done.
Qed.

Lemma traverse_not_limit {A B : Type} (f : A -> result B) (xs : list A) :
  (forall x, x ∈ xs -> f x <> Err RecursionError) ->
  traverse f xs <> Err RecursionError.
Proof.
  induction xs as [|x xs IH]; intros Hf; [done|]. simpl.
  pose proof (Hf x (list_elem_of_here _ _)) as Hx.
  destruct (f x) as [y|e]; [|intros [= ->]; done]. simpl.
  assert (traverse f xs <> Err RecursionError) as Hxs.
  { apply IH. intros z Hz. by apply Hf, list_elem_of_further. }
  destruct (traverse f xs) as [ys|e]; [done|]. simpl. intros [= ->]. done.
Qed.

(** X2: on a string with as many "(" as ")", the calls of
    [parse_circuit] nest to a depth of at most the length of the string:
    with a bound on that depth above the length, the bound is not met, and
    [parse_circuit] returns a tree or raises an error of the grammar.  The
    depth is counted in calls of [parse_circuit], not in frames of the
    interpreter. *)
Theorem parse_circuit_terminates n s :
  net s = 0 -> (String.length s < n)%nat ->
  parse_circuit n s <> Err RecursionError.
Proof.
  revert s. induction n as [|n IH]; intros s Hnet Hlen; [lia|].
  simpl. unfold parse_circuit_body.
  pose proof (strip_length s) as Hsl. rewrite <- net_strip in Hnet.
  set (t := Str.strip s) in *.
  assert (forall op, top_level op t 0 = true ->
            traverse (parse_circuit n) (_split_by_operator t op)
            <> Err RecursionError) as Hparts.
  { intros op Htop. apply traverse_not_limit. intros p Hp.
    destruct (split_parts_smaller op t p Hnet Htop Hp) as [Hn Hl].
    apply IH; [done|lia]. }
  assert (forall op (mk : list CircuitNode -> CircuitNode),
            top_level op t 0 = true ->
            (children ← traverse (parse_circuit n) (_split_by_operator t op);
             Ok (mk children)) <> Err RecursionError) as Hnode.
  { intros op mk Htop. specialize (Hparts op Htop).
    destruct (traverse _ _) as [ys|e]; [done|]. simpl. intros [= ->]. done. }
  destruct (Str.contains "(" t) eqn:Ho.
  - unfold _parse_with_parentheses.
    pose proof (scan_series_pos t 0 0 (-1) (-1) ltac:(lia)) as Hs.
    pose proof (scan_parallel_pos t 0 0 (-1) (-1) ltac:(lia)) as Hp.
    destruct (scan_operators t 0 0 (-1) (-1)) as [pp sp]. simpl in Hs, Hp.
    destruct (sp =? -1) eqn:Esp; simpl.
    + destruct (pp =? -1) eqn:Epp; simpl.
      * destruct (Str.startswith "(" t && Str.endswith ")" t) eqn:Ew.
        -- destruct (inner_smaller t Ew) as [Hin Hil]. apply IH; [lia|lia].
        -- apply create_element_node_not_limit.
      * apply Hnode. by destruct (top_level "|" t 0).
    + apply Hnode. by destruct (top_level "-" t 0).
  - destruct (no_open_net t Ho) as [_ Hc]. specialize (Hc Hnet).
    destruct (Str.contains "-" t) eqn:Es.
    { apply Hnode. by rewrite top_level_flat. }
    destruct (Str.contains "|" t) eqn:Ep.
    { apply Hnode. by rewrite top_level_flat. }
    apply create_element_node_not_limit.
Qed.

Lemma parse_circuit_terminates_witness :
  parse_circuit 11 "R1-(C1|L1)" <> Err RecursionError.
Proof.
  apply parse_circuit_terminates; [reflexivity|]. simpl. lia.
Defined.

End ParserTermination.

(** ** [__str__] and [parse_circuit] *)

Section StringFacts.

Lemma append_empty_r (s : string) : s +:+ "" = s.
Proof. induction s as [|c s IH]; [done|]. cbv [String.append]. fold String.append. by rewrite IH. Qed.

Lemma append_cons (c : ascii) (s t : string) :
  String c s +:+ t = String c (s +:+ t).
Proof. reflexivity. Qed.

Lemma append_assoc (s t u : string) : (s +:+ t) +:+ u = s +:+ (t +:+ u).
Proof. induction s as [|c s IH]; [done|]. by rewrite !append_cons, IH. Qed.

Lemma contains_app c (s t : string) :
  Str.contains c (s +:+ t) = Str.contains c s || Str.contains c t.
Proof.
  induction s as [|d s IH]; [done|]. rewrite append_cons. simpl.
  by rewrite IH, orb_assoc.
Qed.

Lemma quiet_app op (s t : string) : forall d,
  quiet op (s +:+ t) d = quiet op s d ≫= quiet op t.
Proof.
  induction s as [|c s IH]; intros d; [done|]. rewrite append_cons. simpl.
  repeat match goal with
         | |- context [if ?b then _ else _] => destruct b
         end; by rewrite ?IH.
Qed.

Lemma top_level_app op (s t : string) : forall d d',
  quiet op s d = Some d' -> top_level op (s +:+ t) d = top_level op t d'.
Proof.
  induction s as [|c s IH]; intros d d'; [by intros [= ->]|].
  rewrite append_cons. simpl.
  destruct (Ascii.eqb c "("); [apply IH|].
  destruct (Ascii.eqb c ")"); [apply IH|].
  destruct (Ascii.eqb c op && (d =? 0)%Z); [done|]. apply IH.
Qed.

Lemma top_level_quiet op (s : string) d d' :
  quiet op s d = Some d' -> top_level op s d = false.
Proof.
  intros Hq. rewrite <- (append_empty_r s). by rewrite (top_level_app _ _ _ _ _ Hq).
Qed.

Lemma split_loop_app op (s t : string) : forall parts cur d d',
  quiet op s d = Some d' ->
  split_loop op (s +:+ t) parts cur d
  = split_loop op t parts (cur ++ list_ascii_of_string s)%list d'.
Proof.
  induction s as [|c s IH]; intros parts cur d d'.
  { intros [= ->]. simpl. by rewrite app_nil_r. }
  rewrite append_cons. simpl.
  destruct (Ascii.eqb c "("); [intros H; rewrite (IH _ _ _ _ H); by rewrite <- app_assoc|].
  destruct (Ascii.eqb c ")"); [intros H; rewrite (IH _ _ _ _ H); by rewrite <- app_assoc|].
  destruct (Ascii.eqb c op && (d =? 0)%Z); [done|].
  intros H. rewrite (IH _ _ _ _ H). by rewrite <- app_assoc.
Qed.

Lemma rstrip_app (s t : string) :
  Str.rstrip t = t -> t <> "" -> Str.rstrip (s +:+ t) = s +:+ t.
Proof.
  intros Ht Hne. induction s as [|c s IH]; [done|].
  rewrite append_cons. simpl. rewrite IH.
  destruct (s +:+ t) eqn:E; [|done].
  destruct s; [simpl in E; by subst|done].
Qed.

Lemma tight_strip (s : string) : tight s -> Str.strip s = s.
Proof.
  intros (Hh & Hr & _). unfold Str.strip. by rewrite lstrip_unspaced.
Qed.

Lemma tight_wrap (s m t : string) : tight s -> tight t -> tight (s +:+ m +:+ t).
Proof.
  intros (Hh & _ & Hne) (_ & Hr & Hte). split; [|split].
  - destruct s; [done|]. by rewrite append_cons.
  - rewrite <- append_assoc. by apply rstrip_app.
  - destruct s; [done|]. by rewrite append_cons.
Qed.

Lemma tight_concat (sep : string) (l : list string) :
  l <> [] -> Forall tight l -> tight (String.concat sep l).
Proof.
  induction l as [|x l IH]; [done|]. intros _ Hall.
  apply Forall_cons in Hall as [Hx Hl].
  destruct l as [|y l]; [done|].
  change (String.concat sep (x :: y :: l))
    with (x +:+ sep +:+ String.concat sep (y :: l)).
  apply tight_wrap; [done|]. by apply IH.
Qed.

(** *** Strings joined by an operator *)

Lemma concat_cons2 (sep x y : string) (l : list string) :
  String.concat sep (x :: y :: l) = x +:+ sep +:+ String.concat sep (y :: l).
Proof. reflexivity. Qed.

Lemma quiet_step_other op (c : ascii) (s : string) d :
  Ascii.eqb c "(" = false -> Ascii.eqb c ")" = false ->
  Ascii.eqb c op && (d =? 0)%Z = false ->
  quiet op (String c s) d = quiet op s d.
Proof. intros Ho Hc Hop. simpl. by rewrite Ho, Hc, Hop. Qed.

Lemma quiet_concat op (c : ascii) (l : list string) d :
  Ascii.eqb c "(" = false -> Ascii.eqb c ")" = false ->
  Ascii.eqb c op && (d =? 0)%Z = false ->
  Forall (fun x => quiet op x d = Some d) l ->
  quiet op (String.concat (String c "") l) d = Some d.
Proof.
  intros Ho Hc Hop. induction l as [|x l IH]; [done|]. intros Hall.
  apply Forall_cons in Hall as [Hx Hl]. destruct l as [|y l]; [done|].
  rewrite concat_cons2, quiet_app, Hx. cbn [mbind option_bind].
  rewrite append_cons, quiet_step_other by done. by apply IH.
Qed.

Lemma contains_concat (a c : ascii) (l : list string) :
  Ascii.eqb c a = false ->
  Forall (fun x => Str.contains a x = false) l ->
  Str.contains a (String.concat (String c "") l) = false.
Proof.
  intros Hca. induction l as [|x l IH]; [done|]. intros Hall.
  apply Forall_cons in Hall as [Hx Hl]. destruct l as [|y l]; [done|].
  rewrite concat_cons2, contains_app, Hx, append_cons. simpl.
  rewrite Hca. by apply IH.
Qed.

(** [_split_by_operator] cuts the joined strings apart again. *)
Lemma split_concat op (l : list string) : forall parts,
  Ascii.eqb op "(" = false -> Ascii.eqb op ")" = false ->
  l <> [] ->
  Forall (fun x => quiet op x 0 = Some 0%Z /\ tight x) l ->
  split_loop op (String.concat (String op "") l) parts [] 0 = (parts ++ l)%list.
Proof.
  intros parts Ho Hc. revert parts.
  induction l as [|x l IH]; [done|]. intros parts _ Hall.
  apply Forall_cons in Hall as [[Hq Ht] Hl].
  assert (Str.strip (Str.join (list_ascii_of_string x)) = x) as Hx.
  { unfold Str.join. rewrite string_of_list_ascii_of_string. by apply tight_strip. }
  destruct l as [|y l].
  - change (String.concat (String op "") [x]) with x.
    pose proof (split_loop_app op x "" parts [] 0 0 Hq) as Hs.
    rewrite append_empty_r in Hs. rewrite Hs.
    cbn [app split_loop]. rewrite Hx.
    destruct Ht as (_ & _ & Hne). by destruct x.
  - rewrite concat_cons2, (split_loop_app _ _ _ _ _ _ _ Hq), append_cons.
    cbn [app split_loop]. rewrite Ho, Hc, Ascii.eqb_refl. cbn [andb Z.eqb].
    rewrite Hx, IH by done. by rewrite <- app_assoc.
Qed.

Lemma top_level_concat op (x y : string) (l : list string) :
  Ascii.eqb op "(" = false -> Ascii.eqb op ")" = false ->
  quiet op x 0 = Some 0%Z ->
  top_level op (String.concat (String op "") (x :: y :: l)) 0 = true.
Proof.
  intros Ho Hc Hq. rewrite concat_cons2, (top_level_app _ _ _ _ _ Hq), append_cons.
  simpl. by rewrite Ho, Hc, Ascii.eqb_refl.
Qed.

End StringFacts.

Section PrintedElements.

Lemma plain_spec (c : ascii) :
  plain c = true ->
  Str.isspace c = false
  /\ Ascii.eqb c "(" = false /\ Ascii.eqb c ")" = false
  /\ Ascii.eqb c "-" = false /\ Ascii.eqb c "|" = false.
Proof.
  unfold plain. rewrite !andb_true_iff, !negb_true_iff. tauto.
Qed.

Lemma quiet_plain op (n : string) d :
  is_op op -> forallb plain (list_ascii_of_string n) = true ->
  quiet op n d = Some d.
Proof.
  intros Hop. induction n as [|c n IH]; [done|]. simpl.
  rewrite andb_true_iff. intros [Hc Hn].
  destruct (plain_spec c Hc) as (_ & -> & -> & Hd & Hb).
  destruct Hop as [-> | ->]; rewrite ?Hd, ?Hb; by apply IH.
Qed.

Lemma contains_plain (a : ascii) (n : string) :
  a = "("%char \/ a = ")"%char \/ is_op a ->
  forallb plain (list_ascii_of_string n) = true ->
  Str.contains a n = false.
Proof.
  intros Ha. induction n as [|c n IH]; [done|]. simpl.
  rewrite andb_true_iff. intros [Hc Hn]. rewrite (IH Hn), orb_false_r.
  destruct (plain_spec c Hc) as (_ & Ho & Hcl & Hd & Hb).
  destruct Ha as [-> | [-> | [-> | ->]]]; done.
Qed.

Lemma rstrip_plain (n : string) :
  forallb plain (list_ascii_of_string n) = true -> Str.rstrip n = n.
Proof.
  induction n as [|c n IH]; [done|]. simpl.
  rewrite andb_true_iff. intros [Hc Hn]. rewrite (IH Hn).
  destruct (plain_spec c Hc) as (-> & _). by destruct n.
Qed.

(** The string of an element that the parser knows: its tag and its
    name. *)
Lemma parsable_element_str (e : CircuitElement) :
  parsable_element e = true ->
  exists (t : ascii) (n : string),
    element_str e = String t n
    /\ name e = Some n
    /\ forallb plain (list_ascii_of_string n) = true
    /\ plain t = true
    /\ _create_element_node (String t n) = Ok (ElementNode e).
Proof.
  destruct e as [k [n|]]; unfold parsable_element, element_str; simpl;
    destruct k; try done; intros Hn;
    eexists _, n; (split; [reflexivity|]); (split; [done|]);
    (split; [done|]); (split; [reflexivity|]);
    unfold _create_element_node; rewrite strip_tag by done;
    by rewrite (rstrip_plain _ Hn).
Qed.

Lemma printed_well_element (e : CircuitElement) :
  parsable_element e = true -> printed_well (ElementNode e).
Proof.
  intros He. destruct (parsable_element_str e He) as (t & n & Hs & _ & Hn & Ht & Hmk).
  assert (forallb plain (list_ascii_of_string (String t n)) = true) as Hall
    by (simpl; by rewrite Ht, Hn).
  unfold printed_well. cbn [node_str is_series is_parallel]. rewrite Hs.
  split; [|split; [|split; [|split]]].
  - destruct (plain_spec t Ht) as (Hsp & _). split; [done|].
    split; [|done]. by apply rstrip_plain.
  - intros op d Hop _. by apply quiet_plain.
  - intros _. apply quiet_plain; [by left|done].
  - intros _ _. split; [apply quiet_plain; [by right|done]|].
    apply contains_plain; [|done]. right; right; by left.
  - exists 1. simpl. unfold parse_circuit_body.
    assert (Str.strip (String t n) = String t n) as ->.
    { destruct (plain_spec t Ht) as (Hsp & _).
      rewrite strip_tag by done. by rewrite (rstrip_plain _ Hn). }
    rewrite (contains_plain "(" _ (or_introl eq_refl) Hall).
    rewrite (contains_plain "-" _ (or_intror (or_intror (or_introl eq_refl))) Hall).
    by rewrite (contains_plain "|" _ (or_intror (or_intror (or_intror eq_refl))) Hall).
Qed.

End PrintedElements.

Section PrintedTrees.

Lemma CircuitNode_induction (P : CircuitNode -> Prop) :
  (forall e, P (ElementNode e)) ->
  (forall children, Forall P children -> P (SeriesNode children)) ->
  (forall children, Forall P children -> P (ParallelNode children)) ->
  forall t, P t.
Proof.
  intros He Hs Hp. fix IH 1. intros [e|children|children].
  - apply He.
  - apply Hs. induction children as [|c children IHc]; constructor; [apply IH|apply IHc].
  - apply Hp. induction children as [|c children IHc]; constructor; [apply IH|apply IHc].
Qed.

Lemma endswith_snoc (c : ascii) (s : string) :
  Str.endswith c (s +:+ String c "") = true.
Proof.
  induction s as [|d s IH]; [simpl; apply Ascii.eqb_refl|].
  rewrite append_cons. destruct s as [|d' s]; [simpl; apply Ascii.eqb_refl|].
  rewrite append_cons in *. exact IH.
Qed.

Lemma drop_last_snoc (c : ascii) (s : string) :
  Str.drop_last (s +:+ String c "") = s.
Proof.
  induction s as [|d s IH]; [done|].
  rewrite append_cons. destruct s as [|d' s]; [done|].
  rewrite append_cons in *.
  change (Str.drop_last (String d (String d' (s +:+ String c ""))))
    with (String d (Str.drop_last (String d' (s +:+ String c "")))).
  by rewrite IH.
Qed.

Lemma quiet_wrapped op (s : string) d :
  quiet op s (d + 1) = Some (d + 1)%Z ->
  quiet op ("(" +:+ s +:+ ")") d = Some d.
Proof.
  intros Hq. change ("(" +:+ s +:+ ")") with (String "(" (s +:+ ")")).
  cbn [quiet]. cbn [Ascii.eqb Bool.eqb]. rewrite quiet_app, Hq.
  cbn [mbind option_bind quiet]. cbn [Ascii.eqb Bool.eqb]. f_equal. lia.
Qed.

Lemma tight_wrapped (s : string) : tight ("(" +:+ s +:+ ")").
Proof. by apply tight_wrap. Qed.

(** A string in parentheses parses as the string. *)
Lemma parse_wrapped n (s : string) :
  quiet "-" s 1 = Some 1%Z -> quiet "|" s 1 = Some 1%Z ->
  parse_circuit (S n) ("(" +:+ s +:+ ")") = parse_circuit n s.
Proof.
  intros Hs Hp. simpl. unfold parse_circuit_body.
  rewrite (tight_strip _ (tight_wrapped s)).
  change ("(" +:+ s +:+ ")") with (String "(" (s +:+ ")")).
  cbn [Str.contains]. cbn [Ascii.eqb Bool.eqb orb].
  unfold _parse_with_parentheses.
  pose proof (scan_series_pos (String "(" (s +:+ ")")) 0 0 (-1) (-1) ltac:(lia)) as Es.
  pose proof (scan_parallel_pos (String "(" (s +:+ ")")) 0 0 (-1) (-1) ltac:(lia)) as Ep.
  destruct (scan_operators _ 0 0 (-1) (-1)) as [pp sp]. cbn [fst snd] in Es, Ep.
  rewrite (top_level_quiet "-" _ 0 0) in Es by (by apply (quiet_wrapped "-" s 0)).
  rewrite (top_level_quiet "|" _ 0 0) in Ep by (by apply (quiet_wrapped "|" s 0)).
  cbn in Es, Ep. rewrite Es, Ep. cbn [negb].
  cbn [Str.startswith]. cbn [Ascii.eqb Bool.eqb andb].
  assert (Str.endswith ")" (String "(" (s +:+ ")")) = true) as ->.
  { pose proof (endswith_snoc ")" (String "(" s)) as H. by rewrite append_cons in H. }
  cbn [Str.inner]. by rewrite drop_last_snoc.
Qed.

(** With parentheses, no "-" at depth 0 and a "|" at depth 0 decide. *)
Lemma parse_body_parallel_deep (rec : string -> result CircuitNode) s :
  top_level "-" (Str.strip s) 0 = false ->
  top_level "|" (Str.strip s) 0 = true ->
  (Str.contains "-" (Str.strip s) = true -> Str.contains "(" (Str.strip s) = true) ->
  parse_circuit_body rec s
  = (children ← traverse rec (_split_by_operator (Str.strip s) "|");
     Ok (ParallelNode children)).
Proof.
  intros Hno Htop Hdash. unfold parse_circuit_body.
  destruct (Str.contains "(" (Str.strip s)).
  - unfold _parse_with_parentheses.
    pose proof (scan_series_pos (Str.strip s) 0 0 (-1) (-1) ltac:(lia)) as Hs.
    pose proof (scan_parallel_pos (Str.strip s) 0 0 (-1) (-1) ltac:(lia)) as Hp.
    destruct (scan_operators (Str.strip s) 0 0 (-1) (-1)) as [pp sp].
    cbn [fst snd] in Hs, Hp. rewrite Hno in Hs. rewrite Htop in Hp.
    cbn in Hs, Hp. by rewrite Hs, Hp.
  - destruct (Str.contains "-" (Str.strip s)); [by discriminate Hdash|].
    by rewrite (top_level_contains _ _ _ Htop).
Qed.

Lemma traverse_map_ok {A B : Type} (g : A -> result B) (f : B -> A) (l : list B) :
  (forall x, x ∈ l -> g (f x) = Ok x) -> traverse g (map f l) = Ok l.
Proof.
  induction l as [|x l IH]; intros Hg; [done|]. simpl.
  rewrite (Hg x (list_elem_of_here _ _)). simpl.
  rewrite IH; [done|]. intros y Hy. by apply Hg, list_elem_of_further.
Qed.

(** Children that parse, each with some bound on the recursion, parse
    with one bound. *)
Lemma parse_children (f : CircuitNode -> string) (l : list CircuitNode) :
  Forall (fun c => exists n, parse_circuit n (f c) = Ok c) l ->
  exists N, traverse (parse_circuit N) (map f l) = Ok l.
Proof.
  intros Hall.
  assert (exists N, forall c, c ∈ l -> parse_circuit N (f c) = Ok c) as [N HN].
  { induction Hall as [|c l [n Hn] _ [N HN]]; [by exists 0; intros c Hc; apply elem_of_nil in Hc|].
    exists (n `max` N). intros c' Hc'. apply elem_of_cons in Hc' as [->|Hc'].
    - apply (parse_circuit_stable n); [done|done|lia].
    - apply (parse_circuit_stable N); [by apply HN|done|lia]. }
  exists N. by apply traverse_map_ok.
Qed.

Lemma contains_concat_imp (a b c : ascii) (l : list string) :
  Ascii.eqb c a = false ->
  Forall (fun x => Str.contains a x = true -> Str.contains b x = true) l ->
  Str.contains a (String.concat (String c "") l) = true ->
  Str.contains b (String.concat (String c "") l) = true.
Proof.
  intros Hca. induction l as [|x l IH]; [done|]. intros Hall.
  apply Forall_cons in Hall as [Hx Hl]. destruct l as [|y l]; [done|].
  rewrite !concat_cons2, !contains_app. cbn [Str.contains].
  rewrite Hca. cbn [orb]. rewrite !orb_true_iff.
  intros [Ha|Ha]; [left; by apply Hx|right; right; by apply IH].
Qed.

(** What [ParallelNode.__str__] prints for a child has the properties of
    an operand of "|". *)
Lemma printed_child (t : CircuitNode) :
  printed_well t ->
  (forall op d, is_op op -> (0 < d)%Z -> quiet op (child_str t) d = Some d)
  /\ (is_parallel t = false ->
      tight (child_str t)
      /\ quiet "|" (child_str t) 0 = Some 0%Z
      /\ quiet "-" (child_str t) 0 = Some 0%Z
      /\ (Str.contains "-" (child_str t) = true ->
          Str.contains "(" (child_str t) = true)
      /\ exists n, parse_circuit n (child_str t) = Ok t).
Proof.
  intros (Ht & Hdeep & Hser & Helem & [n Hn]). unfold child_str.
  destruct (is_series t) eqn:Es.
  - split.
    + intros op d Hop Hd. apply quiet_wrapped, Hdeep; [done|lia].
    + intros _. split; [apply tight_wrapped|].
      split; [apply quiet_wrapped, Hdeep; [by right|lia]|].
      split; [apply quiet_wrapped, Hdeep; [by left|lia]|].
      split; [done|]. exists (S n).
      rewrite parse_wrapped; [done|apply Hdeep; [by left|lia]|apply Hdeep; [by right|lia]].
  - split; [done|]. intros Hp. destruct (Helem eq_refl Hp) as [Hbar Hdash].
    split; [done|]. split; [done|]. split; [by apply Hser|].
    split; [by rewrite Hdash|]. by exists n.
Qed.

Lemma canonical_children (p : CircuitNode -> bool) (children : list CircuitNode) :
  forallb (fun c => negb (p c) && canonical c) children = true ->
  Forall (fun c => canonical c = true -> printed_well c) children ->
  Forall (fun c => p c = false /\ printed_well c) children.
Proof.
  intros Hc Hall. induction Hall as [|c l Hw _ IH]; [constructor|].
  cbn [forallb] in Hc. apply andb_true_iff in Hc as [Hc Hl].
  apply andb_true_iff in Hc as [Hp Hcan]. apply negb_true_iff in Hp.
  constructor; [by split; [|apply Hw]|by apply IH].
Qed.

Lemma map_nonempty {A B} (f : A -> B) (l : list A) :
  (2 <= length l)%nat -> map f l <> [].
Proof. destruct l; [simpl; lia|done]. Qed.

Lemma printed_well_series (children : list CircuitNode) :
  (2 <= length children)%nat ->
  Forall (fun c => is_series c = false /\ printed_well c) children ->
  printed_well (SeriesNode children).
Proof.
  intros Hlen Hall. unfold printed_well. cbn [node_str is_series].
  assert (Forall tight (map node_str children)) as Htight.
  { apply Forall_map. eapply Forall_impl; [exact Hall|]. by intros c (_ & ? & _). }
  assert (tight (String.concat "-" (map node_str children))) as Ht.
  { apply tight_concat; [by apply map_nonempty|done]. }
  split; [done|]. split; [|split; [done|split; [done|]]].
  - intros op d Hop Hd. apply quiet_concat; try done.
    + rewrite (proj2 (Z.eqb_neq d 0)) by lia. apply andb_false_r.
    + apply Forall_map. eapply Forall_impl; [exact Hall|].
      intros c (_ & _ & Hdeep & _). cbn beta. by apply Hdeep.
  - destruct (parse_children node_str children) as [N HN].
    { eapply Forall_impl; [exact Hall|]. by intros c (_ & _ & _ & _ & _ & ?). }
    exists (S N). simpl. rewrite parse_body_series; rewrite (tight_strip _ Ht).
    + unfold _split_by_operator. rewrite split_concat; try done.
      * cbn [app]. by rewrite HN.
      * by apply map_nonempty.
      * apply Forall_map. eapply Forall_impl; [exact Hall|].
        intros c (Hs & Htc & _ & Hq & _). cbn beta. split; [by apply Hq|done].
    + destruct children as [|x [|y l]]; [simpl in Hlen; lia..|].
      apply Forall_cons in Hall as [(Hs & _ & _ & Hq & _) _].
      apply (top_level_concat "-"); try done. by apply Hq.
Qed.

Lemma printed_well_parallel (children : list CircuitNode) :
  (2 <= length children)%nat ->
  Forall (fun c => is_parallel c = false /\ printed_well c) children ->
  printed_well (ParallelNode children).
Proof.
  intros Hlen Hall. unfold printed_well. cbn [node_str is_series is_parallel].
  change (map (fun child => if is_series child then "(" +:+ node_str child +:+ ")"
                            else node_str child) children)
    with (map child_str children).
  assert (Forall (fun c =>
            (forall op d, is_op op -> (0 < d)%Z -> quiet op (child_str c) d = Some d)
            /\ tight (child_str c)
            /\ quiet "|" (child_str c) 0 = Some 0%Z
            /\ quiet "-" (child_str c) 0 = Some 0%Z
            /\ (Str.contains "-" (child_str c) = true ->
                Str.contains "(" (child_str c) = true)
            /\ exists n, parse_circuit n (child_str c) = Ok c) children) as Hch.
  { eapply Forall_impl; [exact Hall|]. intros c [Hp Hw].
    destruct (printed_child c Hw) as [Hdeep Hrest].
    destruct (Hrest Hp) as (? & ? & ? & ? & ?). done. }
  clear Hall.
  assert (tight (String.concat "|" (map child_str children))) as Ht.
  { apply tight_concat; [by apply map_nonempty|].
    apply Forall_map. eapply Forall_impl; [exact Hch|]. by intros c (_ & ? & _). }
  assert (quiet "-" (String.concat "|" (map child_str children)) 0 = Some 0%Z) as Hdash.
  { apply quiet_concat; try done. apply Forall_map.
    eapply Forall_impl; [exact Hch|]. by intros c (_ & _ & _ & ? & _). }
  split; [done|]. split; [|split; [done|split; [done|]]].
  - intros op d Hop Hd. apply quiet_concat; try done.
    + rewrite (proj2 (Z.eqb_neq d 0)) by lia. apply andb_false_r.
    + apply Forall_map. eapply Forall_impl; [exact Hch|].
      intros c (Hdeep & _). cbn beta. by apply Hdeep.
  - destruct (parse_children child_str children) as [N HN].
    { eapply Forall_impl; [exact Hch|]. by intros c (_ & _ & _ & _ & _ & ?). }
    exists (S N). simpl.
    rewrite parse_body_parallel_deep; rewrite (tight_strip _ Ht).
    + unfold _split_by_operator. rewrite split_concat; try done.
      * cbn [app]. by rewrite HN.
      * by apply map_nonempty.
      * apply Forall_map. eapply Forall_impl; [exact Hch|].
        by intros c (_ & ? & ? & _).
    + by apply (top_level_quiet "-" _ 0 0).
    + destruct children as [|x [|y l]]; [simpl in Hlen; lia..|].
      apply Forall_cons in Hch as [(_ & _ & Hq & _) _].
      by apply (top_level_concat "|").
    + apply (contains_concat_imp "-" "(" "|"); [done|].
      apply Forall_map. eapply Forall_impl; [exact Hch|].
      by intros c (_ & _ & _ & _ & ? & _).
Qed.

Lemma canonical_printed_well (t : CircuitNode) :
  canonical t = true -> printed_well t.
Proof.
  induction t as [e|children IH|children IH] using CircuitNode_induction.
  - apply printed_well_element.
  - cbn [canonical]. rewrite andb_true_iff. intros [Hlen Hc].
    apply Nat.leb_le in Hlen. apply printed_well_series; [done|].
    by apply canonical_children.
  - cbn [canonical]. rewrite andb_true_iff. intros [Hlen Hc].
    apply Nat.leb_le in Hlen. apply printed_well_parallel; [done|].
    by apply canonical_children.
Qed.

(** X3: a tree in canonical form is parsed back from its string, with
    every recursion limit from some limit on. *)
Theorem parse_node_str (t : CircuitNode) :
  canonical t = true ->
  exists n, forall m, (n <= m)%nat -> parse_circuit m (node_str t) = Ok t.
Proof.
  intros Hc. destruct (canonical_printed_well t Hc) as (_ & _ & _ & _ & [n Hn]).
  exists n. intros m Hm. by apply (parse_circuit_stable n).
Qed.

Lemma parse_node_str_witness :
  exists n, forall m, (n <= m)%nat ->
    parse_circuit m "R1-C1|(R2-W1)|Q1"
    = Ok (SeriesNode
            [ ElementNode (mkElement Resistor (Some "1"));
              ParallelNode
                [ ElementNode (mkElement Capacitor (Some "1"));
                  SeriesNode
                    [ ElementNode (mkElement Resistor (Some "2"));
                      ElementNode (mkElement Warburg (Some "1")) ];
                  ElementNode (mkElement CPE (Some "1")) ] ]).
Proof.
  apply (parse_node_str
           (SeriesNode
              [ ElementNode (mkElement Resistor (Some "1"));
                ParallelNode
                  [ ElementNode (mkElement Capacitor (Some "1"));
                    SeriesNode
                      [ ElementNode (mkElement Resistor (Some "2"));
                        ElementNode (mkElement Warburg (Some "1")) ];
                    ElementNode (mkElement CPE (Some "1")) ] ])).
  reflexivity.
Defined.

End PrintedTrees.

(** ** The evaluator *)

Section EvaluatorFacts.

Local Open Scope R_scope.
Local Open Scope list_scope.

Lemma sum_from_err (terms : list (result C)) (e : exn) :
  fold_left (fun acc t => a ← acc; z ← t; Ok (Cx.add a z)) terms (Err e) = Err e.
Proof. induction terms as [|t terms IH]; [done|]. exact IH. Qed.

Lemma sum_not_ok (terms : list (result C)) : forall acc,
  Exists (fun t => is_ok t = false) terms ->
  is_ok (fold_left (fun acc t => a ← acc; z ← t; Ok (Cx.add a z)) terms acc) = false.
Proof.
  induction terms as [|t terms IH]; intros acc Hex.
  - by apply Exists_nil in Hex.
  - apply Exists_cons in Hex as [Ht|Hex]; [|by apply IH].
    destruct t as [z|e]; [done|]. cbn [fold_left].
    destruct acc as [a|e']; cbn [mbind result_bind]; by rewrite sum_from_err.
Qed.

Lemma add_zero_l (z : C) : Cx.add Cx.zero z = z.
Proof. destruct z as [a b]. unfold Cx.add, Cx.zero. simpl. f_equal; lra. Qed.

Lemma add_zero_r (z : C) : Cx.add z Cx.zero = z.
Proof. destruct z as [a b]. unfold Cx.add, Cx.zero. simpl. f_equal; lra. Qed.

Lemma add_assoc (x y z : C) : Cx.add (Cx.add x y) z = Cx.add x (Cx.add y z).
Proof. unfold Cx.add. simpl. f_equal; lra. Qed.

(** A sum that starts from [a + z] is [a] plus the sum that starts from
    [z]. *)
Lemma sum_shift (terms : list (result C)) : forall a z,
  fold_left (fun acc t => a ← acc; z ← t; Ok (Cx.add a z)) terms (Ok (Cx.add a z))
  = (s ← fold_left (fun acc t => a ← acc; z ← t; Ok (Cx.add a z)) terms (Ok z); Ok (Cx.add a s)).
Proof.
  induction terms as [|t terms IH]; intros a z; [done|].
  destruct t as [w|e]; cbn [fold_left mbind result_bind].
  - by rewrite add_assoc, IH.
  - by rewrite sum_from_err.
Qed.

Lemma sum_app (xs ys : list (result C)) :
  sum_results (xs ++ ys) = fold_left (fun acc t => a ← acc; z ← t; Ok (Cx.add a z)) ys (sum_results xs).
Proof. unfold sum_results. by rewrite fold_left_app. Qed.

Lemma sum_inner (acc : result C) (inner rest : list (result C)) :
  fold_left (fun acc t => a ← acc; z ← t; Ok (Cx.add a z)) (sum_results inner :: rest) acc
  = fold_left (fun acc t => a ← acc; z ← t; Ok (Cx.add a z)) (inner ++ rest) acc.
Proof.
  rewrite fold_left_app. cbn [fold_left]. f_equal.
  destruct acc as [a|e]; cbn [mbind result_bind].
  - pose proof (sum_shift inner a Cx.zero) as Hs. rewrite add_zero_r in Hs.
    by rewrite Hs.
  - by rewrite sum_from_err.
Qed.

Lemma child_with_key (k : string) (children : list CircuitNode) :
  k ∈ flat_map node_keys children ->
  Exists (fun c => k ∈ node_keys c) children.
Proof.
  induction children as [|c children IH]; simpl.
  - intros H. by apply elem_of_nil in H.
  - rewrite elem_of_app. intros [H|H]; [by left|right; by apply IH].
Qed.

Lemma children_agree (P : CircuitNode -> Prop) (children : list CircuitNode)
    (p q : gmap string pval) :
  (forall k, k ∈ flat_map node_keys children -> p !! k = q !! k) ->
  Forall (fun c => (forall k, k ∈ node_keys c -> p !! k = q !! k) -> P c) children ->
  Forall P children.
Proof.
  intros Hk Hall. induction Hall as [|c l Hc _ IH]; [constructor|].
  constructor.
  - apply Hc. intros k Hin. apply Hk. simpl. apply elem_of_app. by left.
  - apply IH. intros k Hin. apply Hk. simpl. apply elem_of_app. by right.
Qed.

Lemma map_agree {A B} (g g' : A -> B) (l : list A) :
  Forall (fun c => g c = g' c) l -> map g l = map g' l.
Proof. induction 1 as [|c l Hc _ IH]; [done|]. simpl. by rewrite Hc, IH. Qed.

(** X4: the impedance of a tree depends on the mapping only through the
    keys of the tree's elements. *)
Theorem impedance_frame (t : CircuitNode) (f : R) (p q : gmap string pval) :
  (forall k, k ∈ node_keys t -> p !! k = q !! k) ->
  impedance t f p = impedance t f q.
Proof.
  induction t as [e|children IH|children IH] using CircuitNode_induction;
    intros Hk.
  - cbn [impedance]. rewrite (Hk (element_str e)); [done|]. simpl. by left.
  - cbn [impedance]. f_equal. apply map_agree.
    by apply (children_agree _ children p q).
  - cbn [impedance]. do 2 f_equal.
    apply (map_agree (fun c => z ← impedance c f p; Cx.div Cx.one z)
                     (fun c => z ← impedance c f q; Cx.div Cx.one z)).
    eapply Forall_impl; [by apply (children_agree _ children p q Hk IH)|].
    intros c Hc. cbn beta in *. by rewrite Hc.
Qed.

Lemma impedance_frame_witness :
  impedance (SeriesNode [ ElementNode (mkElement Resistor (Some "1"));
                          ElementNode (mkElement Capacitor (Some "1")) ])
    50 (<["R1" := Scalar 100]> (<["C1" := Scalar 1]> (<["L9" := Scalar 2]> ∅)))
  = impedance (SeriesNode [ ElementNode (mkElement Resistor (Some "1"));
                            ElementNode (mkElement Capacitor (Some "1")) ])
      50 (<["R1" := Scalar 100]> (<["C1" := Scalar 1]> ∅)).
Proof.
  apply impedance_frame. intros k Hk. cbn in Hk.
  apply elem_of_cons in Hk as [-> | Hk]; [reflexivity|].
  apply elem_of_cons in Hk as [-> | Hk]; [reflexivity|].
  by apply elem_of_nil in Hk.
Defined.

(** X5: a tree with an element whose key the mapping does not bind has
    no impedance: the evaluation raises. *)
Theorem impedance_missing_key (t : CircuitNode) (f : R) (p : gmap string pval)
    (k : string) :
  k ∈ node_keys t -> p !! k = None -> is_ok (impedance t f p) = false.
Proof.
  intros Hin Hk. revert Hin.
  induction t as [e|children IH|children IH] using CircuitNode_induction;
    intros Hin.
  - cbn in Hin. apply elem_of_cons in Hin as [-> | Hin];
      [|by apply elem_of_nil in Hin].
    cbn [impedance]. by rewrite Hk.
  - cbn [impedance]. apply sum_not_ok. apply child_with_key in Hin.
    apply Exists_exists in Hin as (c & Hc & Hkc). apply Exists_exists.
    exists (impedance c f p). split.
    + apply list_elem_of_In, in_map_iff. exists c. split; [done|].
      by apply list_elem_of_In.
    + rewrite Forall_forall in IH. by apply IH.
  - cbn [impedance]. apply child_with_key in Hin.
    apply Exists_exists in Hin as (c & Hc & Hkc).
    assert (is_ok (sum_results
                     (map (fun child => z ← impedance child f p; Cx.div Cx.one z)
                          children)) = false) as Hsum.
    { apply sum_not_ok. apply Exists_exists.
      exists (z ← impedance c f p; Cx.div Cx.one z). split.
      - apply list_elem_of_In, in_map_iff. exists c. split; [done|].
        by apply list_elem_of_In.
      - rewrite Forall_forall in IH. specialize (IH c Hc Hkc).
        by destruct (impedance c f p). }
    by destruct (sum_results _).
Qed.

Lemma impedance_missing_key_witness :
  is_ok (impedance
           (ParallelNode [ ElementNode (mkElement Resistor (Some "1"));
                           ElementNode (mkElement Capacitor (Some "1")) ])
           50 (<["R1" := Scalar 100]> ∅)) = false.
Proof.
  apply (impedance_missing_key _ _ _ "C1"); [|reflexivity].
  cbn. apply list_elem_of_further, list_elem_of_here.
Defined.

(** X6: a Series node with one child, as the parser builds it from
    "R1-", has the impedance of the child, and raises what the child
    raises. *)
Theorem series_of_one (c : CircuitNode) (f : R) (p : gmap string pval) :
  impedance (SeriesNode [c]) f p = impedance c f p.
Proof.
  cbn [impedance map]. unfold sum_results. cbn [fold_left mbind result_bind].
  destruct (impedance c f p) as [z|e]; cbn [mbind result_bind]; [|done].
  by rewrite add_zero_l.
Qed.

(** X7: over the exact complex numbers a Series node directly under a
    Series node can be dissolved into its parent: the impedance, or the
    exception raised, is the same. *)
Theorem series_nested (before inner after : list CircuitNode) (f : R)
    (p : gmap string pval) :
  impedance (SeriesNode (before ++ SeriesNode inner :: after)) f p
  = impedance (SeriesNode (before ++ inner ++ after)) f p.
Proof.
  cbn [impedance]. rewrite !map_app. cbn [map]. rewrite !sum_app.
  cbn [impedance]. rewrite sum_inner. by rewrite fold_left_app.
Qed.

(** X8: at a positive frequency the Warburg element with coefficient Aw
    has the impedance Aw / sqrt(omega) - j Aw / sqrt(omega): real and
    imaginary part are opposite. *)
Theorem Warburg_impedance_value (f Aw : R) :
  0 < f ->
  Elements.Warburg_impedance f (Scalar Aw)
  = Ok (Aw / sqrt (Elements.omega f), - (Aw / sqrt (Elements.omega f))).
Proof.
  intros Hf.
  assert (0 < sqrt (Elements.omega f)) as Hs.
  { apply sqrt_lt_R0. unfold Elements.omega. pose proof PI_RGT_0. nra. }
  unfold Elements.Warburg_impedance.
  cbn [Elements.scalar mbind result_bind]. unfold Cx.rdiv.
  destruct (Req_dec_T (sqrt (Elements.omega f)) 0) as [E|_]; [lra|].
  cbn [mbind result_bind]. unfold Cx.div.
  replace (Cx.is_zero (Cx.scale (sqrt (Elements.omega f)) Cx.j)) with false
    by (symmetry; apply is_zero_false; right; simpl; lra).
  cbn [mbind result_bind].
  unfold Cx.add, Cx.of_real, Cx.scale, Cx.norm2, Cx.j. cbn [fst snd].
  f_equal. f_equal; field; lra.
Qed.

Lemma Warburg_impedance_value_witness :
  Elements.Warburg_impedance 50 (Scalar 500)
  = Ok (500 / sqrt (Elements.omega 50), - (500 / sqrt (Elements.omega 50))).
Proof. apply Warburg_impedance_value. lra. Defined.

(** X9: at a positive frequency a CPE node bound to (c, 1) has the
    impedance of a capacitor node bound to c. *)
Theorem CPE_node_is_capacitor (f c : R) (q k : CircuitElement)
    (p : gmap string pval) :
  0 < f ->
  kind q = CPE -> kind k = Capacitor ->
  p !! element_str q = Some (Tuple [c; 1]) ->
  p !! element_str k = Some (Scalar c) ->
  impedance (ElementNode q) f p = impedance (ElementNode k) f p.
Proof.
  intros Hf Kq Kk Hq Hk. cbn [impedance]. rewrite Hq, Hk, Kq, Kk.
  cbn [Elements.impedance]. by apply CPE_exponent_one.
Qed.

Lemma CPE_node_is_capacitor_witness :
  impedance (ElementNode (mkElement CPE (Some "1"))) 50
    (<["Q1" := Tuple [2; 1]]> (<["C1" := Scalar 2]> ∅))
  = impedance (ElementNode (mkElement Capacitor (Some "1"))) 50
      (<["Q1" := Tuple [2; 1]]> (<["C1" := Scalar 2]> ∅)).
Proof.
  apply (CPE_node_is_capacitor 50 2); try reflexivity. lra.
Defined.

End EvaluatorFacts.

(** ** The codec and the selector *)

Section BoundsFacts.

Local Open Scope list_scope.

Lemma replicate_feasible (n : nat) (eps : R) :
  Forall2 ext_lt (replicate n (Fin eps)) (replicate n PosInf).
Proof. induction n as [|n IH]; [constructor|]. by constructor. Qed.

Lemma blocks_feasible (eps : R) (its : list (string * pval)) :
  (eps < 1)%R ->
  Forall2 ext_lt (its ≫= fun kv => lower_block eps kv.1 kv.2)
                 (its ≫= fun kv => upper_block kv.1 kv.2).
Proof.
  intros Heps. induction its as [|[k v] its IH]; [constructor|].
  cbn [mbind list_bind fst snd]. apply Forall2_app; [|exact IH].
  destruct v as [x|xs]; cbn [lower_block upper_block].
  - by repeat constructor.
  - destruct (Str.startswith "Q" k); [by repeat constructor|].
    apply replicate_feasible.
Qed.

Lemma default_eps_small : (default_eps < 1)%R.
Proof.
  unfold default_eps. apply Rmult_lt_reg_r with (r := (10 ^ 12)%R).
  - apply pow_lt. lra.
  - unfold Rdiv. rewrite Rmult_assoc, Rinv_l by (apply Rgt_not_eq, pow_lt; lra).
    simpl. lra.
Qed.

(** X10: with eps below 1, as the default is, every lower bound that the
    first loop of [fit] hands to [curve_fit] is strictly below the upper
    bound at its position, and there are as many of the one as of the
    other. *)
Theorem flatten_bounds_feasible (eps : R) (params : gmap string pval) (fl : flat) :
  (eps < 1)%R ->
  flatten eps params = Ok fl ->
  Forall2 ext_lt (lower_bounds fl) (upper_bounds fl).
Proof.
  intros Heps. rewrite flatten_closed. intros [= <-].
  cbn [lower_bounds upper_bounds]. by apply blocks_feasible.
Qed.

Lemma flatten_bounds_feasible_witness :
  exists fl, flatten default_eps params_Q1_R1 = Ok fl
             /\ Forall2 ext_lt (lower_bounds fl) (upper_bounds fl).
Proof.
  rewrite flatten_closed. eexists. split; [reflexivity|].
  apply (flatten_bounds_feasible default_eps params_Q1_R1).
  - exact default_eps_small.
  - apply flatten_closed.
Defined.

End BoundsFacts.

Section FitFacts.

Local Open Scope list_scope.

Variable curve_fit :
  (list R -> list R -> result (list R)) -> list R -> list R -> list R ->
  list ext * list ext -> result (list R).

(** [fit] assigns to the mapping it was given only. *)
Lemma fit_frame self freq Z_exp (params : loc) eps (h : store) (l : loc) :
  l <> params -> (fit curve_fit self freq Z_exp params eps h).2 l = h l.
Proof.
  intros Hl. unfold fit. destruct (flatten eps (h params)) as [fl|e]; [|done].
  cbv zeta. destruct (curve_fit _ _ _ _ _) as [popt|e]; [|done].
  cbn [mbind result_bind].
  destruct (model_wrapper _ _ _ popt) as [Zfit|e]; [|done].
  cbn [mbind result_bind].
  destruct (np_sub _ Zfit) as [residuals|e]; [|done].
  cbn [mbind result_bind].
  destruct (reconstruct _ popt 0 (h params)) as [d [[]|e]]; cbn [snd];
    unfold store_update; by destruct (decide (l = params)).
Qed.

Section Selector.

Variable recursion_limit : nat.
Variable recursion_text : string.
Variable freq : list R.
Variable Z_exp : list C.

Lemma select_step_frame (s : selection) (h : store) (model : string)
    (params l : loc) :
  l <> params ->
  (select_step curve_fit recursion_limit recursion_text freq Z_exp (s, h) (model, params)).2 l
  = h l.
Proof.
  intros Hl. unfold select_step, attempt.
  destruct (parse_circuit recursion_limit model) as [circuit|e]; [|done].
  pose proof (fit_frame circuit freq Z_exp params default_eps h l Hl) as Hf.
  destruct (fit curve_fit circuit freq Z_exp params default_eps h)
    as [[[fitted r]|e] h'].
  - cbn [snd] in Hf. by destruct (gt r (best_r_squared s)).
  - done.
Qed.

Lemma select_loop_frame (models : list (string * loc)) (l : loc) :
  forall s h,
    l ∉ models.*2 ->
    (select_loop curve_fit recursion_limit recursion_text freq Z_exp models
       (s, h)).2 l = h l.
Proof.
  induction models as [|[model params] models IH]; intros s h Hl; [done|].
  cbn [fmap list_fmap snd] in Hl. apply not_elem_of_cons in Hl as [Hne Hl].
  unfold select_loop. cbn [fold_left].
  pose proof (select_step_frame s h model params l Hne) as Hstep.
  destruct (select_step _ _ _ _ _ (s, h) (model, params)) as [s' h1].
  cbn [snd] in Hstep. rewrite <- Hstep. by apply IH.
Qed.

(** X12: [best_model] changes the mappings of its candidates only: a
    mapping that no candidate carries is after the call what it was
    before. *)
Theorem best_model_frame (models : list (string * loc)) (h : store) (l : loc) :
  l ∉ models.*2 ->
  (best_model curve_fit recursion_limit recursion_text freq Z_exp models h).2 l = h l.
Proof.
  intros Hl. unfold best_model.
  pose proof (select_loop_frame models l selection_init h Hl) as Hloop.
  by destruct (select_loop _ _ _ _ _ models (selection_init, h)) as [s h'].
Qed.

End Selector.

(** [curve_fit] returns one optimal value for each value of [p0]. *)
Hypothesis curve_fit_length : forall f xdata ydata p0 bounds popt,
  curve_fit f xdata ydata p0 bounds = Ok popt -> length popt = length p0.

(** X11: a call of [fit] that raises has not touched the mapping it was
    given, nor any other. *)
Theorem fit_failure_keeps_store self freq Z_exp (params : loc) eps (h : store)
    (e : exn) (h' : store) :
  fit curve_fit self freq Z_exp params eps h = (Err e, h') -> h' = h.
Proof.
  unfold fit. rewrite flatten_closed. cbn [structure p0 lower_bounds upper_bounds].
  destruct (curve_fit _ _ _ _ _) as [popt|e1] eqn:Hcf; [|by intros [= _ <-]].
  cbn [mbind result_bind].
  destruct (model_wrapper _ _ _ popt) as [Zfit|e1]; [|by intros [= _ <-]].
  cbn [mbind result_bind].
  destruct (np_sub _ Zfit) as [residuals|e1]; [|by intros [= _ <-]].
  cbn [mbind result_bind].
  apply curve_fit_length in Hcf.
  rewrite reconstruct_chunks by (rewrite Hcf, length_values; lia).
  intros [=].
Qed.

End FitFacts.

Section FitFactsExamples.

Local Open Scope R_scope.

(** The circuit C1 fitted with a mapping that binds R1 only. *)
Lemma fit_failure_keeps_store_witness :
  exists e,
    fit curve_fit_p0 (ElementNode (mkElement Capacitor (Some "1")))
        [1] [(100, 0)] 0%nat default_eps (store_R1 (Scalar 50))
    = (Err e, store_R1 (Scalar 50)).
Proof.
  destruct (fit curve_fit_p0 _ _ _ _ _ _) as [[res|e] h'] eqn:Hfit.
  - vm_compute in Hfit. discriminate Hfit.
  - exists e. f_equal.
    exact (fit_failure_keeps_store curve_fit_p0 curve_fit_p0_length
             _ _ _ _ _ _ _ _ Hfit).
Defined.

Lemma best_model_frame_witness :
  (best_model curve_fit_p0 1000 "maximum recursion depth exceeded" [1] [(100, 0)]
     [("R1", 0%nat); ("X9", 1%nat)] (store_R1 (Scalar 50))).2 2%nat
  = store_R1 (Scalar 50) 2%nat.
Proof.
  apply best_model_frame. cbn.
  intros H. apply elem_of_cons in H as [H|H]; [discriminate H|].
  apply elem_of_cons in H as [H|H]; [discriminate H|].
  by apply elem_of_nil in H.
Defined.

End FitFactsExamples.

(** ** The parameters of the web interface *)

Section SuffixFacts.

Lemma str_endswith_app (suffix k : string) :
  str_endswith suffix (k +:+ suffix) = true.
Proof.
  induction k as [|c k IH].
  - cbv [String.append].
    destruct suffix as [|a suffix]; cbn [str_endswith]; by rewrite String.eqb_refl.
  - rewrite append_cons. cbn [str_endswith]. rewrite IH. apply orb_true_r.
Qed.

Lemma drop_last_two (a b : ascii) (s : string) :
  Str.drop_last (Str.drop_last (s +:+ String a (String b ""))) = s.
Proof.
  change (String a (String b "")) with (String a "" +:+ String b "").
  by rewrite <- append_assoc, !drop_last_snoc.
Qed.

Lemma companion_is_companion (k : string) : is_companion (companion k) = true.
Proof.
  unfold is_companion, companion. destruct (Str.startswith "Q" k).
  - by rewrite str_endswith_app.
  - rewrite (str_endswith_app "_B"). apply orb_true_r.
Qed.

Lemma companion_inj (k k' : string) :
  k <> "" -> k' <> "" -> companion k = companion k' -> k = k'.
Proof.
  intros Hk Hk'. unfold companion.
  destruct k as [|c k]; [done|]. destruct k' as [|c' k']; [done|].
  cbn [Str.startswith].
  destruct (Ascii.eqb c "Q") eqn:Ec; destruct (Ascii.eqb c' "Q") eqn:Ec'.
  - intros E. apply (f_equal (fun s => Str.drop_last (Str.drop_last s))) in E.
    by rewrite !drop_last_two in E.
  - rewrite !append_cons. intros [= -> _]. congruence.
  - rewrite !append_cons. intros [= -> _]. congruence.
  - intros E. apply (f_equal (fun s => Str.drop_last (Str.drop_last s))) in E.
    by rewrite !drop_last_two in E.
Qed.

Lemma companion_other (k k' : string) : is_companion k' = false -> companion k <> k'.
Proof. intros Hk' <-. by rewrite companion_is_companion in Hk'. Qed.

End SuffixFacts.

Section WebFormat.

Local Open Scope list_scope.

(** One round of [internal_to_web_params] on a well-formed binding: it
    does not raise, stores the numbers of the binding, and assigns to the
    key and its companion only. *)
Lemma internal_to_web_step_ok (w : gmap string R) (k : string) (v : pval) :
  internal_binding (k, v) ->
  exists w',
    internal_to_web_step w (k, v) = Ok w'
    /\ web_holds w' (k, v)
    /\ forall k', k' <> k -> k' <> companion k -> w' !! k' = w !! k'.
Proof.
  intros (Hne & Hc & Hshape). cbn [fst snd] in *.
  assert (companion k <> k) as Hck by by apply companion_other.
  destruct k as [|c k1]; [done|]. unfold pair_key in Hshape.
  unfold web_holds, companion in *. cbn [Str.startswith fst snd] in *.
  unfold internal_to_web_step.
  destruct (Ascii.eqb c "Q") eqn:EQ; cbn [orb] in Hshape.
  - destruct Hshape as (a & b & ->).
    cbn [first_char mbind result_bind]. rewrite EQ.
    cbn [tuple_item lookup list_lookup mbind result_bind].
    eexists. split; [reflexivity|]. split; [split|].
    + by rewrite lookup_insert_eq.
    + rewrite lookup_insert_ne by done. by rewrite lookup_insert_eq.
    + intros k' H1 H2. by rewrite !lookup_insert_ne by done.
  - destruct (Ascii.eqb c "S" || Ascii.eqb c "O") eqn:ES.
    + destruct Hshape as (a & b & ->).
      cbn [first_char mbind result_bind]. rewrite EQ, ES.
      cbn [tuple_item lookup list_lookup mbind result_bind].
      eexists. split; [reflexivity|]. split; [split|].
      * by rewrite lookup_insert_eq.
      * rewrite lookup_insert_ne by done. by rewrite lookup_insert_eq.
      * intros k' H1 H2. by rewrite !lookup_insert_ne by done.
    + destruct Hshape as (x & ->).
      eexists. split; [reflexivity|]. split.
      * by rewrite lookup_insert_eq.
      * intros k' H1 H2. by rewrite lookup_insert_ne by done.
Qed.

Lemma internal_to_web_loop_snoc (items : list (string * pval))
    (item : string * pval) : forall w,
  internal_to_web_loop (items ++ [item]) w
  = (w' ← internal_to_web_loop items w; internal_to_web_step w' item).
Proof.
  induction items as [|x items IH]; intros w.
  - cbn [app internal_to_web_loop mbind result_bind].
    by destruct (internal_to_web_step w item).
  - cbn [app internal_to_web_loop].
    destruct (internal_to_web_step w x) as [w1|e]; [|done].
    cbn [mbind result_bind]. apply IH.
Qed.

(** [internal_to_web_params] on well-formed bindings does not raise, and
    the web format it builds holds the numbers of every binding. *)
Lemma internal_to_web_holds (items : list (string * pval)) :
  NoDup items.*1 -> Forall internal_binding items ->
  exists w, internal_to_web_params items = Ok w /\ Forall (web_holds w) items.
Proof.
  unfold internal_to_web_params.
  induction items as [|[k v] items IH] using rev_ind; intros Hnd Hall.
  { exists ∅. by split. }
  rewrite fmap_app in Hnd. apply NoDup_app in Hnd as (Hnd & Hk & _).
  apply Forall_app in Hall as [Hall Hkv]. apply Forall_cons in Hkv as [Hkv _].
  destruct (IH Hnd Hall) as (w & Hw & Hholds).
  destruct (internal_to_web_step_ok w k v Hkv) as (w' & Hstep & Hnew & Hframe).
  exists w'. split.
  { rewrite internal_to_web_loop_snoc, Hw. exact Hstep. }
  apply Forall_app. split; [|by constructor].
  rewrite Forall_forall in Hholds, Hall. apply Forall_forall.
  intros [k0 v0] Hin. specialize (Hholds _ Hin).
  destruct (Hall _ Hin) as (Hne0 & Hc0 & _).
  destruct Hkv as (Hne & Hc & _). cbn [fst snd] in *.
  assert (k0 <> k) as Hk0.
  { intros ->. apply (Hk k); [|cbn; apply list_elem_of_here].
    apply list_elem_of_fmap. by exists (k, v0). }
  assert (k0 <> companion k) as Hk0c by (apply not_eq_sym; by apply companion_other).
  unfold web_holds in *. cbn [fst snd] in *.
  destruct v0 as [x|xs].
  - by rewrite Hframe.
  - destruct Hholds as [H0 H1]. split; [by rewrite Hframe|].
    rewrite Hframe; [done|by apply companion_other|].
    intros E. by apply companion_inj in E.
Qed.

(** One round of [web_to_internal_params] on the key of a well-formed
    binding whose numbers the web format holds: it binds the key to the
    value. *)
Lemma web_to_internal_step_value (w : gmap string R) (acc : gmap string pval)
    (k : string) (v : pval) :
  internal_binding (k, v) -> web_holds w (k, v) ->
  web_to_internal_step w acc k = Ok (<[k := v]> acc).
Proof.
  intros (Hne & Hc & Hshape) Hw. cbn [fst snd] in *.
  unfold is_companion in Hc. apply orb_false_iff in Hc as [Hn HB].
  unfold web_to_internal_step. rewrite Hn, HB.
  destruct k as [|c k1]; [done|]. unfold pair_key in Hshape.
  unfold web_holds, companion in Hw. cbn [Str.startswith fst snd] in *.
  cbn [first_char mbind result_bind].
  destruct (Ascii.eqb c "Q") eqn:EQ; cbn [orb] in Hshape.
  - destruct Hshape as (a & b & ->). destruct Hw as [Ha Hb].
    unfold web_get. rewrite Ha. cbn [lookup list_lookup mbind result_bind].
    by rewrite Hb.
  - destruct (Ascii.eqb c "S" || Ascii.eqb c "O") eqn:ES.
    + destruct Hshape as (a & b & ->). destruct Hw as [Ha Hb].
      unfold web_get. rewrite Ha. cbn [lookup list_lookup mbind result_bind].
      by rewrite Hb.
    + destruct Hshape as (x & ->). unfold web_get. by rewrite Hw.
Qed.

Lemma web_to_internal_loop_values (w : gmap string R)
    (items : list (string * pval)) (names : list string) :
  NoDup items.*1 -> Forall internal_binding items -> Forall (web_holds w) items ->
  (forall k, k ∈ names -> k ∈ items.*1 \/ is_companion k = true) ->
  forall acc, exists r,
    web_to_internal_loop w names acc = Ok r
    /\ forall k,
         (k ∈ names -> is_companion k = false ->
          r !! k = (list_to_map items : gmap string pval) !! k)
         /\ (~ (k ∈ names /\ is_companion k = false) -> r !! k = acc !! k).
Proof.
  intros Hnd Hall Hholds. induction names as [|n names IH]; intros Hnames acc.
  { exists acc. split; [done|]. intros k. split; [|done].
    intros Hk. by apply elem_of_nil in Hk. }
  assert (forall k, k ∈ names -> k ∈ items.*1 \/ is_companion k = true) as Hrest
    by (intros k Hk; by apply Hnames, list_elem_of_further).
  cbn [web_to_internal_loop].
  destruct (is_companion n) eqn:En.
  - assert (web_to_internal_step w acc n = Ok acc) as ->.
    { unfold web_to_internal_step. unfold is_companion in En.
      destruct (str_endswith "_n" n); [done|]. cbn [orb] in En. by rewrite En. }
    cbn [mbind result_bind]. destruct (IH Hrest acc) as (r & Hr & Hlook).
    exists r. split; [done|]. intros k. destruct (Hlook k) as [Hin Hout].
    split.
    + intros Hk Hc. apply elem_of_cons in Hk as [-> | Hk]; [congruence|].
      by apply Hin.
    + intros Hno. apply Hout. intros [Hk Hc]. apply Hno.
      split; [by apply list_elem_of_further|done].
  - destruct (Hnames n) as [Hn|Hn]; [apply list_elem_of_here| |congruence].
    apply list_elem_of_fmap in Hn as ([k0 v] & Hk0 & Hin). cbn [fst] in Hk0.
    subst k0.
    rewrite Forall_forall in Hall, Hholds.
    rewrite (web_to_internal_step_value w acc n v (Hall _ Hin) (Hholds _ Hin)).
    cbn [mbind result_bind].
    destruct (IH Hrest (<[n := v]> acc)) as (r & Hr & Hlook).
    exists r. split; [done|]. intros k. destruct (Hlook k) as [Hin' Hout].
    destruct (decide (k ∈ names /\ is_companion k = false)) as [[Hk Hc]|Hno].
    + split; [intros _ _; by apply Hin'|]. intros Hno. destruct Hno.
      split; [by apply list_elem_of_further|done].
    + rewrite (Hout Hno). split.
      * intros Hk Hc. apply elem_of_cons in Hk as [-> | Hk];
          [|destruct Hno; by split].
        rewrite lookup_insert_eq. symmetry.
        by apply elem_of_list_to_map_1.
      * intros Hno'. rewrite lookup_insert_ne; [done|].
        intros <-. apply Hno'. split; [apply list_elem_of_here|done].
Qed.

(** X13: the web format built from an internal mapping of well-formed
    bindings converts back to that mapping, whenever the names list every
    key of the mapping and nothing else but companion names. *)
Theorem web_round_trip (items : list (string * pval)) (names : list string) :
  NoDup items.*1 ->
  Forall internal_binding items ->
  (forall k, k ∈ items.*1 -> k ∈ names) ->
  (forall k, k ∈ names -> k ∈ items.*1 \/ is_companion k = true) ->
  exists web,
    internal_to_web_params items = Ok web
    /\ web_to_internal_params web names = Ok (list_to_map items).
Proof.
  intros Hnd Hall Hkeys Hnames.
  destruct (internal_to_web_holds items Hnd Hall) as (w & Hw & Hholds).
  exists w. split; [done|]. unfold web_to_internal_params.
  destruct (web_to_internal_loop_values w items names Hnd Hall Hholds Hnames ∅)
    as (r & -> & Hlook).
  f_equal. apply map_eq. intros k. destruct (Hlook k) as [Hin Hout].
  destruct (decide (k ∈ names /\ is_companion k = false)) as [[Hk Hc]|Hno].
  - by apply Hin.
  - rewrite (Hout Hno), lookup_empty. symmetry.
    apply not_elem_of_list_to_map_1. intros Hk. apply Hno.
    split; [by apply Hkeys|].
    apply list_elem_of_fmap in Hk as ([k0 v] & -> & Hkv).
    rewrite Forall_forall in Hall. by destruct (Hall _ Hkv) as (_ & ? & _).
Qed.

Lemma web_round_trip_witness :
  exists web,
    internal_to_web_params [("R1", Scalar 100%R); ("Q1", Tuple [2; 1 / 2]%R)]
    = Ok web
    /\ web_to_internal_params web ["R1"; "Q1"; "Q1_n"]
       = Ok (list_to_map [("R1", Scalar 100%R); ("Q1", Tuple [2; 1 / 2]%R)]).
Proof.
  apply web_round_trip.
  - cbn. apply NoDup_cons. split; [|apply NoDup_singleton].
    intros H. apply elem_of_cons in H as [H|H]; [discriminate H|].
    by apply elem_of_nil in H.
  - apply Forall_cons. split; [|apply Forall_cons; split; [|by constructor]].
    + split; [discriminate|]. split; [reflexivity|]. cbn. by eexists.
    + split; [discriminate|]. split; [reflexivity|]. cbn. by eexists _, _.
  - intros k Hk. cbn in Hk.
    apply elem_of_cons in Hk as [-> | Hk]; [apply list_elem_of_here|].
    apply elem_of_cons in Hk as [-> | Hk];
      [apply list_elem_of_further, list_elem_of_here|].
    by apply elem_of_nil in Hk.
  - intros k Hk. cbn.
    apply elem_of_cons in Hk as [-> | Hk]; [left; apply list_elem_of_here|].
    apply elem_of_cons in Hk as [-> | Hk];
      [left; apply list_elem_of_further, list_elem_of_here|].
    apply elem_of_cons in Hk as [-> | Hk]; [right; reflexivity|].
    by apply elem_of_nil in Hk.
Defined.

(** What one round of [web_to_internal_params] does to the mapping:
    nothing, or it binds the name, in a well-formed binding. *)
Lemma web_to_internal_step_binding (w : gmap string R) (acc acc' : gmap string pval)
    (n : string) :
  web_to_internal_step w acc n = Ok acc' ->
  (is_companion n = true /\ acc' = acc)
  \/ exists v, acc' = <[n := v]> acc /\ internal_binding (n, v).
Proof.
  unfold web_to_internal_step, is_companion.
  destruct (str_endswith "_n" n) eqn:En; [intros [= <-]; left; by split|].
  destruct (str_endswith "_B" n) eqn:EB; [intros [= <-]; left; by split|].
  destruct n as [|c n1]; [done|]. cbn [first_char mbind result_bind].
  assert (forall v,
            (if Ascii.eqb c "Q" || Ascii.eqb c "S" || Ascii.eqb c "O"
             then exists a b, v = Tuple [a; b] else exists x, v = Scalar x) ->
            internal_binding (String c n1, v)) as Hb.
  { intros v Hv. unfold internal_binding, is_companion, pair_key.
    cbn [fst snd Str.startswith]. by rewrite En, EB. }
  destruct (Ascii.eqb c "Q") eqn:EQ.
  - destruct (web_get w (String c n1)) as [q|e]; [|done].
    cbn [mbind result_bind]. intros [= <-]. right. eexists.
    split; [done|]. apply Hb. cbn [orb]. by eexists _, _.
  - destruct (Ascii.eqb c "S" || Ascii.eqb c "O") eqn:ES.
    + destruct (web_get w (String c n1)) as [aw|e]; [|done].
      cbn [mbind result_bind].
      destruct (web_get w _) as [b|e]; [|done].
      cbn [mbind result_bind]. intros [= <-]. right. eexists.
      split; [done|]. apply Hb. cbn [orb]. rewrite ES. by eexists _, _.
    + destruct (web_get w (String c n1)) as [x|e]; [|done].
      cbn [mbind result_bind]. intros [= <-]. right. eexists.
      split; [done|]. apply Hb. cbn [orb]. rewrite ES. by eexists.
Qed.

Lemma web_to_internal_loop_bindings (w : gmap string R) (names : list string) :
  forall acc r,
    web_to_internal_loop w names acc = Ok r ->
    forall k v, r !! k = Some v ->
      acc !! k = Some v \/ (k ∈ names /\ internal_binding (k, v)).
Proof.
  induction names as [|n names IH]; intros acc r Hr k v Hk.
  { injection Hr as <-. by left. }
  cbn [web_to_internal_loop] in Hr.
  destruct (web_to_internal_step w acc n) as [acc'|e] eqn:Hstep; [|done].
  cbn [mbind result_bind] in Hr.
  destruct (IH acc' r Hr k v Hk) as [Hacc|[Hin Hb]];
    [|right; split; [by apply list_elem_of_further|done]].
  apply web_to_internal_step_binding in Hstep as [[_ ->]|(v' & -> & Hb)];
    [by left|].
  destruct (decide (k = n)) as [->|Hne].
  - rewrite lookup_insert_eq in Hacc. injection Hacc as ->.
    right. split; [apply list_elem_of_here|done].
  - rewrite lookup_insert_ne in Hacc by done. by left.
Qed.

(** X14: every binding of the mapping that [web_to_internal_params]
    returns is well formed: its key is one of the names, not empty and no
    companion name, and it binds a pair of numbers when it starts with Q, S
    or O and a float otherwise. *)
Theorem web_to_internal_well_formed (w : gmap string R) (names : list string)
    (d : gmap string pval) :
  web_to_internal_params w names = Ok d ->
  forall k v, d !! k = Some v -> k ∈ names /\ internal_binding (k, v).
Proof.
  intros Hd k v Hk.
  by destruct (web_to_internal_loop_bindings w names ∅ d Hd k v Hk).
Qed.

Lemma web_to_internal_well_formed_witness :
  "Q1" ∈ ["R1"; "Q1"; "Q1_n"] /\ internal_binding ("Q1", Tuple [2; 1 / 2]%R).
Proof.
  apply (web_to_internal_well_formed
           (<["R1" := 100%R]> (<["Q1" := 2%R]> (<["Q1_n" := (1 / 2)%R]> ∅)))
           ["R1"; "Q1"; "Q1_n"] params_Q1_R1).
  - vm_compute. reflexivity.
  - reflexivity.
Defined.

Lemma blocks_aligned (eps : R) (its : list (string * pval)) :
  Forall internal_binding its ->
  length (its ≫= fun kv => lower_block eps kv.1 kv.2)
  = length (its ≫= fun kv => values kv.2)
  /\ length (its ≫= fun kv => upper_block kv.1 kv.2)
     = length (its ≫= fun kv => values kv.2).
Proof.
  induction 1 as [|[k v] its Hkv _ [IHl IHu]]; [done|].
  cbn [mbind list_bind fst snd]. rewrite !length_app, IHl, IHu.
  destruct (bounds_aligned eps k v) as [Hl Hu].
  { intros xs -> HQ. destruct Hkv as (_ & _ & Hshape).
    unfold pair_key in Hshape. cbn [fst snd] in Hshape. rewrite HQ in Hshape.
    cbn [orb] in Hshape. by destruct Hshape as (a & b & [= ->]). }
  rewrite Hl, Hu. by destruct v.
Qed.

(** X15: for a mapping that [web_to_internal_params] returned, the first
    loop of [fit] hands to [curve_fit] as many lower bounds and as many
    upper bounds as initial values. *)
Theorem web_to_internal_bounds_aligned (w : gmap string R) (names : list string)
    (d : gmap string pval) (eps : R) (fl : flat) :
  web_to_internal_params w names = Ok d ->
  flatten eps d = Ok fl ->
  length (lower_bounds fl) = length (p0 fl)
  /\ length (upper_bounds fl) = length (p0 fl).
Proof.
  intros Hd. rewrite flatten_closed. intros [= <-].
  cbn [lower_bounds upper_bounds p0]. apply blocks_aligned.
  apply Forall_forall. intros [k v] Hin. apply elem_of_sorted_items in Hin.
  by destruct (web_to_internal_loop_bindings w names ∅ d Hd k v Hin) as [?|[_ ?]].
Qed.

Lemma web_to_internal_bounds_aligned_witness :
  exists fl,
    flatten default_eps params_Q1_R1 = Ok fl
    /\ length (lower_bounds fl) = length (p0 fl)
    /\ length (upper_bounds fl) = length (p0 fl).
Proof.
  rewrite flatten_closed. eexists. split; [reflexivity|].
  apply (web_to_internal_bounds_aligned
           (<["R1" := 100%R]> (<["Q1" := 2%R]> (<["Q1_n" := (1 / 2)%R]> ∅)))
           ["R1"; "Q1"; "Q1_n"] params_Q1_R1 default_eps).
  - vm_compute. reflexivity.
  - apply flatten_closed.
Defined.

Lemma web_to_internal_loop_keeps (w : gmap string R) (key : string) (V : pval)
    (names : list string) :
  (forall acc, web_to_internal_step w acc key = Ok (<[key := V]> acc)) ->
  forall acc r,
    web_to_internal_loop w names acc = Ok r ->
    key ∈ names \/ acc !! key = Some V ->
    r !! key = Some V.
Proof.
  intros Hkey. induction names as [|n names IH]; intros acc r Hr Hin.
  { injection Hr as <-. destruct Hin as [Hin|Hin]; [|done].
    by apply elem_of_nil in Hin. }
  cbn [web_to_internal_loop] in Hr.
  destruct (web_to_internal_step w acc n) as [acc'|e] eqn:Hstep; [|done].
  cbn [mbind result_bind] in Hr. apply (IH acc' r Hr).
  destruct (decide (n = key)) as [->|Hne].
  - right. rewrite Hkey in Hstep. injection Hstep as <-.
    by rewrite lookup_insert_eq.
  - destruct Hin as [Hin|Hin].
    + apply elem_of_cons in Hin as [->|Hin]; [done|by left].
    + right.
      apply web_to_internal_step_binding in Hstep as [[_ ->]|(v' & -> & _)];
        [done|]. by rewrite lookup_insert_ne.
Qed.

(** X16: a name that starts with Q whose exponent the web format does
    not hold is bound to the pair of its number and the exponent 0.9. *)
Theorem web_to_internal_default_exponent (w : gmap string R) (names : list string)
    (d : gmap string pval) (key : string) (x : R) :
  web_to_internal_params w names = Ok d ->
  key ∈ names -> is_companion key = false ->
  Str.startswith "Q" key = true ->
  w !! key = Some x -> w !! (key +:+ "_n") = None ->
  d !! key = Some (Tuple [x; default_exponent]).
Proof.
  intros Hd Hin Hc HQ Hx Hn.
  apply (web_to_internal_loop_keeps w key _ names) with (acc := ∅); [|done|by left].
  intros acc. unfold web_to_internal_step.
  unfold is_companion in Hc. apply orb_false_iff in Hc as [-> ->].
  destruct key as [|c k1]; [done|]. cbn [Str.startswith] in HQ.
  cbn [first_char mbind result_bind]. rewrite HQ. unfold web_get. rewrite Hx.
  cbn [mbind result_bind]. by rewrite Hn.
Qed.

Lemma web_to_internal_default_exponent_witness :
  (<["Q1" := Tuple [2%R; default_exponent]]> (<["R1" := Scalar 100%R]> ∅)
     : gmap string pval) !! "Q1"
  = Some (Tuple [2%R; default_exponent]).
Proof.
  apply (web_to_internal_default_exponent
           (<["R1" := 100%R]> (<["Q1" := 2%R]> ∅)) ["R1"; "Q1"]).
  - vm_compute. reflexivity.
  - apply list_elem_of_further, list_elem_of_here.
  - reflexivity.
  - reflexivity.
  - reflexivity.
  - reflexivity.
Defined.

Lemma web_to_internal_loop_raises (w : gmap string R) (key : string)
    (names : list string) :
  (forall acc, is_ok (web_to_internal_step w acc key) = false) ->
  key ∈ names ->
  forall acc, is_ok (web_to_internal_loop w names acc) = false.
Proof.
  intros Hkey. induction names as [|n names IH]; intros Hin acc.
  { by apply elem_of_nil in Hin. }
  cbn [web_to_internal_loop].
  destruct (web_to_internal_step w acc n) as [acc'|e] eqn:Hstep; [|done].
  cbn [mbind result_bind]. apply IH.
  apply elem_of_cons in Hin as [->|Hin]; [|done].
  specialize (Hkey acc). by rewrite Hstep in Hkey.
Qed.

(** X17: the conversion raises when the web format does not hold the
    number of a name that is no companion name, or not the second number
    B of a name that starts with S or O. *)
Theorem web_to_internal_missing (w : gmap string R) (names : list string)
    (key : string) :
  key ∈ names -> is_companion key = false ->
  w !! key = None
  \/ (Str.startswith "S" key || Str.startswith "O" key = true
      /\ w !! (key +:+ "_B") = None) ->
  is_ok (web_to_internal_params w names) = false.
Proof.
  intros Hin Hc Hmiss. apply (web_to_internal_loop_raises w key); [|done].
  intros acc. unfold web_to_internal_step.
  unfold is_companion in Hc. apply orb_false_iff in Hc as [-> ->].
  destruct key as [|c k1]; [done|]. cbn [Str.startswith] in Hmiss.
  cbn [first_char mbind result_bind]. unfold web_get.
  destruct (Ascii.eqb c "Q") eqn:EQ.
  - destruct Hmiss as [->|[HSO _]]; [done|].
    apply Ascii.eqb_eq in EQ. by subst c.
  - destruct (Ascii.eqb c "S" || Ascii.eqb c "O") eqn:ES.
    + destruct Hmiss as [->|[_ ->]]; [done|].
      by destruct (w !! String c k1).
    + destruct Hmiss as [->|[HSO _]]; [done|]. congruence.
Qed.

Lemma web_to_internal_missing_witness :
  is_ok (web_to_internal_params (<["R1" := 100%R]> (<["S1" := 2%R]> ∅))
           ["R1"; "S1"; "S1_B"]) = false.
Proof.
  apply (web_to_internal_missing _ _ "S1").
  - apply list_elem_of_further, list_elem_of_here.
  - reflexivity.
  - right. split; reflexivity.
Defined.

End WebFormat.

(** ** The validation of a circuit string *)

Section PatternFacts.

Local Open Scope list_scope.

Lemma is_tag_not_digit (c : ascii) : is_tag c = true -> is_digit c = false.
Proof.
  unfold is_tag. rewrite !orb_true_iff, !Ascii.eqb_eq.
  intros [[[[[[-> | ->] | ->] | ->] | ->] | ->] | ->]; reflexivity.
Qed.

Lemma tag_is_tag (k : element_kind) : exists c, tag k = String c "" /\ is_tag c = true.
Proof. destruct k; eexists; split; reflexivity. Qed.

Lemma digits_snoc (ds : string) (c : ascii) :
  digits (ds +:+ String c "") = digits ds && is_digit c.
Proof.
  induction ds as [|d ds IH]; [simpl; by rewrite andb_true_r|].
  rewrite append_cons. simpl. by rewrite IH, andb_assoc.
Qed.

Lemma findall_skip (c : ascii) (r : string) :
  is_digit c = false -> is_tag c = false ->
  findall_loop (String c r) None = findall_loop r None.
Proof. intros Hd Ht. simpl. by rewrite Hd, Ht. Qed.

Lemma findall_digits (ds : string) : forall m rest,
  digits ds = true ->
  findall_loop (ds +:+ rest) (Some m) = findall_loop rest (Some (m +:+ ds)).
Proof.
  induction ds as [|c ds IH]; intros m rest Hds.
  - by rewrite append_empty_r.
  - simpl in Hds. apply andb_true_iff in Hds as [Hc Hds].
    rewrite append_cons. cbn [findall_loop]. rewrite Hc, IH by done.
    by rewrite append_assoc.
Qed.

(** A match followed by no digit is found, and the scan goes on after
    it. *)
Lemma findall_elem (t : ascii) (ds rest : string) :
  is_tag t = true -> ds <> "" -> digits ds = true -> no_digit_head rest ->
  findall_loop (String t ds +:+ rest) None
  = String t ds :: findall_loop rest None.
Proof.
  intros Ht Hne Hds Hrest. rewrite append_cons. cbn [findall_loop].
  rewrite (is_tag_not_digit t Ht), Ht. cbn [flush app].
  rewrite findall_digits by done. rewrite append_cons.
  change ("" +:+ ds) with ds.
  destruct ds as [|d ds]; [done|].
  destruct rest as [|c rest]; [done|]. cbn [no_digit_head] in Hrest.
  cbn [findall_loop]. by rewrite Hrest.
Qed.

Lemma findall_concat (sep : ascii) (f : CircuitNode -> string)
    (l : list CircuitNode) :
  is_digit sep = false -> is_tag sep = false ->
  Forall (fun c => forall rest, no_digit_head rest ->
            findall_loop (f c +:+ rest) None
            = node_keys c ++ findall_loop rest None) l ->
  forall rest, no_digit_head rest ->
    findall_loop (String.concat (String sep "") (map f l) +:+ rest) None
    = flat_map node_keys l ++ findall_loop rest None.
Proof.
  intros Hd Ht. induction l as [|x l IH]; intros Hall rest Hrest; [done|].
  apply Forall_cons in Hall as [Hx Hl]. destruct l as [|y l].
  - cbn [map String.concat flat_map]. rewrite app_nil_r. by apply Hx.
  - cbn [map]. rewrite concat_cons2, !append_assoc, append_cons.
    change ("" +:+ ?s) with s. rewrite Hx by exact Hd.
    rewrite findall_skip by done.
    change (flat_map node_keys (x :: y :: l))
      with (node_keys x ++ flat_map node_keys (y :: l)).
    rewrite <- app_assoc. f_equal. by apply IH.
Qed.

Lemma findall_tree (t : CircuitNode) :
  numbered t = true ->
  forall rest, no_digit_head rest ->
    findall_loop (node_str t +:+ rest) None
    = node_keys t ++ findall_loop rest None.
Proof.
  induction t as [e|children IH|children IH] using CircuitNode_induction.
  - cbn [numbered node_str node_keys]. unfold element_str.
    destruct (name e) as [n|]; [|done]. intros Hn rest Hrest.
    apply andb_true_iff in Hn as [Hne Hds]. apply negb_true_iff in Hne.
    apply String.eqb_neq in Hne.
    destruct (tag_is_tag (kind e)) as (c & -> & Hc).
    change (String c "" +:+ n) with (String c n).
    by apply findall_elem.
  - cbn [numbered node_str node_keys]. intros Hn.
    apply (findall_concat "-" node_str); [done..|].
    rewrite forallb_forall in Hn. rewrite Forall_forall in IH.
    apply Forall_forall. intros c Hc. apply IH; [done|].
    by apply Hn, list_elem_of_In.
  - cbn [numbered node_str node_keys]. intros Hn.
    apply (findall_concat "|" child_str); [done..|].
    rewrite forallb_forall in Hn. rewrite Forall_forall in IH.
    apply Forall_forall. intros c Hc rest Hrest.
    specialize (IH c Hc (Hn c (proj1 (list_elem_of_In _ _) Hc))).
    unfold child_str. destruct (is_series c); [|by apply IH].
    rewrite !append_assoc, append_cons. change ("" +:+ ?s) with s.
    rewrite findall_skip by done. rewrite IH by done.
    by rewrite append_cons, findall_skip.
Qed.

(** X18: in the string of a tree whose elements are named by numbers the
    pattern of the validation finds the keys that the evaluation of the
    tree looks up, in the same order. *)
Theorem findall_node_str (t : CircuitNode) :
  numbered t = true -> findall (node_str t) = node_keys t.
Proof.
  intros Hn. unfold findall.
  pose proof (findall_tree t Hn "" I) as H.
  rewrite append_empty_r in H. rewrite H. cbn [findall_loop flush].
  apply app_nil_r.
Qed.

Lemma findall_node_str_witness :
  findall "R1-(R2-W10)|Q1" = ["R1"; "R2"; "W10"; "Q1"].
Proof.
  apply (findall_node_str
           (SeriesNode
              [ ElementNode (mkElement Resistor (Some "1"));
                ParallelNode
                  [ SeriesNode
                      [ ElementNode (mkElement Resistor (Some "2"));
                        ElementNode (mkElement Warburg (Some "10")) ];
                    ElementNode (mkElement CPE (Some "1")) ] ])).
  reflexivity.
Defined.

(** What the scan keeps is a tag followed by digits only. *)
Lemma findall_loop_shape (s : string) : forall cur,
  match cur with
  | Some m => exists t ds, m = String t ds /\ is_tag t = true /\ digits ds = true
  | None => True
  end ->
  Forall elem_shape (findall_loop s cur).
Proof.
  assert (forall cur,
            match cur with
            | Some m => exists t ds, m = String t ds /\ is_tag t = true /\ digits ds = true
            | None => True
            end -> Forall elem_shape (flush cur)) as Hflush.
  { intros [m|] Hcur; [|constructor]. destruct Hcur as (t & ds & -> & Ht & Hds).
    destruct ds as [|d ds]; [constructor|]. cbn [flush].
    constructor; [|constructor]. by exists t, (String d ds). }
  induction s as [|c s IH]; intros cur Hcur; [by apply Hflush|].
  cbn [findall_loop]. destruct (is_digit c) eqn:Hc.
  - destruct cur as [m|]; [|by apply IH].
    apply IH. destruct Hcur as (t & ds & -> & Ht & Hds).
    exists t, (ds +:+ String c ""). split; [done|]. split; [done|].
    by rewrite digits_snoc, Hds, Hc.
  - apply Forall_app. split; [by apply Hflush|]. apply IH.
    destruct (is_tag c) eqn:Ht; [|done]. by exists c, "".
Qed.

Lemma findall_shape (s : string) : Forall elem_shape (findall s).
Proof. by apply findall_loop_shape. Qed.

Lemma element_params_expand (e : string) :
  elem_shape e -> element_params e = Ok (expand e).
Proof.
  intros (t & ds & -> & _). unfold element_params, expand.
  cbn [first_char mbind result_bind Str.startswith].
  destruct (Ascii.eqb t "Q"); [done|].
  by destruct (Ascii.eqb t "S" || Ascii.eqb t "O").
Qed.

Lemma traverse_element_params (es : list string) :
  Forall elem_shape es -> traverse element_params es = Ok (map expand es).
Proof.
  induction 1 as [|e es He _ IH]; [done|].
  cbn [traverse map]. rewrite (element_params_expand e He).
  cbn [mbind result_bind]. by rewrite IH.
Qed.

Lemma sorted_elements_shape (s : string) :
  Forall elem_shape (sorted (remove_dups (findall s))).
Proof.
  apply Forall_forall. intros e He.
  unfold sorted in He. rewrite merge_sort_Permutation in He.
  apply (proj1 (elem_of_remove_dups _ _)) in He.
  pose proof (findall_shape s) as Hall. rewrite Forall_forall in Hall.
  by apply Hall.
Qed.

(** The validation in closed form: the lookup [elem[0]] never
    raises. *)
Lemma validate_closed (recursion_limit : nat) (s : string) :
  validate_circuit_string recursion_limit s
  = match parse_circuit recursion_limit s with
    | Ok _ =>
        let names := concat (map expand (sorted (remove_dups (findall s)))) in
        Valid names ("Valid circuit! Found parameters: " +:+ String.concat ", " names)
    | Err e => Invalid ("Invalid circuit: " +:+ exn_message e)
    end.
Proof.
  unfold validate_circuit_string.
  destruct (parse_circuit recursion_limit s) as [t|e]; [|done].
  cbn [mbind result_bind].
  by rewrite (traverse_element_params _ (sorted_elements_shape s)).
Qed.

(** X19: the validation reports a string as valid exactly when the
    parser returns a tree for it, and otherwise the error it reports is the
    parser's exception: listing the parameters never raises. *)
Theorem validate_reports_parser (recursion_limit : nat) (s : string) :
  match validate_circuit_string recursion_limit s with
  | Valid _ _ => is_ok (parse_circuit recursion_limit s) = true
  | Invalid error =>
      exists e, parse_circuit recursion_limit s = Err e
                /\ error = "Invalid circuit: " +:+ exn_message e
  end.
Proof.
  rewrite validate_closed.
  destruct (parse_circuit recursion_limit s) as [t|e]; [done|]. by exists e.
Qed.

Lemma str_endswith_last (a b : ascii) (s : string) :
  str_endswith (String a (String b "")) s = true -> Str.endswith b s = true.
Proof.
  induction s as [|d s IH]; [done|]. cbn [str_endswith].
  rewrite orb_true_iff. intros [E|E].
  - apply String.eqb_eq in E. injection E as -> ->. simpl. apply Ascii.eqb_refl.
  - specialize (IH E). destruct s as [|d' s]; [done|]. exact IH.
Qed.

Lemma endswith_digits (c : ascii) (ds : string) : forall t,
  ds <> "" -> digits ds = true ->
  Str.endswith c (String t ds) = true -> is_digit c = true.
Proof.
  induction ds as [|d ds IH]; intros t Hne Hds; [done|].
  cbn [digits] in Hds. apply andb_true_iff in Hds as [Hd Hds].
  change (Str.endswith c (String t (String d ds)))
    with (Str.endswith c (String d ds)).
  destruct ds as [|d' ds].
  - simpl. intros E. apply Ascii.eqb_eq in E. by subst.
  - by apply IH.
Qed.

Lemma shape_not_companion (e : string) : elem_shape e -> is_companion e = false.
Proof.
  intros (t & ds & -> & _ & Hne & Hds). unfold is_companion.
  apply orb_false_iff. split.
  - destruct (str_endswith "_n" (String t ds)) eqn:E; [|done].
    apply str_endswith_last in E. by apply endswith_digits in E.
  - destruct (str_endswith "_B" (String t ds)) eqn:E; [|done].
    apply str_endswith_last in E. by apply endswith_digits in E.
Qed.

Lemma web_skip_companion (w : gmap string R) (acc : gmap string pval) (k : string) :
  is_companion k = true -> web_to_internal_step w acc k = Ok acc.
Proof.
  unfold is_companion, web_to_internal_step. intros Hk.
  destruct (str_endswith "_n" k); [done|]. cbn [orb] in Hk. by rewrite Hk.
Qed.

(** The rounds of [web_to_internal_params] on the names that the
    validation lists for one element bind the element. *)
Lemma web_group (w : gmap string R) (e : string) :
  elem_shape e ->
  (forall k, k ∈ expand e -> is_Some (w !! k)) ->
  exists v, forall rest acc,
    web_to_internal_loop w (expand e ++ rest) acc
    = web_to_internal_loop w rest (<[e := v]> acc).
Proof.
  intros He Hw. pose proof (shape_not_companion e He) as Hc.
  destruct He as (t & ds & -> & _).
  unfold is_companion in Hc. apply orb_false_iff in Hc as [Hn HB].
  destruct (Hw (String t ds)) as [x Hx].
  { unfold expand. destruct (Str.startswith "Q" _); [apply list_elem_of_here|].
    destruct (_ || _); apply list_elem_of_here. }
  assert (forall acc,
              web_to_internal_step w acc (String t ds)
              = (if Ascii.eqb t "Q" then
                   Ok (<[String t ds :=
                         Tuple [x; default default_exponent
                                     (w !! (String t ds +:+ "_n"))]]> acc)
                 else if Ascii.eqb t "S" || Ascii.eqb t "O" then
                   b_value ← web_get w (String t ds +:+ "_B");
                   Ok (<[String t ds := Tuple [x; b_value]]> acc)
                 else Ok (<[String t ds := Scalar x]> acc))) as Hstep.
  { intros acc. unfold web_to_internal_step. rewrite Hn, HB.
    cbn [first_char mbind result_bind]. unfold web_get at 1 3 4. rewrite Hx.
    reflexivity. }
  unfold expand in *. cbn [Str.startswith] in *.
  destruct (Ascii.eqb t "Q") eqn:EQ.
  - eexists. intros rest acc. cbn [app web_to_internal_loop].
    rewrite Hstep. cbn [mbind result_bind].
    rewrite web_skip_companion; [reflexivity|].
    unfold is_companion. by rewrite (str_endswith_app "_n").
  - destruct (Ascii.eqb t "S" || Ascii.eqb t "O") eqn:ES.
    + destruct (Hw (String t ds +:+ "_B")) as [b Hb];
        [apply list_elem_of_further, list_elem_of_here|].
      eexists. intros rest acc. cbn [app web_to_internal_loop].
      rewrite Hstep. unfold web_get. rewrite Hb. cbn [mbind result_bind].
      rewrite web_skip_companion; [reflexivity|].
      unfold is_companion. rewrite (str_endswith_app "_B"). apply orb_true_r.
    + eexists. intros rest acc. cbn [app web_to_internal_loop].
      rewrite Hstep. reflexivity.
Qed.

Lemma web_groups (w : gmap string R) (es : list string) :
  Forall elem_shape es ->
  (forall k, k ∈ concat (map expand es) -> is_Some (w !! k)) ->
  forall acc, exists r,
    web_to_internal_loop w (concat (map expand es)) acc = Ok r
    /\ forall k, is_Some (r !! k) <-> is_Some (acc !! k) \/ k ∈ es.
Proof.
  induction 1 as [|e es He _ IH]; intros Hw acc.
  { exists acc. split; [done|]. intros k. split; [by left|].
    intros [?|Hk]; [done|]. by apply elem_of_nil in Hk. }
  cbn [map concat] in *.
  destruct (web_group w e He) as [v Hv].
  { intros k Hk. apply Hw, elem_of_app. by left. }
  destruct (IH (fun k Hk => Hw k (proj2 (elem_of_app _ _ _) (or_intror Hk)))
               (<[e := v]> acc)) as (r & Hr & Hdom).
  exists r. split; [by rewrite Hv|]. intros k. rewrite Hdom, elem_of_cons.
  destruct (decide (k = e)) as [->|Hne].
  - rewrite lookup_insert_eq. split; [intros _; right; by left|by left].
  - rewrite lookup_insert_ne by done. tauto.
Qed.

(** X20: the names that the validation lists for a string are accepted
    by [web_to_internal_params] with every web format that holds a number
    under each of them, and the mapping returned binds exactly the elements
    that the pattern finds in the string. *)
Theorem validated_params_convert (recursion_limit : nat) (s : string)
    (names : list string) (message : string) (w : gmap string R) :
  validate_circuit_string recursion_limit s = Valid names message ->
  (forall k, k ∈ names -> is_Some (w !! k)) ->
  exists d,
    web_to_internal_params w names = Ok d
    /\ forall k, is_Some (d !! k) <-> k ∈ findall s.
Proof.
  rewrite validate_closed.
  destruct (parse_circuit recursion_limit s) as [t|e]; [|done].
  cbv zeta. intros [= <- _] Hw.
  destruct (web_groups w _ (sorted_elements_shape s) Hw ∅) as (r & Hr & Hdom).
  exists r. split; [done|]. intros k. rewrite Hdom, lookup_empty.
  unfold sorted. rewrite merge_sort_Permutation, elem_of_remove_dups.
  split; [intros [[? [=]]|?]; done|by right].
Qed.

Lemma validated_params_convert_witness :
  exists d,
    web_to_internal_params
      (<["R1" := 100%R]> (<["Q1" := 2%R]> (<["Q1_n" := (1 / 2)%R]> ∅)))
      ["Q1"; "Q1_n"; "R1"] = Ok d
    /\ forall k, is_Some (d !! k) <-> k ∈ findall "R1-Q1".
Proof.
  apply (validated_params_convert 10 "R1-Q1" ["Q1"; "Q1_n"; "R1"]
           "Valid circuit! Found parameters: Q1, Q1_n, R1").
  - vm_compute. reflexivity.
  - intros k Hk.
    apply elem_of_cons in Hk as [-> | Hk]; [by eexists|].
    apply elem_of_cons in Hk as [-> | Hk]; [by eexists|].
    apply elem_of_cons in Hk as [-> | Hk]; [by eexists|].
    by apply elem_of_nil in Hk.
Defined.

End PatternFacts.

Section PredefinedModels.

Local Open Scope list_scope.

(** X21: the six entries of [CIRCUIT_MODELS] are consistent: each
    circuit parses, the validation lists the names of [params] up to the
    order, and [initial_guess] converts to a mapping that binds every key
    of the circuit. *)
Theorem CIRCUIT_MODELS_consistent : Forall model_consistent CIRCUIT_MODELS.
Proof.
  unfold CIRCUIT_MODELS.
  repeat (apply Forall_cons; split); [..|by constructor];
    (unfold model_consistent;
     cbn [circuit model_params initial_guess];
     eexists _, _, _, _;
     split; [vm_compute; reflexivity|];
     split; [vm_compute; reflexivity|];
     split; [vm_compute; reflexivity|];
     split; [vm_compute; reflexivity|];
     repeat (apply Forall_cons; split; [by eexists|]); by constructor).
Qed.

End PredefinedModels.

(** ** More on the parser *)

Section ParserShape.

Local Open Scope list_scope.

Lemma split_loop_nonempty op (s : string) : forall parts cur d,
  parts <> [] \/ cur <> [] -> split_loop op s parts cur d <> [].
Proof.
  induction s as [|c s IH]; intros parts cur d Hne.
  - cbn [split_loop]. destruct cur as [|a cur].
    + by destruct Hne.
    + by destruct parts.
  - cbn [split_loop].
    destruct (Ascii.eqb c "("); [apply IH; right; by destruct cur|].
    destruct (Ascii.eqb c ")"); [apply IH; right; by destruct cur|].
    destruct (Ascii.eqb c op && (d =? 0)%Z).
    + apply IH. left. by destruct parts.
    + apply IH. right. by destruct cur.
Qed.

Lemma split_nonempty op (s : string) : s <> "" -> _split_by_operator s op <> [].
Proof.
  intros Hs. destruct s as [|c s]; [done|]. unfold _split_by_operator.
  cbn [split_loop].
  destruct (Ascii.eqb c "("); [by apply split_loop_nonempty; right|].
  destruct (Ascii.eqb c ")"); [by apply split_loop_nonempty; right|].
  destruct (Ascii.eqb c op && (0 =? 0)%Z); apply split_loop_nonempty;
    [by left|by right].
Qed.

Lemma contains_nonempty c (s : string) : Str.contains c s = true -> s <> "".
Proof. by destruct s. Qed.

Lemma traverse_shape {A B} (f : A -> result B) (P : B -> Prop) (xs : list A) :
  (forall x y, f x = Ok y -> P y) ->
  forall ys, traverse f xs = Ok ys -> Forall P ys /\ (xs <> [] -> ys <> []).
Proof.
  intros Hf. induction xs as [|x xs IH]; intros ys.
  - intros [= <-]. by split.
  - cbn [traverse]. destruct (f x) as [y|e] eqn:Hy; [|done].
    cbn [mbind result_bind].
    destruct (traverse f xs) as [ys'|e]; [|done].
    cbn [mbind result_bind]. intros [= <-]. split; [|done].
    constructor; [by apply (Hf x)|]. by apply IH.
Qed.

Lemma children_shape (rec : string -> result CircuitNode) (parts : list string)
    (children : list CircuitNode) :
  (forall s t, rec s = Ok t -> parsed_shape t = true) ->
  parts <> [] ->
  traverse rec parts = Ok children ->
  children <> [] /\ forallb parsed_shape children = true.
Proof.
  intros Hrec Hne Htr.
  destruct (traverse_shape rec (fun t => parsed_shape t = true) parts Hrec
              children Htr) as [Hall Hlen].
  split; [by apply Hlen|]. apply forallb_forall. intros c Hc.
  rewrite Forall_forall in Hall. by apply Hall, list_elem_of_In.
Qed.

Lemma create_element_node_shape (s : string) (t : CircuitNode) :
  _create_element_node s = Ok t -> parsed_shape t = true.
Proof.
  unfold _create_element_node. destruct (Str.strip s) as [|c ident]; [done|].
  repeat (destruct (Ascii.eqb c _); [by intros [= <-]|]). done.
Qed.

Lemma split_children_shape (rec : string -> result CircuitNode) (s : string)
    (op : ascii) (mk : list CircuitNode -> CircuitNode) (t : CircuitNode) :
  (forall children, children <> [] ->
     forallb parsed_shape children = true -> parsed_shape (mk children) = true) ->
  (forall s t, rec s = Ok t -> parsed_shape t = true) ->
  s <> "" ->
  (children ← traverse rec (_split_by_operator s op); Ok (mk children)) = Ok t ->
  parsed_shape t = true.
Proof.
  intros Hmk Hrec Hs.
  destruct (traverse rec (_split_by_operator s op)) as [children|e] eqn:Htr;
    [|done].
  cbn [mbind result_bind]. intros [= <-].
  destruct (children_shape rec _ children Hrec (split_nonempty op s Hs) Htr).
  by apply Hmk.
Qed.

Lemma node_shape_series (children : list CircuitNode) :
  children <> [] -> forallb parsed_shape children = true ->
  parsed_shape (SeriesNode children) = true.
Proof. intros Hne Hall. cbn [parsed_shape]. by destruct children. Qed.

Lemma node_shape_parallel (children : list CircuitNode) :
  children <> [] -> forallb parsed_shape children = true ->
  parsed_shape (ParallelNode children) = true.
Proof. intros Hne Hall. cbn [parsed_shape]. by destruct children. Qed.

Lemma parse_body_shape (rec : string -> result CircuitNode) (s : string)
    (t : CircuitNode) :
  (forall s t, rec s = Ok t -> parsed_shape t = true) ->
  parse_circuit_body rec s = Ok t -> parsed_shape t = true.
Proof.
  intros Hrec. unfold parse_circuit_body.
  destruct (Str.contains "(" (Str.strip s)) eqn:Hp.
  - unfold _parse_with_parentheses.
    destruct (scan_operators _ 0 0 (-1) (-1)) as [pp sp].
    destruct (negb (sp =? -1)%Z).
    { apply (split_children_shape rec _ "-" SeriesNode);
        [apply node_shape_series|done|by apply (contains_nonempty "(")]. }
    destruct (negb (pp =? -1)%Z).
    { apply (split_children_shape rec _ "|" ParallelNode);
        [apply node_shape_parallel|done|by apply (contains_nonempty "(")]. }
    destruct (Str.startswith "(" _ && Str.endswith ")" _); [apply Hrec|].
    apply create_element_node_shape.
  - destruct (Str.contains "-" (Str.strip s)) eqn:Hd.
    { apply (split_children_shape rec _ "-" SeriesNode);
        [apply node_shape_series|done|by apply (contains_nonempty "-")]. }
    destruct (Str.contains "|" (Str.strip s)) eqn:Hb.
    { apply (split_children_shape rec _ "|" ParallelNode);
        [apply node_shape_parallel|done|by apply (contains_nonempty "|")]. }
    apply create_element_node_shape.
Qed.

(** X22: a tree that [parse_circuit] returns has no Series or Parallel
    node without a child, and its elements are resistors, capacitors,
    inductors, Warburg elements and CPEs with a name: never a WarburgShort
    or a WarburgOpen, never the name None. *)
Theorem parse_circuit_shape (n : nat) (s : string) (t : CircuitNode) :
  parse_circuit n s = Ok t -> parsed_shape t = true.
Proof.
  revert s t. induction n as [|n IH]; intros s t; [done|].
  cbn [parse_circuit]. by apply parse_body_shape.
Qed.

Lemma parse_circuit_shape_witness :
  parsed_shape
    (SeriesNode
       [ ElementNode (mkElement Resistor (Some "1"));
         ParallelNode
           [ ElementNode (mkElement Capacitor (Some "1"));
             ElementNode (mkElement Inductor (Some "1")) ] ]) = true.
Proof.
  apply (parse_circuit_shape 10 "R1-(C1|L1)"). reflexivity.
Defined.

(** X23: [_split_by_operator] undoes the join: strings that [strip]
    leaves as they are and that have the operator inside parentheses only,
    joined by the operator, are split into these strings again. *)
Theorem split_join (op : ascii) (l : list string) :
  Ascii.eqb op "(" = false -> Ascii.eqb op ")" = false ->
  l <> [] ->
  Forall (fun x => quiet op x 0 = Some 0%Z /\ tight x) l ->
  _split_by_operator (String.concat (String op "") l) op = l.
Proof.
  intros Ho Hc Hne Hall. unfold _split_by_operator.
  by rewrite split_concat.
Qed.

Lemma split_join_witness :
  _split_by_operator (String.concat "-" ["R1"; "(C1-L1)|W1"; "Q 1"]) "-"
  = ["R1"; "(C1-L1)|W1"; "Q 1"].
Proof.
  apply (split_join "-"); [reflexivity|reflexivity|discriminate|].
  repeat (apply Forall_cons; split;
          [split; [reflexivity|split; [reflexivity|split; [reflexivity|discriminate]]]|]).
  by constructor.
Defined.

(** Where the operator stands below depth 0 only, the string is its own
    only part. *)
Lemma split_whole op (s : string) d :
  s <> "" -> quiet op s 0 = Some d ->
  _split_by_operator s op = [Str.strip s].
Proof.
  intros Hs Hq. unfold _split_by_operator.
  pose proof (split_loop_app op s "" [] [] 0 d Hq) as Hsplit.
  rewrite append_empty_r in Hsplit. rewrite Hsplit. cbn [app split_loop].
  destruct (list_ascii_of_string s) as [|a cs] eqn:Hcs.
  - destruct s; [done|simpl in Hcs; discriminate Hcs].
  - rewrite <- Hcs. unfold Str.join. by rewrite string_of_list_ascii_of_string.
Qed.

(** X24: a string without "(" whose "-" all stand after a ")" too many,
    or which has no "-" and whose "|" all stand after one, is parsed by a
    recursion that does not end: under every limit the limit is hit. *)
Theorem parse_circuit_diverges (s : string) (d : Z) (n : nat) :
  Str.contains "(" (Str.strip s) = false ->
  (Str.contains "-" (Str.strip s) = true /\ quiet "-" (Str.strip s) 0 = Some d)
  \/ (Str.contains "-" (Str.strip s) = false
      /\ Str.contains "|" (Str.strip s) = true
      /\ quiet "|" (Str.strip s) 0 = Some d) ->
  parse_circuit n s = Err RecursionError.
Proof.
  intros Hp Hop. revert s Hp Hop. induction n as [|n IH]; intros s Hp Hop; [done|].
  assert (parse_circuit n (Str.strip s) = Err RecursionError) as Hrec
    by (apply IH; by rewrite strip_idempotent).
  cbn [parse_circuit]. unfold parse_circuit_body. rewrite Hp.
  destruct Hop as [[Hd Hq]|(Hd & Hb & Hq)]; rewrite Hd.
  - rewrite (split_whole "-" _ d (contains_nonempty _ _ Hd) Hq).
    rewrite strip_idempotent. cbn [traverse]. by rewrite Hrec.
  - rewrite Hb. rewrite (split_whole "|" _ d (contains_nonempty _ _ Hb) Hq).
    rewrite strip_idempotent. cbn [traverse]. by rewrite Hrec.
Qed.

Lemma parse_circuit_diverges_witness :
  parse_circuit 1000 " R1)|C1 " = Err RecursionError.
Proof.
  apply (parse_circuit_diverges " R1)|C1 " (-1)); [reflexivity|].
  right. split; [reflexivity|]. split; reflexivity.
Defined.

End ParserShape.
